(** * Aj-gpt-07: markdown renderer, streaming consumer and session store

    A shallow embedding of the chat client's core (the [index.tsx] sources):
    the sanitizing markdown renderer [parseMarkdown], the streaming turn of
    [handleFormSubmit] / [handleRegenerate], and the session store
    ([saveCurrentChat], [deleteChat], [renameChat], the pin, archive and
    bookmark toggles, [loadChatSession], [loadHistoryFromStorage],
    [loadSettings] and the drafts).

    JavaScript strings are sequences of UTF-16 code units; they are modelled
    as lists of code units ([N]).  Regular expressions without the [u] flag
    work on code units, so every pattern of the source is written as a
    matcher on such lists. *)

From Stdlib Require Import NArith List String Ascii Lia Bool.
From stdpp Require Import base gmap strings list.
Import ListNotations.

Local Open Scope N_scope.
Local Open Scope list_scope.

(** ** JavaScript strings *)

Abbreviation jsstring := (list N) (only parsing).

(** ASCII literal of the source as a list of code units. *)
Definition lit (s : string) : jsstring :=
  map N_of_ascii (list_ascii_of_string s).

Definition jsstring_eqb (a b : jsstring) : bool :=
  bool_decide (a = b).

(** [strip_prefix p s]: the rest of [s] after the literal [p], when [s]
    starts with [p]. *)
Fixpoint strip_prefix (p s : jsstring) : option jsstring :=
  match p with
  | [] => Some s
  | c :: p' =>
      match s with
      | [] => None
      | d :: s' => if c =? d then strip_prefix p' s' else None
      end
  end.

(** Greedy run of a character class: the longest prefix of [s] whose code
    units satisfy [ok], and what follows it. *)
Fixpoint span (ok : N -> bool) (s : jsstring) : jsstring * jsstring :=
  match s with
  | [] => ([], [])
  | c :: t =>
      if ok c then let '(a, b) := span ok t in (c :: a, b)
      else ([], s)
  end.

(** Lazy run of a character class followed by a literal, the regex
    fragment [(X*?)stop]: the shortest run of [ok] code units after which
    [stop] occurs. *)
Fixpoint until (stop : jsstring) (ok : N -> bool) (s : jsstring)
  : option (jsstring * jsstring) :=
  match strip_prefix stop s with
  | Some rest => Some ([], rest)
  | None =>
      match s with
      | [] => None
      | c :: t =>
          if ok c then
            match until stop ok t with
            | Some (cap, rest) => Some (c :: cap, rest)
            | None => None
            end
          else None
      end
  end.

(** [w] occurs in [s] as a contiguous substring, and the test
    [s.includes(w)]. *)
Definition contains (w s : jsstring) : Prop :=
  exists a b, s = a ++ w ++ b.

Fixpoint containsb (w s : jsstring) : bool :=
  match strip_prefix w s with
  | Some _ => true
  | None => match s with [] => false | _ :: t => containsb w t end
  end.

(** ** Character classes of the source's patterns *)

(** [\w] without the [u] and [i] flags: [A-Za-z0-9_]. *)
Definition is_word (c : N) : bool :=
  ((65 <=? c) && (c <=? 90)) || ((97 <=? c) && (c <=? 122))
  || ((48 <=? c) && (c <=? 57)) || (c =? 95).

(** [\d]: [0-9]. *)
Definition is_digit (c : N) : bool := (48 <=? c) && (c <=? 57).

(** ECMAScript LineTerminator: LF, CR, U+2028, U+2029.  The pattern [.]
    matches every code unit but these. *)
Definition is_line_terminator (c : N) : bool :=
  (c =? 10) || (c =? 13) || (c =? 8232) || (c =? 8233).

Definition is_dot (c : N) : bool := negb (is_line_terminator c).

(** [[\s\S]]: every code unit. *)
Definition is_any (_ : N) : bool := true.

(** ECMAScript WhiteSpace and LineTerminator, the code units removed by
    [String.prototype.trim]. *)
Definition is_trim_space (c : N) : bool :=
  ((9 <=? c) && (c <=? 13)) || (c =? 32) || (c =? 160) || (c =? 5760)
  || ((8192 <=? c) && (c <=? 8202)) || (c =? 8232) || (c =? 8233)
  || (c =? 8239) || (c =? 8287) || (c =? 12288) || (c =? 65279).

Fixpoint trim_start (s : jsstring) : jsstring :=
  match s with
  | [] => []
  | c :: t => if is_trim_space c then trim_start t else s
  end.

Definition trim (s : jsstring) : jsstring :=
  rev (trim_start (rev (trim_start s))).

(** ** Global replace

    [s.replace(/re/g, r)]: the pattern is tried at every position from the
    left; where it matches, the replacement is emitted and the scan goes on
    after the match; elsewhere the code unit is copied.  A matcher returns
    the replacement and the text after the match.  None of the source's
    patterns matches the empty string, so every match consumes input and
    [length s] steps (plus the attempt at the end of input) are enough. *)

Definition matcher := jsstring -> option (jsstring * jsstring).

Fixpoint replace_from (fuel : nat) (m : matcher) (s : jsstring) : jsstring :=
  match fuel with
  | O => s
  | S fuel' =>
      match m s with
      | Some (r, rest) => r ++ replace_from fuel' m rest
      | None =>
          match s with
          | [] => []
          | c :: t => c :: replace_from fuel' m t
          end
      end
  end.

Definition replace_g (m : matcher) (s : jsstring) : jsstring :=
  replace_from (S (length s)) m s.

(** ** Decimal numerals *)

(** [String(n)] for a non-negative integer: digits, most significant
    first.  A number has no more decimal digits than binary ones. *)
Fixpoint to_digits (fuel : nat) (n : N) (acc : jsstring) : jsstring :=
  match fuel with
  | O => acc
  | S fuel' =>
      let acc' := 48 + n mod 10 :: acc in
      if n / 10 =? 0 then acc' else to_digits fuel' (n / 10) acc'
  end.

Definition number_to_string (n : N) : jsstring :=
  to_digits (S (N.size_nat n)) n [].

(** [parseInt(ds, 10)] on a non-empty string of decimal digits.  (The
    double rounding of numerals beyond 2^53 is not modelled: such an index
    is out of range of every array either way.) *)
Definition parseInt (ds : jsstring) : nat :=
  fold_left (fun acc c => (10 * acc + N.to_nat (c - 48))%nat) ds 0%nat.

(** ** The renderer *)

Definition LT : N := 60.
Definition GT : N := 62.
Definition STAR : N := 42.
Definition BACKTICK : N := 96.
Definition LBRACKET : N := 91.
Definition RBRACKET : N := 93.
Definition LPAREN : N := 40.
Definition RPAREN : N := 41.
Definition UNDERSCORE : N := 95.
Definition NEWLINE : N := 10.
Definition QUOTE : N := 34.

(** [html.replace(/</g, '&lt;').replace(/>/g, '&gt;')]: two global
    replaces of a single code unit.  [escape_char] is what the two passes
    together do to one code unit (see [escapeHTML_flat_map]). *)
Definition replace_char (c : N) (r : jsstring) (s : jsstring) : jsstring :=
  flat_map (fun d => if d =? c then r else [d]) s.

Definition escapeHTML (html : jsstring) : jsstring :=
  replace_char GT (lit "&gt;") (replace_char LT (lit "&lt;") html).

Definition escape_char (c : N) : jsstring :=
  if c =? LT then lit "&lt;"
  else if c =? GT then lit "&gt;"
  else [c].

(** The template literal of the code-block markup: [pre] and [code]
    elements, the class [language-] followed by [lang || 'plaintext'] and
    [hljs], and the escaped code as content. *)
Definition code_block_markup (lang escapedCode : jsstring) : jsstring :=
  lit "<pre><code class=" ++ [QUOTE] ++ lit "language-"
  ++ (match lang with [] => lit "plaintext" | _ => lang end)
  ++ lit " hljs" ++ [QUOTE] ++ lit ">" ++ escapedCode ++ lit "</code></pre>".

(** The placeholder token of the block with index [k]. *)
Definition codeblock_token (k : nat) : jsstring :=
  lit "__CODEBLOCK_" ++ number_to_string (N.of_nat k) ++ lit "__".

(** One match of the fence pattern at the start of [s]: three backticks,
    a greedy run of word characters (the language tag), a line feed, a lazy
    run of any code units (the body) and three backticks.  It returns the
    tag, the body and the text after the closing fence.  Giving back a word
    character never helps the greedy run, since a line feed must follow. *)
Definition fence_match (s : jsstring)
  : option (jsstring * jsstring * jsstring) :=
  match strip_prefix (lit "```") s with
  | None => None
  | Some s1 =>
      let '(lang, s2) := span is_word s1 in
      match strip_prefix [NEWLINE] s2 with
      | None => None
      | Some s3 =>
          match until (lit "```") is_any s3 with
          | Some (code, rest) => Some (lang, code, rest)
          | None => None
          end
      end
  end.

(** Step 1 of [parseMarkdown]: the global replace whose callback pushes the
    block's markup on [placeholders] and returns the indexed token. *)
Fixpoint extract_from (fuel : nat) (placeholders : list jsstring)
    (s : jsstring) : jsstring * list jsstring :=
  match fuel with
  | O => (s, placeholders)
  | S fuel' =>
      match fence_match s with
      | Some (lang, code, rest) =>
          let escapedCode := escapeHTML (trim code) in
          let placeholder := code_block_markup lang escapedCode in
          let placeholders' := placeholders ++ [placeholder] in
          let '(out, final) := extract_from fuel' placeholders' rest in
          (codeblock_token (length placeholders' - 1) ++ out, final)
      | None =>
          match s with
          | [] => ([], placeholders)
          | c :: t =>
              let '(out, final) := extract_from fuel' placeholders t in
              (c :: out, final)
          end
      end
  end.

Definition extract_blocks (placeholders : list jsstring) (s : jsstring)
  : jsstring * list jsstring :=
  extract_from (S (length s)) placeholders s.

Definition extractCodeBlocks (text : jsstring) : jsstring * list jsstring :=
  extract_blocks [] text.

(** The bold pattern: two stars, a lazy run of [.], two stars; replaced
    by ['<strong>$1</strong>']. *)
Definition bold_match : matcher := fun s =>
  match strip_prefix [STAR; STAR] s with
  | None => None
  | Some s1 =>
      match until [STAR; STAR] is_dot s1 with
      | Some (cap, rest) =>
          Some (lit "<strong>" ++ cap ++ lit "</strong>", rest)
      | None => None
      end
  end.

(** The italic pattern: a star, a lazy run of [.], a star; replaced by
    ['<em>$1</em>']. *)
Definition italic_match : matcher := fun s =>
  match strip_prefix [STAR] s with
  | None => None
  | Some s1 =>
      match until [STAR] is_dot s1 with
      | Some (cap, rest) => Some (lit "<em>" ++ cap ++ lit "</em>", rest)
      | None => None
      end
  end.

(** The inline-code pattern: a backtick, a non-empty greedy run of
    non-backticks, a backtick; replaced by ['<code>$1</code>'].  The greedy
    run stops at the first backtick, which closes the match. *)
Definition inline_code_match : matcher := fun s =>
  match strip_prefix [BACKTICK] s with
  | None => None
  | Some s1 =>
      let '(cap, s2) := span (fun c => negb (c =? BACKTICK)) s1 in
      match cap, strip_prefix [BACKTICK] s2 with
      | _ :: _, Some rest => Some (lit "<code>" ++ cap ++ lit "</code>", rest)
      | _, _ => None
      end
  end.

Definition anchor_markup (url txt : jsstring) : jsstring :=
  lit "<a href=" ++ [QUOTE] ++ url ++ [QUOTE]
  ++ lit " target=" ++ [QUOTE] ++ lit "_blank" ++ [QUOTE]
  ++ lit " rel=" ++ [QUOTE] ++ lit "noopener noreferrer" ++ [QUOTE]
  ++ lit ">" ++ txt ++ lit "</a>".

(** The link pattern: an opening bracket, a non-empty greedy run of
    code units other than the closing bracket (the text), a closing bracket
    and an opening parenthesis, a non-empty greedy run of code units other
    than the closing parenthesis (the url), a closing parenthesis; replaced
    by the anchor with [href] the url, [target=_blank],
    [rel='noopener noreferrer'] and the text as content. *)
Definition link_match : matcher := fun s =>
  match strip_prefix [LBRACKET] s with
  | None => None
  | Some s1 =>
      let '(txt, s2) := span (fun c => negb (c =? RBRACKET)) s1 in
      match txt, strip_prefix [RBRACKET; LPAREN] s2 with
      | _ :: _, Some s3 =>
          let '(url, s4) := span (fun c => negb (c =? RPAREN)) s3 in
          match url, strip_prefix [RPAREN] s4 with
          | _ :: _, Some rest =>
              Some (anchor_markup url txt, rest)
          | _, _ => None
          end
      | _, _ => None
      end
  end.

(** [placeholders[parseInt(index, 10)]] as the replacement text: an index
    past the end reads [undefined], which [replace] turns into the string
    [undefined]. *)
Definition placeholder_at (placeholders : list jsstring) (index : jsstring)
  : jsstring :=
  match nth_error placeholders (parseInt index) with
  | Some p => p
  | None => lit "undefined"
  end.

(** The placeholder pattern: [__CODEBLOCK_], a non-empty greedy run of
    digits, two underscores; replaced through the callback above. *)
Definition restore_match (placeholders : list jsstring) : matcher := fun s =>
  match strip_prefix (lit "__CODEBLOCK_") s with
  | None => None
  | Some s1 =>
      let '(index, s2) := span is_digit s1 in
      match index, strip_prefix [UNDERSCORE; UNDERSCORE] s2 with
      | _ :: _, Some rest => Some (placeholder_at placeholders index, rest)
      | _, _ => None
      end
  end.

(** Step 3: the four inline passes, in the source's order. *)
Definition inlineTransforms (s : jsstring) : jsstring :=
  replace_g link_match
    (replace_g inline_code_match
       (replace_g italic_match
          (replace_g bold_match s))).

Definition parseMarkdown (text : jsstring) : jsstring :=
  let '(processedText, placeholders) := extractCodeBlocks text in
  let processedText := escapeHTML processedText in
  let processedText := inlineTransforms processedText in
  replace_g (restore_match placeholders) processedText.


(** ** The older renderer of [index.tsx]

    The first version of the client escapes the whole text first and then
    runs every pattern, the fence pattern included, as an ordinary global
    replace on the escaped text. *)

Module Legacy.

Definition fence_replace : matcher := fun s =>
  match fence_match s with
  | Some (lang, code, rest) =>
      let trimmedCode := trim code in
      Some (code_block_markup lang trimmedCode, rest)
  | None => None
  end.

Definition parseMarkdown (text : jsstring) : jsstring :=
  let escapedText :=
    replace_char GT (lit "&gt;") (replace_char LT (lit "&lt;") text) in
  replace_g inline_code_match
    (replace_g italic_match
       (replace_g bold_match
          (replace_g fence_replace escapedText))).

End Legacy.

(** * The platform's JSON

    [JSON.parse] is not code of this repository; it is modelled after the
    JSON grammar of ECMAScript so that the loaders can be run on concrete
    stored strings.  A number is kept as its lexeme; the members of an
    object are its own properties, in their order. *)

#[local] Set Warnings "-register-all".

Inductive json :=
| JNull
| JBool (b : bool)
| JNumber (lexeme : jsstring)
| JString (s : jsstring)
| JArray (items : list json)
| JObject (members : list (jsstring * json)).

Definition is_json_space (c : N) : bool :=
  (c =? 9) || (c =? 10) || (c =? 13) || (c =? 32).

Fixpoint skip_space (s : jsstring) : jsstring :=
  match s with
  | [] => []
  | c :: t => if is_json_space c then skip_space t else s
  end.

Definition hex_value (c : N) : option N :=
  if is_digit c then Some (c - 48)
  else if (97 <=? c) && (c <=? 102) then Some (c - 87)
  else if (65 <=? c) && (c <=? 70) then Some (c - 55)
  else None.

(** The characters of a string after its opening quote, up to the closing
    one, with the escapes decoded. *)
Fixpoint parse_string_chars (s : jsstring) : option (jsstring * jsstring) :=
  match s with
  | [] => None
  | c :: t =>
      if c =? QUOTE then Some ([], t)
      else if c <? 32 then None
      else if c =? 92 then
        match t with
        | [] => None
        | e :: t' =>
            let simple (d : N) :=
              match parse_string_chars t' with
              | Some (cs, rest) => Some (d :: cs, rest)
              | None => None
              end in
            if (e =? QUOTE) || (e =? 92) || (e =? 47) then simple e
            else if e =? 98 then simple 8
            else if e =? 102 then simple 12
            else if e =? 110 then simple 10
            else if e =? 114 then simple 13
            else if e =? 116 then simple 9
            else if e =? 117 then
              match t' with
              | h1 :: h2 :: h3 :: h4 :: t'' =>
                  match hex_value h1, hex_value h2, hex_value h3,
                        hex_value h4, parse_string_chars t'' with
                  | Some a, Some b, Some c', Some d, Some (cs, rest) =>
                      Some (((a * 16 + b) * 16 + c') * 16 + d :: cs, rest)
                  | _, _, _, _, _ => None
                  end
              | _ => None
              end
            else None
        end
      else
        match parse_string_chars t with
        | Some (cs, rest) => Some (c :: cs, rest)
        | None => None
        end
  end.

(** A non-empty run of digits. *)
Definition parse_digits (s : jsstring) : option (jsstring * jsstring) :=
  match span is_digit s with
  | ([], _) => None
  | (ds, rest) => Some (ds, rest)
  end.

(** The lexeme of a JSON number: an optional minus sign, an integer part
    without a leading zero, an optional fraction and an optional
    exponent. *)
Definition parse_number (s : jsstring) : option (jsstring * jsstring) :=
  let '(sign, s1) :=
    match s with
    | c :: t => if c =? 45 then ([c], t) else ([], s)
    | [] => ([], s)
    end in
  let int_part :=
    match s1 with
    | c :: t => if c =? 48 then Some ([c], t) else parse_digits s1
    | [] => None
    end in
  match int_part with
  | None => None
  | Some (ds, s2) =>
      let frac :=
        match s2 with
        | c :: t =>
            if c =? 46 then
              match parse_digits t with
              | Some (fs, s3) => Some (c :: fs, s3)
              | None => None
              end
            else Some ([], s2)
        | [] => Some ([], s2)
        end in
      match frac with
      | None => None
      | Some (fs, s3) =>
          let exponent :=
            match s3 with
            | c :: t =>
                if (c =? 101) || (c =? 69) then
                  let '(esign, t') :=
                    match t with
                    | d :: t'' =>
                        if (d =? 43) || (d =? 45) then ([d], t'') else ([], t)
                    | [] => ([], t)
                    end in
                  match parse_digits t' with
                  | Some (es, s4) => Some (c :: esign ++ es, s4)
                  | None => None
                  end
                else Some ([], s3)
            | [] => Some ([], s3)
            end in
          match exponent with
          | None => None
          | Some (es, s4) => Some (sign ++ ds ++ fs ++ es, s4)
          end
      end
  end.

(** [CreateDataProperty], with which [JSON.parse] adds a member to the
    object under construction: a key that the object already has keeps its
    place and takes the new value. *)
Fixpoint define_property (members : list (jsstring * json))
    (key : jsstring) (v : json) : list (jsstring * json) :=
  match members with
  | [] => [(key, v)]
  | (k, w) :: rest =>
      if jsstring_eqb k key then (k, v) :: rest
      else (k, w) :: define_property rest key v
  end.

(** An array index: the canonical decimal numeral of an integer below
    [2^32 - 1]. *)
Definition array_index (key : jsstring) : option N :=
  match key with
  | [] => None
  | c :: t =>
      let canonical :=
        forallb is_digit key
        && (negb (c =? 48) || match t with [] => true | _ :: _ => false end) in
      let n := fold_left (fun a d => 10 * a + (d - 48)) key 0 in
      if canonical && (n <=? 4294967294) then Some n else None
  end.

Fixpoint insert_by_index (n : N) (m : jsstring * json)
    (l : list (N * (jsstring * json))) : list (N * (jsstring * json)) :=
  match l with
  | [] => [(n, m)]
  | (n', m') :: rest =>
      if n <? n' then (n, m) :: l else (n', m') :: insert_by_index n m rest
  end.

(** The order of the own properties of the finished object: the array
    indices in ascending order, then the other keys in the order of their
    creation. *)
Definition property_order (members : list (jsstring * json))
  : list (jsstring * json) :=
  let '(indexed, others) :=
    fold_left (fun '(indexed, others) m =>
                 match array_index (fst m) with
                 | Some n => (insert_by_index n m indexed, others)
                 | None => (indexed, others ++ [m])
                 end)
      members ([], []) in
  map snd indexed ++ others.

Inductive parse_mode :=
| Value
| Elements (acc : list json)
| Members (acc : list (jsstring * json)).

(** One value, or the rest of an array or of an object after its opening
    bracket.  Every call reads at least one code unit before the next one
    at the same depth, so a fuel of twice the length of the text is never
    used up. *)
Fixpoint parse_json (fuel : nat) (m : parse_mode) (s : jsstring)
  : option (json * jsstring) :=
  match fuel with
  | O => None
  | S fuel' =>
      match m with
      | Value =>
          match skip_space s with
          | [] => None
          | c :: t =>
              if c =? 91 then
                match skip_space t with
                | d :: r =>
                    if d =? 93 then Some (JArray [], r)
                    else parse_json fuel' (Elements []) t
                | [] => None
                end
              else if c =? 123 then
                match skip_space t with
                | d :: r =>
                    if d =? 125 then Some (JObject [], r)
                    else parse_json fuel' (Members []) t
                | [] => None
                end
              else if c =? QUOTE then
                match parse_string_chars t with
                | Some (cs, rest) => Some (JString cs, rest)
                | None => None
                end
              else
                match strip_prefix (lit "null") (c :: t),
                      strip_prefix (lit "true") (c :: t),
                      strip_prefix (lit "false") (c :: t) with
                | Some rest, _, _ => Some (JNull, rest)
                | _, Some rest, _ => Some (JBool true, rest)
                | _, _, Some rest => Some (JBool false, rest)
                | None, None, None =>
                    match parse_number (c :: t) with
                    | Some (lexeme, rest) => Some (JNumber lexeme, rest)
                    | None => None
                    end
                end
          end
      | Elements acc =>
          match parse_json fuel' Value s with
          | Some (v, r) =>
              match skip_space r with
              | d :: r' =>
                  if d =? 44 then parse_json fuel' (Elements (acc ++ [v])) r'
                  else if d =? 93 then Some (JArray (acc ++ [v]), r')
                  else None
              | [] => None
              end
          | None => None
          end
      | Members acc =>
          match skip_space s with
          | q :: t =>
              if q =? QUOTE then
                match parse_string_chars t with
                | Some (key, r) =>
                    match skip_space r with
                    | colon :: r' =>
                        if colon =? 58 then
                          match parse_json fuel' Value r' with
                          | Some (v, r'') =>
                              match skip_space r'' with
                              | d :: r3 =>
                                  if d =? 44 then
                                    parse_json fuel'
                                      (Members (define_property acc key v)) r3
                                  else if d =? 125 then
                                    Some (JObject
                                            (property_order
                                               (define_property acc key v)),
                                          r3)
                                  else None
                              | [] => None
                              end
                          | None => None
                          end
                        else None
                    | [] => None
                    end
                | None => None
                end
              else None
          | [] => None
          end
      end
  end.

(** [JSON.parse(text)]: the value, or [None] for the [SyntaxError] that the
    platform throws on text that is not JSON. *)
Definition JSON_parse (text : jsstring) : option json :=
  match parse_json (2 * length text + 2) Value text with
  | Some (v, rest) =>
      match skip_space rest with
      | [] => Some v
      | _ :: _ => None
      end
  | None => None
  end.

(** * Loading from local storage *)

(** The exceptions of the loaders: the two errors of the language and the
    [DOMException] of [classList.add]. *)
Inductive exn := SyntaxError | TypeError | InvalidCharacterError.

(** How a call ends: normally with a state, or by throwing with the state
    reached when the exception leaves the function. *)
Inductive completion (A : Type) :=
| Normal (a : A)
| Throw (e : exn) (a : A).
Arguments Normal {A} a.
Arguments Throw {A} e a.

(** The module-level variables that the loaders assign.  [JSON.parse]
    returns an untyped value, so both are JSON values here. *)
Record Loaded := {
  loaded_chatHistory : json;
  loaded_settings : json
}.

(** [let settings = { model: 'gemini-2.5-flash', temperature: 0.7, ... }] *)
Definition default_settings : json :=
  JObject [
    (lit "model", JString (lit "gemini-2.5-flash"));
    (lit "temperature", JNumber (lit "0.7"));
    (lit "maxTokens", JNumber (lit "1000"));
    (lit "theme", JString (lit "dark"));
    (lit "fontSize", JString (lit "medium"));
    (lit "messageDensity", JString (lit "comfortable"));
    (lit "language", JString (lit "auto"));
    (lit "dataPrivacy", JBool true);
    (lit "autoSave", JBool true);
    (lit "keyboardShortcuts", JBool true)
  ].

(** [let chatHistory: ChatSession[] = []] and the default settings. *)
Definition initial_loaded : Loaded :=
  {| loaded_chatHistory := JArray []; loaded_settings := default_settings |}.

(** [function loadHistoryFromStorage()]:
    [chatHistory = savedHistory ? JSON.parse(savedHistory) : []].  The
    empty string is falsy; [JSON.parse] is not guarded. *)
Definition loadHistoryFromStorage (localStorage : gmap string jsstring)
    (g : Loaded) : completion Loaded :=
  match localStorage !! "chatHistory"%string with
  | Some ((_ :: _) as savedHistory) =>
      match JSON_parse savedHistory with
      | Some v =>
          Normal {| loaded_chatHistory := v;
                    loaded_settings := loaded_settings g |}
      | None => Throw SyntaxError g
      end
  | _ =>
      Normal {| loaded_chatHistory := JArray [];
                loaded_settings := loaded_settings g |}
  end.

(** The value of [o.key] for property reads of the loaders: the member of
    an object (the last one when the key is repeated), [undefined]
    ([None]) elsewhere. *)
Definition get_member (o : json) (key : jsstring) : option json :=
  match o with
  | JObject members =>
      fold_left (fun found '(k, v) =>
                   if jsstring_eqb k key then Some v else found)
        members None
  | _ => None
  end.

Definition has_member (key : jsstring) (members : list (jsstring * json))
  : bool :=
  existsb (fun '(k, _) => jsstring_eqb k key) members.

(** [ToString(v)] throws a [TypeError]: an object parsed from JSON whose
    own [toString] hides [Object.prototype.toString] has no callable
    conversion ([valueOf] returns the object); an array joins its elements,
    [null] as the empty string and the others through [ToString]. *)
Fixpoint to_string_throws (v : json) : bool :=
  match v with
  | JObject members => has_member (lit "toString") members
  | JArray items =>
      existsb (fun item => to_string_throws item) items
  | _ => false
  end.

(** [x.toString()], the method call: a [TypeError] on [undefined] and
    [null], on an object whose own [toString] is not callable, and on an
    array with an element that cannot be converted. *)
Definition toString_call_throws (x : option json) : bool :=
  match x with
  | None | Some JNull => true
  | Some v => to_string_throws v
  end.

(** The assignment of [x] to the [value] of a form control, and [x] in a
    template literal: [ToString(x)], with [undefined] for a missing
    property. *)
Definition conversion_throws (x : option json) : bool :=
  match x with
  | None => false
  | Some v => to_string_throws v
  end.

Definition is_ascii_whitespace (c : N) : bool :=
  (c =? 9) || (c =? 10) || (c =? 12) || (c =? 13) || (c =? 32).

(** [ToString(v)] holds ASCII white space, for a [v] that can be converted:
    a string with white space, any object ([object Object]), an array with
    such an element; never a number, a boolean or [null]. *)
Fixpoint to_string_has_space (v : json) : bool :=
  match v with
  | JString s => existsb is_ascii_whitespace s
  | JObject _ => true
  | JArray items => existsb (fun item => to_string_has_space item) items
  | JNull | JBool _ | JNumber _ => false
  end.

(** [document.body.classList.add(`prefix-${x}`)]: the conversion of [x]
    can throw a [TypeError], and [add] throws an [InvalidCharacterError] on
    a token with ASCII white space. *)
Definition add_class_of (x : option json) : option exn :=
  if conversion_throws x then Some TypeError
  else
    match x with
    | Some v => if to_string_has_space v then Some InvalidCharacterError
                else None
    | None => None
    end.

(** [function applySettings()]: the two classes added to [body]; the
    comparisons and [setProperty] that follow cannot throw. *)
Definition applySettings (settings : json) : option exn :=
  match add_class_of (get_member settings (lit "fontSize")) with
  | Some e => Some e
  | None => add_class_of (get_member settings (lit "messageDensity"))
  end.

(** [function loadSettings()]: nothing happens without a stored string;
    otherwise [settings = JSON.parse(savedSettings)], unguarded, after
    which the form is filled from [settings.model],
    [settings.temperature.toString()] and [settings.maxTokens.toString()]
    and [applySettings] runs.  Of the form and of the page only what can
    throw is modelled. *)
Definition loadSettings (localStorage : gmap string jsstring)
    (g : Loaded) : completion Loaded :=
  match localStorage !! "settings"%string with
  | Some ((_ :: _) as savedSettings) =>
      match JSON_parse savedSettings with
      | Some v =>
          let g' := {| loaded_chatHistory := loaded_chatHistory g;
                       loaded_settings := v |} in
          match v with
          | JNull => Throw TypeError g'
          | _ =>
              if conversion_throws (get_member v (lit "model"))
                 || toString_call_throws (get_member v (lit "temperature"))
                 || toString_call_throws (get_member v (lit "maxTokens"))
              then Throw TypeError g'
              else
                match applySettings v with
                | Some e => Throw e g'
                | None => Normal g'
                end
          end
      | None => Throw SyntaxError g
      end
  | _ => Normal g
  end.

(** * The session store and the conversation controller

    The module-level variables of the client, its view and the suspended
    handlers are one explicit state.  An [async] handler runs up to its next
    [await] in one step; what the browser feeds back (the chunks of the
    stream, its end or its failure, the user's actions) are the events. *)

Inductive Role := user | model.

(** [type Message]; [parts] lists the [text] of each part, [reactions]
    the emoji and the count of each reaction. *)
Module Message.
Record t := {
  id : jsstring;
  role : Role;
  parts : list jsstring;
  timestamp : jsstring;
  reactions : option (list (jsstring * nat));
  isBookmarked : option bool;
  threadId : option jsstring
}.
End Message.

(** [type Thread] *)
Module Thread.
Record t := {
  id : jsstring;
  parentMessageId : jsstring;
  messages : list jsstring
}.
End Thread.

(** [type ChatSession].  The numbers of the model configuration are kept
    as their decimal text. *)
Module ChatSession.
Record t := {
  id : jsstring;
  title : jsstring;
  messages : list Message.t;
  threads : list Thread.t;
  createdAt : jsstring;
  updatedAt : jsstring;
  isPinned : bool;
  isArchived : bool;
  model : jsstring;
  temperature : jsstring;
  maxTokens : jsstring
}.
End ChatSession.

(** The fields of [settings] that a new session snapshots. *)
Module Settings.
Record t := {
  model : jsstring;
  temperature : jsstring;
  maxTokens : jsstring
}.
End Settings.

(** What the content wrapper of a message element holds.  The DOM tree is
    not modelled further than the ways the sources build it:
    - [TextDiv html raw]: the header, the [div.message-text] whose
      [innerHTML] was assigned [html] and whose [dataset.rawText] is [raw],
      and the action buttons ([appendMessage] with a string);
    - [LoadingDots]: the header, the element of [createLoadingIndicator]
      and the action buttons ([appendMessage] with an element);
    - [Html html]: the nodes parsed from an assignment [innerHTML = html];
    - [Text t]: the single text node of an assignment [textContent = t]. *)
Inductive Children :=
| TextDiv (html : jsstring) (raw : jsstring)
| LoadingDots
| Html (html : jsstring)
| Text (t : jsstring).

(** The element that [appendMessage] returns.  [codeBlocksProcessed]
    records that [processCodeBlocks] has run on the present children: it
    highlights every [pre > code] in place and inserts a header with the
    copy and expand buttons in front of it. *)
Record Wrapper := {
  children : Children;
  rawText : option jsstring;
  codeBlocksProcessed : bool
}.

Record MessageElement := {
  data_role : Role;
  data_messageId : jsstring;
  contentWrapper : Wrapper
}.

(** A handler suspended on the stream it has opened: the prompt, the
    reference to its placeholder and the accumulated response. *)
Record Turn := {
  prompt : jsstring;
  loadingIndicator : nat;
  fullResponse : jsstring;
  regenerating : bool
}.

Record State := {
  isAwaitingResponse : bool;
  currentChatId : option jsstring;
  chatHistory : list ChatSession.t;
  settings : Settings.t;
  localStorage : gmap string jsstring;
  chatInput : jsstring;
  contextMenuTarget : option (option jsstring);
  elements : list MessageElement;
  chatContainer : list nat;
  inflight : list Turn
}.

(** What the browser supplies: [JSON.stringify] on the collection, and what
    [getMessagesFromDOM] reads in a wrapper whose children were parsed from
    [html], namely [dataset.rawText || textContent] of its first element of
    class [message-text], the empty string when there is none. *)
Class Platform := {
  JSON_stringify : list ChatSession.t -> jsstring;
  message_text_of_html : jsstring -> jsstring
}.

(** The clock and the identifiers drawn during one event:
    [new Date().toISOString()], [Date.now()] and two results of
    [generateId()]. *)
Record Env := {
  now : jsstring;
  nowMs : N;
  newId : jsstring;
  newId' : jsstring
}.

Definition set_isAwaitingResponse (b : bool) (st : State) : State :=
  {| isAwaitingResponse := b; currentChatId := currentChatId st;
     chatHistory := chatHistory st; settings := settings st;
     localStorage := localStorage st; chatInput := chatInput st;
     contextMenuTarget := contextMenuTarget st; elements := elements st;
     chatContainer := chatContainer st; inflight := inflight st |}.

Definition set_currentChatId (c : option jsstring) (st : State) : State :=
  {| isAwaitingResponse := isAwaitingResponse st; currentChatId := c;
     chatHistory := chatHistory st; settings := settings st;
     localStorage := localStorage st; chatInput := chatInput st;
     contextMenuTarget := contextMenuTarget st; elements := elements st;
     chatContainer := chatContainer st; inflight := inflight st |}.

Definition set_chatHistory (h : list ChatSession.t) (st : State) : State :=
  {| isAwaitingResponse := isAwaitingResponse st;
     currentChatId := currentChatId st;
     chatHistory := h; settings := settings st;
     localStorage := localStorage st; chatInput := chatInput st;
     contextMenuTarget := contextMenuTarget st; elements := elements st;
     chatContainer := chatContainer st; inflight := inflight st |}.

Definition set_localStorage (l : gmap string jsstring) (st : State) : State :=
  {| isAwaitingResponse := isAwaitingResponse st;
     currentChatId := currentChatId st;
     chatHistory := chatHistory st; settings := settings st;
     localStorage := l; chatInput := chatInput st;
     contextMenuTarget := contextMenuTarget st; elements := elements st;
     chatContainer := chatContainer st; inflight := inflight st |}.

Definition set_chatInput (v : jsstring) (st : State) : State :=
  {| isAwaitingResponse := isAwaitingResponse st;
     currentChatId := currentChatId st;
     chatHistory := chatHistory st; settings := settings st;
     localStorage := localStorage st; chatInput := v;
     contextMenuTarget := contextMenuTarget st; elements := elements st;
     chatContainer := chatContainer st; inflight := inflight st |}.

Definition set_contextMenuTarget (t : option (option jsstring)) (st : State)
  : State :=
  {| isAwaitingResponse := isAwaitingResponse st;
     currentChatId := currentChatId st;
     chatHistory := chatHistory st; settings := settings st;
     localStorage := localStorage st; chatInput := chatInput st;
     contextMenuTarget := t; elements := elements st;
     chatContainer := chatContainer st; inflight := inflight st |}.

Definition set_elements (e : list MessageElement) (st : State) : State :=
  {| isAwaitingResponse := isAwaitingResponse st;
     currentChatId := currentChatId st;
     chatHistory := chatHistory st; settings := settings st;
     localStorage := localStorage st; chatInput := chatInput st;
     contextMenuTarget := contextMenuTarget st; elements := e;
     chatContainer := chatContainer st; inflight := inflight st |}.

Definition set_chatContainer (c : list nat) (st : State) : State :=
  {| isAwaitingResponse := isAwaitingResponse st;
     currentChatId := currentChatId st;
     chatHistory := chatHistory st; settings := settings st;
     localStorage := localStorage st; chatInput := chatInput st;
     contextMenuTarget := contextMenuTarget st; elements := elements st;
     chatContainer := c; inflight := inflight st |}.

Definition set_inflight (t : list Turn) (st : State) : State :=
  {| isAwaitingResponse := isAwaitingResponse st;
     currentChatId := currentChatId st;
     chatHistory := chatHistory st; settings := settings st;
     localStorage := localStorage st; chatInput := chatInput st;
     contextMenuTarget := contextMenuTarget st; elements := elements st;
     chatContainer := chatContainer st; inflight := t |}.

(** Strings are truthy unless empty; [null] is falsy. *)
Definition truthy (x : option jsstring) : bool :=
  match x with
  | Some (_ :: _) => true
  | _ => false
  end.

(** [x === y] on a [string | null] and a string. *)
Definition strict_eq (x : option jsstring) (y : jsstring) : bool :=
  match x with
  | Some s => jsstring_eqb s y
  | None => false
  end.

Section Controller.

Context {platform : Platform}.

(** [function saveHistoryToStorage()] *)
Definition saveHistoryToStorage (st : State) : State :=
  set_localStorage
    (<["chatHistory"%string := JSON_stringify (chatHistory st)]>
       (localStorage st)) st.

(** [function startNewChat()]: the current id is dropped and the
    container emptied; its former children stay alive for whoever still
    holds a reference to them. *)
Definition startNewChat (st : State) : State :=
  set_chatContainer [] (set_currentChatId None st).

(** [function hideContextMenu()] *)
Definition hideContextMenu (st : State) : State :=
  set_contextMenuTarget None st.

(** [function deleteChat()], with the answer given to [confirm].  It
    returns at once without a target or without a non-empty
    [data-chat-id]. *)
Definition deleteChat (confirmed : bool) (st : State) : State :=
  match contextMenuTarget st with
  | Some (Some ((_ :: _) as chatId)) =>
      let st1 :=
        if confirmed then
          let st2 :=
            saveHistoryToStorage
              (set_chatHistory
                 (List.filter
                    (fun s => negb (jsstring_eqb (ChatSession.id s) chatId))
                    (chatHistory st)) st) in
          if strict_eq (currentChatId st2) chatId then startNewChat st2
          else st2
        else st in
      hideContextMenu st1
  | _ => st
  end.

(** [function appendMessage(role, content, options)]: the new element is
    appended to the container; the result is the reference to its content
    wrapper.  A string content is rendered into a [div.message-text]; an
    element content (the loading indicator) is adopted.  The wrapper then
    goes through [processCodeBlocks]. *)
Definition appendMessage (r : Role) (content : option jsstring)
    (messageId : jsstring) (st : State) : State * nat :=
  let wrapper :=
    {| children := match content with
                   | Some text => TextDiv (parseMarkdown text) text
                   | None => LoadingDots
                   end;
       rawText := None;
       codeBlocksProcessed := true |} in
  let el := {| data_role := r; data_messageId := messageId;
               contentWrapper := wrapper |} in
  let ref := length (elements st) in
  (set_chatContainer (chatContainer st ++ [ref])
     (set_elements (elements st ++ [el]) st), ref).

(** The text that [getMessagesFromDOM] reads in a message element:
    [contentEl?.dataset.rawText || contentEl?.textContent || ''] where
    [contentEl] is the [.message-text] descendant.  (For the [div] built
    by [appendMessage] the raw text is empty only when the rendered text
    is.) *)
Definition scraped_text (w : Wrapper) : jsstring :=
  match children w with
  | TextDiv _ raw => raw
  | Html html => message_text_of_html html
  | LoadingDots | Text _ => []
  end.

(** [function getMessagesFromDOM()] *)
Definition getMessagesFromDOM (env : Env) (st : State) : list Message.t :=
  flat_map
    (fun ref =>
       match elements st !! ref with
       | Some el =>
           let text := scraped_text (contentWrapper el) in
           match text with
           | [] => []
           | _ :: _ =>
               [ {| Message.id :=
                      match data_messageId el with
                      | [] => newId env
                      | mid => mid
                      end;
                    Message.role := data_role el;
                    Message.parts := [text];
                    Message.timestamp := now env;
                    Message.reactions := None;
                    Message.isBookmarked := None;
                    Message.threadId := None |} ]
           end
       | None => []
       end)
    (chatContainer st).

(** The title of a new session:
    [prompt.length > 30 ? prompt.substring(0, 27) + '...' : prompt]. *)
Definition session_title (prompt : jsstring) : jsstring :=
  if (30 <? length prompt)%nat then firstn 27 prompt ++ lit "..."
  else prompt.

(** [async function saveCurrentChat(prompt)] (it never awaits). *)
Definition saveCurrentChat (env : Env) (prompt : jsstring) (st : State)
  : State :=
  let messages := getMessagesFromDOM env st in
  match messages with
  | [] => st
  | _ :: _ =>
      let st1 :=
        match currentChatId st with
        | Some ((_ :: _) as cur) =>
          (* [find] yields the first session with the id; its fields are
             assigned in place *)
          let fix update (l : list ChatSession.t) : list ChatSession.t :=
            match l with
            | [] => []
            | s :: l' =>
                if jsstring_eqb (ChatSession.id s) cur then
                  {| ChatSession.id := ChatSession.id s;
                     ChatSession.title := ChatSession.title s;
                     ChatSession.messages := messages;
                     ChatSession.threads := ChatSession.threads s;
                     ChatSession.createdAt := ChatSession.createdAt s;
                     ChatSession.updatedAt := now env;
                     ChatSession.isPinned := ChatSession.isPinned s;
                     ChatSession.isArchived := ChatSession.isArchived s;
                     ChatSession.model := ChatSession.model s;
                     ChatSession.temperature := ChatSession.temperature s;
                     ChatSession.maxTokens := ChatSession.maxTokens s |}
                  :: l'
                else s :: update l'
            end in
          set_chatHistory (update (chatHistory st)) st
        | _ =>
          let newChatId := lit "chat_" ++ number_to_string (nowMs env) in
          let session :=
            {| ChatSession.id := newChatId;
               ChatSession.title := session_title prompt;
               ChatSession.messages := messages;
               ChatSession.threads := [];
               ChatSession.createdAt := now env;
               ChatSession.updatedAt := now env;
               ChatSession.isPinned := false;
               ChatSession.isArchived := false;
               ChatSession.model := Settings.model (settings st);
               ChatSession.temperature := Settings.temperature (settings st);
               ChatSession.maxTokens := Settings.maxTokens (settings st) |} in
          set_chatHistory (session :: chatHistory st)
            (set_currentChatId (Some newChatId) st)
        end in
      saveHistoryToStorage st1
  end.

(** [function setFormState(isLoading)] clears the input;
    [function clearDraft()] removes the stored draft. *)
Definition setFormState (st : State) : State := set_chatInput [] st.

Definition clearDraft (st : State) : State :=
  set_localStorage (delete "draftMessage"%string (localStorage st)) st.

Definition update_wrapper (ref : nat) (f : Wrapper -> Wrapper) (st : State)
  : State :=
  match elements st !! ref with
  | Some el =>
      set_elements
        (<[ref := {| data_role := data_role el;
                     data_messageId := data_messageId el;
                     contentWrapper := f (contentWrapper el) |}]>
           (elements st)) st
  | None => st
  end.

(** [el.innerHTML = html]: the children are replaced by the parse of
    [html]; nothing has processed them yet. *)
Definition set_innerHTML (html : jsstring) (w : Wrapper) : Wrapper :=
  {| children := Html html; rawText := rawText w;
     codeBlocksProcessed := false |}.

(** [el.textContent = t] *)
Definition set_textContent (t : jsstring) (w : Wrapper) : Wrapper :=
  {| children := Text t; rawText := rawText w;
     codeBlocksProcessed := false |}.

(** [el.dataset.rawText = raw] *)
Definition set_rawText (raw : jsstring) (w : Wrapper) : Wrapper :=
  {| children := children w; rawText := Some raw;
     codeBlocksProcessed := codeBlocksProcessed w |}.

(** [function processCodeBlocks(container)] *)
Definition processCodeBlocks (w : Wrapper) : Wrapper :=
  {| children := children w; rawText := rawText w;
     codeBlocksProcessed := true |}.

(** [async function handleFormSubmit(e)] up to
    [await chat.sendMessageStream({ message: prompt })]. *)
Definition handleFormSubmit (env : Env) (st : State) : State :=
  if isAwaitingResponse st then st
  else
    let prompt := trim (chatInput st) in
    match prompt with
    | [] => st
    | _ :: _ =>
        let st1 := set_isAwaitingResponse true st in
        let st2 := clearDraft (setFormState st1) in
        let '(st3, _) := appendMessage user (Some prompt) (newId env) st2 in
        let '(st4, loadingIndicator) :=
          appendMessage model None (newId' env) st3 in
        set_inflight
          (inflight st4
           ++ [ {| prompt := prompt; loadingIndicator := loadingIndicator;
                   fullResponse := []; regenerating := false |} ]) st4
    end.

(** Is the last child of the container a model message?  The messages
    are the [div] children of the container, so among them
    [querySelector('.model-message:last-of-type')] finds this element and
    no other.  The selector also ranges over the markup inside the
    messages, which the view does not model: the definition stands for the
    selector as long as no element there has the class [model-message]
    (markup that only a link's url can bring in). *)
Definition last_model_message (st : State) : bool :=
  match last (chatContainer st) with
  | Some ref =>
      match elements st !! ref with
      | Some el => match data_role el with model => true | user => false end
      | None => false
      end
  | None => false
  end.

(** [async function handleRegenerate()] up to its first [await]. *)
Definition handleRegenerate (env : Env) (st : State) : State :=
  if isAwaitingResponse st then st
  else
    let messages := getMessagesFromDOM env st in
    match last (List.filter
                  (fun m => match Message.role m with
                            | user => true
                            | model => false
                            end) messages) with
    | None => st
    | Some lastUserMessage =>
        let st1 :=
          if last_model_message st
          then set_chatContainer (removelast (chatContainer st)) st
          else st in
        let st2 := setFormState (set_isAwaitingResponse true st1) in
        let prompt := default [] (head (Message.parts lastUserMessage)) in
        let '(st3, loadingIndicator) :=
          appendMessage model None (newId' env) st2 in
        set_inflight
          (inflight st3
           ++ [ {| prompt := prompt; loadingIndicator := loadingIndicator;
                   fullResponse := []; regenerating := true |} ]) st3
    end.

(** One iteration of [for await (const chunk of result)] in the [i]-th
    suspended handler: the placeholder is cleared, the chunk is added to
    [fullResponse] and the whole of it is rendered into the
    placeholder. *)
Definition stream_chunk (i : nat) (text : jsstring) (st : State) : State :=
  match inflight st !! i with
  | None => st
  | Some turn =>
      let fullResponse' := fullResponse turn ++ text in
      let st1 :=
        update_wrapper (loadingIndicator turn)
          (fun w => set_innerHTML (parseMarkdown fullResponse')
                      (set_innerHTML [] w)) st in
      set_inflight
        (<[i := {| prompt := prompt turn;
                   loadingIndicator := loadingIndicator turn;
                   fullResponse := fullResponse';
                   regenerating := regenerating turn |}]> (inflight st1))
        st1
  end.

(** The [finally] block of both handlers. *)
Definition finish_turn (i : nat) (st : State) : State :=
  setFormState
    (set_isAwaitingResponse false (set_inflight (delete i (inflight st)) st)).

(** The stream of the [i]-th handler ends: the raw text is stored on the
    placeholder, its code blocks are processed and the chat is saved. *)
Definition stream_end (i : nat) (env : Env) (st : State) : State :=
  match inflight st !! i with
  | None => st
  | Some turn =>
      let st1 :=
        update_wrapper (loadingIndicator turn)
          (fun w => processCodeBlocks (set_rawText (fullResponse turn) w))
          st in
      finish_turn i (saveCurrentChat env (prompt turn) st1)
  end.

Definition error_text (regenerating : bool) : jsstring :=
  if regenerating
  then lit "Oops! Something went wrong on regenerate. Please try again."
  else lit "Oops! Something went wrong. Please try again.".

(** [sendMessageStream] or the iteration throws in the [i]-th handler:
    the [catch] block writes the error text into the placeholder. *)
Definition stream_error (i : nat) (st : State) : State :=
  match inflight st !! i with
  | None => st
  | Some turn =>
      let st1 :=
        update_wrapper (loadingIndicator turn)
          (set_textContent (error_text (regenerating turn))) st in
      finish_turn i st1
  end.

Inductive Event :=
| Input (value : jsstring)
| FormSubmit (env : Env)
| RegenerateClick (env : Env)
| StreamChunk (i : nat) (text : jsstring)
| StreamEnd (i : nat) (env : Env)
| StreamError (i : nat)
| ContextMenu (chatId : option jsstring)
| DeleteChatClick (confirmed : bool)
| NewChatClick.

Definition step (st : State) (ev : Event) : State :=
  match ev with
  | Input value => set_chatInput value st
  | FormSubmit env => handleFormSubmit env st
  | RegenerateClick env => handleRegenerate env st
  | StreamChunk i text => stream_chunk i text st
  | StreamEnd i env => stream_end i env st
  | StreamError i => stream_error i st
  | ContextMenu chatId => set_contextMenuTarget (Some chatId) st
  | DeleteChatClick confirmed => deleteChat confirmed st
  | NewChatClick => startNewChat st
  end.

Definition run (st : State) (evs : list Event) : State :=
  fold_left step evs st.

(** The state when the page has loaded an empty store. *)
Definition initial_state (s : Settings.t) : State :=
  {| isAwaitingResponse := false; currentChatId := None;
     chatHistory := []; settings := s; localStorage := ∅;
     chatInput := []; contextMenuTarget := None; elements := [];
     chatContainer := []; inflight := [] |}.

(** The wrapper behind a reference. *)
Definition wrapper_at (ref : nat) (st : State) : option Wrapper :=
  contentWrapper <$> elements st !! ref.

End Controller.

(** A stand-in for the browser in the examples: the collection is
    written as the list of its ids, and no parsed HTML holds an element of
    class [message-text]. *)
Definition sample_platform : Platform :=
  {| JSON_stringify := fun h =>
       lit "[" ++ concat (map (fun s => ChatSession.id s ++ lit ",") h)
       ++ lit "]";
     message_text_of_html := fun _ => [] |}.

Definition sample_settings : Settings.t :=
  {| Settings.model := lit "gemini-2.5-flash";
     Settings.temperature := lit "0.7";
     Settings.maxTokens := lit "1000" |}.

Definition sample_env : Env :=
  {| now := lit "2025-01-01T00:00:00.000Z"; nowMs := 1735689600000;
     newId := lit "id_1735689600000_abc"; newId' := lit "id_1735689600000_xyz" |}.

(** The wrapper of a fresh placeholder. *)
Definition loading_wrapper : Wrapper :=
  {| children := LoadingDots; rawText := None; codeBlocksProcessed := true |}.

(** The state in which [handleFormSubmit] opens its stream, but for the
    suspended handler: the flag is set, the form and the draft are cleared,
    the user message and the placeholder are appended. *)
Definition submit_base (env : Env) (st : State) : State :=
  fst (appendMessage model None (newId' env)
         (fst (appendMessage user (Some (trim (chatInput st))) (newId env)
                 (clearDraft (setFormState (set_isAwaitingResponse true st)))))).

(** The same for [handleRegenerate]. *)
Definition regenerate_base {platform : Platform} (env : Env) (st : State)
  : State :=
  fst (appendMessage model None (newId' env)
         (setFormState
            (set_isAwaitingResponse true
               (if last_model_message st
                then set_chatContainer (removelast (chatContainer st)) st
                else st)))).

(** A state with one handler suspended on its stream: [base] with the
    placeholder [ref] holding [w] and the handler having accumulated
    [full]. *)
Definition streaming (base : State) (mid prompt : jsstring) (ref : nat)
    (regen : bool) (full : jsstring) (w : Wrapper) : State :=
  set_inflight
    [ {| prompt := prompt; loadingIndicator := ref; fullResponse := full;
         regenerating := regen |} ]
    (set_elements
       (<[ref := {| data_role := model; data_messageId := mid;
                    contentWrapper := w |}]> (elements base)) base).

Definition sample_session (chatId title : jsstring) : ChatSession.t :=
  {| ChatSession.id := chatId; ChatSession.title := title;
     ChatSession.messages := []; ChatSession.threads := [];
     ChatSession.createdAt := lit "2025-01-01T00:00:00.000Z";
     ChatSession.updatedAt := lit "2025-01-01T00:00:00.000Z";
     ChatSession.isPinned := false; ChatSession.isArchived := false;
     ChatSession.model := lit "gemini-2.5-flash";
     ChatSession.temperature := lit "0.7";
     ChatSession.maxTokens := lit "1000" |}.

(** A client that has typed a prompt and is idle. *)
Definition sample_ready : State :=
  set_chatInput (lit "hello") (initial_state sample_settings).

(** The one-stream discipline: the busy flag is set exactly while one
    handler is suspended on its stream. *)
Definition single_flight (st : State) : Prop :=
  (isAwaitingResponse st = true /\ length (inflight st) = 1%nat)
  \/ (isAwaitingResponse st = false /\ inflight st = []).

(** ** Predicates used in the proofs about the renderer *)

(** A matcher consumes input: what is left after a match is shorter than
    what the match was tried on. *)
Definition consuming (m : matcher) : Prop :=
  forall s r rest, m s = Some (r, rest) -> (length rest < length s)%nat.

(** The tags that the renderer writes, each up to the first text that
    comes from its input: the elements of the three inline styles, the
    anchor up to the value of [href], and [pre] and [code] of a code block
    up to the language. *)
Definition renderer_tags : list jsstring :=
  [ lit "<strong>"; lit "</strong>"; lit "<em>"; lit "</em>";
    lit "<code>"; lit "</code>"; lit "<pre>"; lit "</pre>";
    lit "<a href=" ++ [QUOTE]; lit "</a>";
    lit "<code class=" ++ [QUOTE] ++ lit "language-" ].

Definition starts_with (p s : jsstring) : bool :=
  match strip_prefix p s with
  | Some _ => true
  | None => false
  end.

(** The code units of the renderer's tags after their [<]. *)
Definition is_look (c : N) : bool :=
  existsb (fun tag => existsb (N.eqb c) (tl tag)) renderer_tags.

(** What follows a [<] completes one of the renderer's tags. *)
Definition tag_lookahead (t : jsstring) : bool :=
  existsb (fun tag => starts_with (tl tag) t) renderer_tags.

(** Every [<] of the string opens one of the renderer's own tags. *)
Fixpoint tag_safe (s : jsstring) : bool :=
  match s with
  | [] => true
  | c :: t => (if c =? LT then tag_lookahead t else true) && tag_safe t
  end.

(** The code units of the delimiters of the four inline patterns. *)
Definition inline_delim (c : N) : bool :=
  (c =? STAR) || (c =? BACKTICK) || (c =? LBRACKET) || (c =? RBRACKET)
  || (c =? LPAREN) || (c =? RPAREN).

(** The code units of a placeholder token: the underscore, the digits and
    the capitals of [CODEBLOCK]. *)
Definition token_char (c : N) : bool :=
  (c =? UNDERSCORE) || is_digit c
  || (c =? 67) || (c =? 79) || (c =? 68) || (c =? 69) || (c =? 66)
  || (c =? 76) || (c =? 75).

(** The code units at which the fence pattern and [trim] cut a text: the
    backtick and the white space (the line feed after the tag included). *)
Definition fence_delim (c : N) : bool :=
  (c =? BACKTICK) || is_trim_space c.

(** Plain prose: no angle bracket, no delimiter of an inline pattern (the
    backtick included) and no underscore. *)
Definition plain_char (c : N) : bool :=
  negb ((c =? LT) || (c =? GT) || inline_delim c || (c =? UNDERSCORE)).

(** The source text of a fenced block. *)
Definition fenced (lang body : jsstring) : jsstring :=
  lit "```" ++ lang ++ [NEWLINE] ++ body ++ lit "```".

(** [u] ends with the beginning of a placeholder token, that is with
    [__CODEBLOCK_] and digits, or with these and one underscore: text after
    which a match of the placeholder pattern can end on the underscores of
    what follows. *)
Definition digits_before_prefix (r : jsstring) : bool :=
  let '(ds, r') := span is_digit r in
  match ds, strip_prefix (rev (lit "__CODEBLOCK_")) r' with
  | _ :: _, Some _ => true
  | _, _ => false
  end.

Definition ends_in_partial_token (u : jsstring) : bool :=
  digits_before_prefix (rev u)
  || match rev u with
     | c :: r => (c =? UNDERSCORE) && digits_before_prefix r
     | [] => false
     end.

(** The code units of [__CODEBLOCK_], the text with which every match of
    the placeholder pattern starts. *)
Definition prefix_char (c : N) : bool :=
  existsb (N.eqb c) (lit "__CODEBLOCK_").

(** Text in which no match of the placeholder pattern can start. *)
Definition token_free (a : jsstring) : Prop :=
  ~ contains (lit "__CODEBLOCK_") a.

(** The text outside the fenced blocks: every match of the fence pattern,
    found from left to right as step 1 of [parseMarkdown] finds them, is
    replaced by a line feed. *)
Definition strike_fence : matcher := fun s =>
  match fence_match s with
  | Some (_, _, rest) => Some ([NEWLINE], rest)
  | None => None
  end.

Definition outside_fences (text : jsstring) : jsstring :=
  replace_g strike_fence text.

(** Text made of minted tokens, with the indices [ks] in this order, and of
    text without [__CODEBLOCK_] between them. *)
Inductive tokenized : list nat -> jsstring -> Prop :=
| tokenized_prose (a : jsstring) :
    token_free a -> tokenized [] a
| tokenized_token (a : jsstring) (k : nat) (ks : list nat) (rest : jsstring) :
    token_free a -> tokenized ks rest ->
    tokenized (k :: ks) (a ++ codeblock_token k ++ rest).

(** A literal that the renderer writes between two pieces of its input:
    it holds no [__CODEBLOCK_], and neither its first nor its last code unit
    is one of [__CODEBLOCK_]. *)
Definition separator (l : jsstring) : bool :=
  negb (containsb (lit "__CODEBLOCK_") l)
  && match l with
     | [] => false
     | d :: _ => negb (prefix_char d)
     end
  && match rev l with
     | [] => false
     | d :: _ => negb (prefix_char d)
     end.

(** The number of angle brackets of a text. *)
Definition angle_brackets (s : jsstring) : nat :=
  length (List.filter (fun c => (c =? LT) || (c =? GT)) s).

(** ** Documents

    A document is a sequence of pieces of markdown, each one construct of
    the renderer around plain text.  [document_source] is the text a user
    writes for it and [document_html] the HTML one expects for it. *)

Inductive piece :=
| Prose (text : jsstring)
| Bold (body : jsstring)
| Italic (body : jsstring)
| Code (body : jsstring)
| Link (text url : jsstring)
| Fence (lang body : jsstring).

Definition source_of (p : piece) : jsstring :=
  match p with
  | Prose t => t
  | Bold b => [STAR; STAR] ++ b ++ [STAR; STAR]
  | Italic b => [STAR] ++ b ++ [STAR]
  | Code b => [BACKTICK] ++ b ++ [BACKTICK]
  | Link t u => [LBRACKET] ++ t ++ [RBRACKET; LPAREN] ++ u ++ [RPAREN]
  | Fence lang body => fenced lang body
  end.

Definition html_of (p : piece) : jsstring :=
  match p with
  | Prose t => escapeHTML t
  | Bold b => lit "<strong>" ++ escapeHTML b ++ lit "</strong>"
  | Italic b => lit "<em>" ++ escapeHTML b ++ lit "</em>"
  | Code b => lit "<code>" ++ escapeHTML b ++ lit "</code>"
  | Link t u => anchor_markup (escapeHTML u) (escapeHTML t)
  | Fence lang body => code_block_markup lang (escapeHTML (trim body))
  end.

Definition document_source (ps : list piece) : jsstring :=
  concat (map source_of ps).

Definition document_html (ps : list piece) : jsstring :=
  concat (map html_of ps).

(** Plain text inside a document: no star, no backtick and no opening
    bracket, and every underscore is followed by a code unit of the text
    that is not an underscore.  Angle brackets, closing brackets and
    parentheses are plain text. *)
Definition prose_char (c : N) : bool :=
  negb ((c =? STAR) || (c =? BACKTICK) || (c =? LBRACKET)).

Fixpoint underscores_apart (s : jsstring) : bool :=
  match s with
  | [] => true
  | c :: t =>
      (if c =? UNDERSCORE
       then match t with
            | d :: _ => negb (d =? UNDERSCORE)
            | [] => false
            end
       else true)
      && underscores_apart t
  end.

Definition plain_text (s : jsstring) : bool :=
  forallb prose_char s && underscores_apart s.

Definition nonempty (s : jsstring) : bool :=
  match s with [] => false | _ :: _ => true end.

Definition starts_with_star (ps : list piece) : bool :=
  match ps with
  | Bold _ :: _ | Italic _ :: _ => true
  | _ => false
  end.

(** The pieces the theorem on documents covers.  The texts of all pieces
    but fences are plain.  Prose is not empty; emphasised text stays on one
    line; an italic piece is not empty and no star follows its closing one;
    inline code, the text and the url of a link are not empty, and the last
    two hold no closing bracket and no closing parenthesis; the tag of a
    fence is made of word characters and its body holds no backtick. *)
Definition well_formed_piece (p : piece) (next : list piece) : bool :=
  match p with
  | Prose t => nonempty t && plain_text t
  | Bold b => plain_text b && forallb is_dot b
  | Italic b =>
      nonempty b && plain_text b && forallb is_dot b
      && negb (starts_with_star next)
  | Code b => nonempty b && plain_text b
  | Link t u =>
      nonempty t && plain_text t && forallb (fun c => negb (c =? RBRACKET)) t
      && nonempty u && plain_text u && forallb (fun c => negb (c =? RPAREN)) u
  | Fence lang body =>
      forallb is_word lang && forallb (fun c => negb (c =? BACKTICK)) body
  end.

Fixpoint well_formed (ps : list piece) : bool :=
  match ps with
  | [] => true
  | p :: ps' => well_formed_piece p ps' && well_formed ps'
  end.

(** Steps of the proof: the text left by fence extraction when the next
    block gets the index [k], the markup of the blocks, and the text
    after escaping and [n] of the four inline passes. *)
Definition next_index (k : nat) (p : piece) : nat :=
  match p with Fence _ _ => S k | _ => k end.

Fixpoint processed (k : nat) (ps : list piece) : jsstring :=
  match ps with
  | [] => []
  | p :: ps' =>
      (match p with
       | Fence _ _ => codeblock_token k
       | _ => source_of p
       end) ++ processed (next_index k p) ps'
  end.

Definition markups (ps : list piece) : list jsstring :=
  flat_map (fun p => match p with
                     | Fence _ _ => [html_of p]
                     | _ => []
                     end) ps.

Definition piece_text (n k : nat) (p : piece) : jsstring :=
  match p with
  | Prose t => escapeHTML t
  | Bold b =>
      if (1 <=? n)%nat then html_of p
      else [STAR; STAR] ++ escapeHTML b ++ [STAR; STAR]
  | Italic b =>
      if (2 <=? n)%nat then html_of p
      else [STAR] ++ escapeHTML b ++ [STAR]
  | Code b =>
      if (3 <=? n)%nat then html_of p
      else [BACKTICK] ++ escapeHTML b ++ [BACKTICK]
  | Link t u =>
      if (4 <=? n)%nat then html_of p
      else [LBRACKET] ++ escapeHTML t ++ [RBRACKET; LPAREN] ++ escapeHTML u
           ++ [RPAREN]
  | Fence _ _ => codeblock_token k
  end.

Fixpoint stage (n k : nat) (ps : list piece) : jsstring :=
  match ps with
  | [] => []
  | p :: ps' => piece_text n k p ++ stage n (next_index k p) ps'
  end.

(** The texts that the passes copy: plain text, as a proposition. *)
Definition plain (s : jsstring) : Prop :=
  Forall (fun c => prose_char c = true) s /\ underscores_apart s = true.

(** ** More of the session store

    The other operations on the collection: renaming, pinning, archiving
    and bookmarking a chat, loading a chat into the view, and the
    drafts. *)

Definition set_title (t : jsstring) (s : ChatSession.t) : ChatSession.t :=
  {| ChatSession.id := ChatSession.id s; ChatSession.title := t;
     ChatSession.messages := ChatSession.messages s;
     ChatSession.threads := ChatSession.threads s;
     ChatSession.createdAt := ChatSession.createdAt s;
     ChatSession.updatedAt := ChatSession.updatedAt s;
     ChatSession.isPinned := ChatSession.isPinned s;
     ChatSession.isArchived := ChatSession.isArchived s;
     ChatSession.model := ChatSession.model s;
     ChatSession.temperature := ChatSession.temperature s;
     ChatSession.maxTokens := ChatSession.maxTokens s |}.

Definition set_updatedAt (t : jsstring) (s : ChatSession.t) : ChatSession.t :=
  {| ChatSession.id := ChatSession.id s;
     ChatSession.title := ChatSession.title s;
     ChatSession.messages := ChatSession.messages s;
     ChatSession.threads := ChatSession.threads s;
     ChatSession.createdAt := ChatSession.createdAt s;
     ChatSession.updatedAt := t;
     ChatSession.isPinned := ChatSession.isPinned s;
     ChatSession.isArchived := ChatSession.isArchived s;
     ChatSession.model := ChatSession.model s;
     ChatSession.temperature := ChatSession.temperature s;
     ChatSession.maxTokens := ChatSession.maxTokens s |}.

Definition set_isPinned (b : bool) (s : ChatSession.t) : ChatSession.t :=
  {| ChatSession.id := ChatSession.id s;
     ChatSession.title := ChatSession.title s;
     ChatSession.messages := ChatSession.messages s;
     ChatSession.threads := ChatSession.threads s;
     ChatSession.createdAt := ChatSession.createdAt s;
     ChatSession.updatedAt := ChatSession.updatedAt s;
     ChatSession.isPinned := b;
     ChatSession.isArchived := ChatSession.isArchived s;
     ChatSession.model := ChatSession.model s;
     ChatSession.temperature := ChatSession.temperature s;
     ChatSession.maxTokens := ChatSession.maxTokens s |}.

Definition set_isArchived (b : bool) (s : ChatSession.t) : ChatSession.t :=
  {| ChatSession.id := ChatSession.id s;
     ChatSession.title := ChatSession.title s;
     ChatSession.messages := ChatSession.messages s;
     ChatSession.threads := ChatSession.threads s;
     ChatSession.createdAt := ChatSession.createdAt s;
     ChatSession.updatedAt := ChatSession.updatedAt s;
     ChatSession.isPinned := ChatSession.isPinned s;
     ChatSession.isArchived := b;
     ChatSession.model := ChatSession.model s;
     ChatSession.temperature := ChatSession.temperature s;
     ChatSession.maxTokens := ChatSession.maxTokens s |}.

Definition set_messages (m : list Message.t) (s : ChatSession.t)
  : ChatSession.t :=
  {| ChatSession.id := ChatSession.id s;
     ChatSession.title := ChatSession.title s;
     ChatSession.messages := m;
     ChatSession.threads := ChatSession.threads s;
     ChatSession.createdAt := ChatSession.createdAt s;
     ChatSession.updatedAt := ChatSession.updatedAt s;
     ChatSession.isPinned := ChatSession.isPinned s;
     ChatSession.isArchived := ChatSession.isArchived s;
     ChatSession.model := ChatSession.model s;
     ChatSession.temperature := ChatSession.temperature s;
     ChatSession.maxTokens := ChatSession.maxTokens s |}.

(** [chatHistory.find(s => s.id === chatId)]: the first session with the
    id. *)
Definition find_session (chatId : jsstring) (h : list ChatSession.t)
  : option ChatSession.t :=
  List.find (fun s => jsstring_eqb (ChatSession.id s) chatId) h.

(** Assignments to fields of the session that [find] returned.  The
    object is the array's own, so the first session with the id changes
    in place. *)
Fixpoint update_session (chatId : jsstring)
    (f : ChatSession.t -> ChatSession.t) (h : list ChatSession.t)
  : list ChatSession.t :=
  match h with
  | [] => []
  | s :: h' =>
      if jsstring_eqb (ChatSession.id s) chatId then f s :: h'
      else s :: update_session chatId f h'
  end.

Section StoreOperations.

Context {platform : Platform}.

(** [function renameChat()], with the answer to [prompt] ([None] when the
    dialog is cancelled).  The header of the page, which also gets the new
    title when the chat is the current one, is not part of the state. *)
Definition renameChat (newTitle : option jsstring) (env : Env) (st : State)
  : State :=
  match contextMenuTarget st with
  | Some (Some ((_ :: _) as chatId)) =>
      match find_session chatId (chatHistory st) with
      | None => st
      | Some _ =>
          let st1 :=
            match newTitle with
            | Some ((_ :: _) as answer) =>
                match trim answer with
                | [] => st
                | trimmed =>
                    saveHistoryToStorage
                      (set_chatHistory
                         (update_session chatId
                            (fun s => set_updatedAt (now env)
                                        (set_title trimmed s))
                            (chatHistory st)) st)
                end
            | _ => st
            end in
          hideContextMenu st1
      end
  | _ => st
  end.

(** [function togglePinChat()] *)
Definition togglePinChat (env : Env) (st : State) : State :=
  match contextMenuTarget st with
  | Some (Some ((_ :: _) as chatId)) =>
      match find_session chatId (chatHistory st) with
      | None => st
      | Some _ =>
          hideContextMenu
            (saveHistoryToStorage
               (set_chatHistory
                  (update_session chatId
                     (fun s => set_updatedAt (now env)
                                 (set_isPinned (negb (ChatSession.isPinned s))
                                    s))
                     (chatHistory st)) st))
      end
  | _ => st
  end.

(** [function toggleArchiveChat()] *)
Definition toggleArchiveChat (env : Env) (st : State) : State :=
  match contextMenuTarget st with
  | Some (Some ((_ :: _) as chatId)) =>
      match find_session chatId (chatHistory st) with
      | None => st
      | Some _ =>
          hideContextMenu
            (saveHistoryToStorage
               (set_chatHistory
                  (update_session chatId
                     (fun s => set_updatedAt (now env)
                                 (set_isArchived
                                    (negb (ChatSession.isArchived s)) s))
                     (chatHistory st)) st))
      end
  | _ => st
  end.

(** [function toggleBookmarkChat()]: the button of the header; it flips
    [isPinned] of the current chat. *)
Definition toggleBookmarkChat (env : Env) (st : State) : State :=
  match currentChatId st with
  | Some ((_ :: _) as cur) =>
      match find_session cur (chatHistory st) with
      | None => st
      | Some _ =>
          saveHistoryToStorage
            (set_chatHistory
               (update_session cur
                  (fun s => set_updatedAt (now env)
                              (set_isPinned (negb (ChatSession.isPinned s))
                                 s))
                  (chatHistory st)) st)
      end
  | _ => st
  end.

(** The loop of [loadChatSession]: every stored message is appended with
    its first part's text and its id ([generateId()], here [gen i] for the
    message at position [i], when the stored id is empty).  Reading
    [msg.parts[0].text] of a message without parts throws. *)
Fixpoint append_messages (gen : nat -> jsstring) (i : nat)
    (msgs : list Message.t) (st : State) : completion State :=
  match msgs with
  | [] => Normal st
  | msg :: rest =>
      match Message.parts msg with
      | [] => Throw TypeError st
      | text :: _ =>
          let messageId :=
            match Message.id msg with [] => gen i | mid => mid end in
          append_messages gen (S i) rest
            (fst (appendMessage (Message.role msg) (Some text) messageId st))
      end
  end.

(** [function loadChatSession(chatId)] *)
Definition loadChatSession (gen : nat -> jsstring) (chatId : jsstring)
    (st : State) : completion State :=
  match find_session chatId (chatHistory st) with
  | None => Normal st
  | Some session =>
      append_messages gen 0 (ChatSession.messages session)
        (set_chatContainer [] (set_currentChatId (Some chatId) st))
  end.

(** [function saveDraft()], with the value of [settings.autoSave]: the
    input is stored as it is when it is not blank. *)
Definition saveDraft (autoSave : bool) (st : State) : State :=
  match autoSave, trim (chatInput st) with
  | true, _ :: _ =>
      set_localStorage
        (<["draftMessage"%string := chatInput st]> (localStorage st)) st
  | _, _ => st
  end.

(** [function loadDraft()] *)
Definition loadDraft (st : State) : State :=
  match localStorage st !! "draftMessage"%string with
  | Some ((_ :: _) as savedDraft) => set_chatInput savedDraft st
  | _ => st
  end.

End StoreOperations.

(** What [getMessagesFromDOM] reads, at the clock of [env], from the
    element that [loadChatSession] appends for the stored message [m] at
    position [i]: nothing when the first text is empty. *)
Definition scraped_message (env : Env) (gen : nat -> jsstring) (i : nat)
    (m : Message.t) : list Message.t :=
  match Message.parts m with
  | (_ :: _) as text :: _ =>
      [ {| Message.id := match Message.id m with [] => gen i | mid => mid end;
           Message.role := Message.role m;
           Message.parts := [text];
           Message.timestamp := now env;
           Message.reactions := None;
           Message.isBookmarked := None;
           Message.threadId := None |} ]
  | _ => []
  end.

Fixpoint scraped_messages (env : Env) (gen : nat -> jsstring) (i : nat)
    (msgs : list Message.t) : list Message.t :=
  match msgs with
  | [] => []
  | m :: rest =>
      scraped_message env gen i m ++ scraped_messages env gen (S i) rest
  end.

(** Every reference of the container points to an element. *)
Definition container_valid (st : State) : Prop :=
  Forall (fun ref => (ref < length (elements st))%nat) (chatContainer st).

Section ScrapeElement.

Context {platform : Platform}.

(** What [getMessagesFromDOM] makes of one element. *)
Definition scrape_element (env : Env) (el : MessageElement) : list Message.t :=
  match scraped_text (contentWrapper el) with
  | [] => []
  | (_ :: _) as text =>
      [ {| Message.id := match data_messageId el with
                         | [] => newId env
                         | mid => mid
                         end;
           Message.role := data_role el;
           Message.parts := [text];
           Message.timestamp := now env;
           Message.reactions := None;
           Message.isBookmarked := None;
           Message.threadId := None |} ]
  end.

End ScrapeElement.

(** * Properties of the string primitives *)

Lemma strip_prefix_Some (p s r : jsstring) :
  strip_prefix p s = Some r <-> s = p ++ r.
Proof.
  revert s; induction p as [|c p IH]; intros s; simpl.
  - split; congruence.
  - destruct s as [|d s]; [split; discriminate|].
    destruct (N.eqb_spec c d) as [->|Hne].
    + rewrite IH. split; congruence.
    + split; [discriminate | intros [= ? ?]; congruence].
Qed.

Lemma strip_prefix_app (p r : jsstring) : strip_prefix p (p ++ r) = Some r.
Proof. now apply strip_prefix_Some. Qed.

Lemma span_spec (ok : N -> bool) (s a b : jsstring) :
  span ok s = (a, b) ->
  s = a ++ b /\ Forall (fun c => ok c = true) a
  /\ match b with [] => True | c :: _ => ok c = false end.
Proof.
  revert a b; induction s as [|c t IH]; intros a b; simpl.
  - intros [= <- <-]. auto.
  - destruct (ok c) eqn:Hc.
    + destruct (span ok t) as [a' b'] eqn:Ht. intros [= <- <-].
      destruct (IH _ _ eq_refl) as (-> & Ha & Hb). auto.
    + intros [= <- <-]. auto.
Qed.

(** A greedy run followed by a code unit outside the class stops there. *)
Lemma span_app_stop (ok : N -> bool) (a : jsstring) (d : N) (b : jsstring) :
  Forall (fun c => ok c = true) a -> ok d = false ->
  span ok (a ++ d :: b) = (a, d :: b).
Proof.
  intros Ha Hd. induction Ha as [|c a Hc _ IH]; simpl.
  - now rewrite Hd.
  - now rewrite Hc, IH.
Qed.

Lemma until_spec (stop : jsstring) (ok : N -> bool) (s cap rest : jsstring) :
  until stop ok s = Some (cap, rest) ->
  s = cap ++ stop ++ rest /\ Forall (fun c => ok c = true) cap.
Proof.
  revert cap rest; induction s as [|c t IH]; intros cap rest.
  - simpl. destruct (strip_prefix stop []) eqn:Hs; [|discriminate].
    intros [= <- <-]. apply strip_prefix_Some in Hs. auto.
  - simpl. destruct (strip_prefix stop (c :: t)) eqn:Hs.
    + intros [= <- <-]. apply strip_prefix_Some in Hs. auto.
    + destruct (ok c) eqn:Hc; [|discriminate].
      destruct (until stop ok t) as [[cap' rest']|] eqn:Ht; [|discriminate].
      intros [= <- <-]. destruct (IH _ _ eq_refl) as (-> & Hcap). auto.
Qed.

Lemma contains_refl (w : jsstring) : contains w w.
Proof. exists [], []. now rewrite app_nil_r. Qed.

Lemma contains_app_l (w a b : jsstring) : contains w a -> contains w (a ++ b).
Proof.
  intros (x & y & ->). exists x, (y ++ b). rewrite <- ?app_assoc; reflexivity.
Qed.

Lemma contains_app_r (w a b : jsstring) : contains w b -> contains w (a ++ b).
Proof.
  intros (x & y & ->). exists (a ++ x), y. rewrite <- ?app_assoc; reflexivity.
Qed.

Lemma contains_cons (w : jsstring) (c : N) (s : jsstring) :
  contains w s -> contains w (c :: s).
Proof. apply (contains_app_r w [c] s). Qed.

Lemma contains_nil_inv (w : jsstring) : contains w [] -> w = [].
Proof.
  intros (a & b & H). symmetry in H.
  apply app_eq_nil in H as [_ H]. now apply app_eq_nil in H as [H _].
Qed.

Lemma containsb_spec (w s : jsstring) :
  containsb w s = true <-> contains w s.
Proof.
  induction s as [|c t IH]; simpl.
  - destruct (strip_prefix w []) as [r|] eqn:Hs.
    + apply strip_prefix_Some in Hs. split; [|auto].
      intros _. exists [], r. exact Hs.
    + split; [discriminate|]. intros Hc. apply contains_nil_inv in Hc.
      subst w. discriminate.
  - destruct (strip_prefix w (c :: t)) as [r|] eqn:Hs.
    + apply strip_prefix_Some in Hs. split; [|auto].
      intros _. exists [], r. exact Hs.
    + rewrite IH. split; [apply contains_cons|].
      intros (a & b & H). destruct a as [|d a].
      * simpl in H. apply strip_prefix_Some in H. congruence.
      * injection H as _ H. now exists a, b.
Qed.

Example parseMarkdown_ex1 :
  parseMarkdown (lit "a **b** *c* `d` [e](f) <g>")
  = lit "a <strong>b</strong> <em>c</em> <code>d</code> "
    ++ anchor_markup (lit "f") (lit "e") ++ lit " &lt;g&gt;".
Proof. vm_compute. reflexivity. Qed.

(** * The global replace *)

Lemma replace_from_enough (m : matcher) :
  consuming m ->
  forall n k s, (length s < n)%nat -> (length s < k)%nat ->
    replace_from n m s = replace_from k m s.
Proof.
  intros Hm. induction n as [|n IH]; intros k s Hn Hk; [lia|].
  destruct k as [|k]; [lia|]. simpl.
  destruct (m s) as [[r rest]|] eqn:Hs.
  - f_equal. apply Hm in Hs. apply IH; lia.
  - destruct s as [|c t]; [reflexivity|]. f_equal. simpl in *. apply IH; lia.
Qed.

(** The equation of the scan: one attempt at the current position. *)
Lemma replace_g_unfold (m : matcher) (s : jsstring) :
  consuming m ->
  replace_g m s =
    match m s with
    | Some (r, rest) => r ++ replace_g m rest
    | None => match s with [] => [] | c :: t => c :: replace_g m t end
    end.
Proof.
  intros Hm. unfold replace_g at 1. simpl.
  destruct (m s) as [[r rest]|] eqn:Hs.
  - f_equal. pose proof (Hm _ _ _ Hs). apply replace_from_enough; auto; lia.
  - destruct s as [|c t]; reflexivity.
Qed.

(** Induction along the scan. *)
Lemma replace_g_ind (m : matcher) (P : jsstring -> jsstring -> Prop) :
  consuming m ->
  (m [] = None -> P [] []) ->
  (forall c t, m (c :: t) = None ->
     P t (replace_g m t) -> P (c :: t) (c :: replace_g m t)) ->
  (forall s r rest, m s = Some (r, rest) ->
     P rest (replace_g m rest) -> P s (r ++ replace_g m rest)) ->
  forall s, P s (replace_g m s).
Proof.
  intros Hm Hnil Hcopy Hmatch s.
  remember (length s) as n eqn:Hn. revert s Hn.
  induction n as [n IH] using lt_wf_ind. intros s ->.
  rewrite replace_g_unfold by assumption.
  destruct (m s) as [[r rest]|] eqn:Hs.
  - apply Hmatch; [assumption|]. eapply IH; [|reflexivity]. eauto.
  - destruct s as [|c t]; [auto|].
    apply Hcopy; [assumption|]. eapply IH; [|reflexivity]. simpl; lia.
Qed.

(** No match starts in a prefix whose code units cannot start one. *)
Lemma replace_g_skip (m : matcher) (start : N -> bool) (a b : jsstring) :
  consuming m ->
  (forall c t, start c = false -> m (c :: t) = None) ->
  Forall (fun c => start c = false) a ->
  replace_g m (a ++ b) = a ++ replace_g m b.
Proof.
  intros Hm Hstart Ha. induction Ha as [|c a Hc _ IH]; [reflexivity|].
  simpl. rewrite replace_g_unfold by assumption.
  rewrite (Hstart _ _ Hc). now rewrite IH.
Qed.

(** * The shape of a match *)

Lemma fence_match_spec (s lang code rest : jsstring) :
  fence_match s = Some (lang, code, rest) ->
  s = lit "```" ++ lang ++ [NEWLINE] ++ code ++ lit "```" ++ rest
  /\ Forall (fun c => is_word c = true) lang.
Proof.
  unfold fence_match.
  destruct (strip_prefix (lit "```") s) as [s1|] eqn:H1; [|discriminate].
  destruct (span is_word s1) as [lang' s2] eqn:H2.
  destruct (strip_prefix [NEWLINE] s2) as [s3|] eqn:H3; [|discriminate].
  destruct (until (lit "```") is_any s3) as [[code' rest']|] eqn:H4;
    [|discriminate].
  intros [= <- <- <-].
  apply strip_prefix_Some in H1, H3. apply span_spec in H2 as (-> & Hl & _).
  apply until_spec in H4 as (-> & _). subst. split; [|assumption].
  rewrite <- ?app_assoc; reflexivity.
Qed.

Lemma bold_match_spec (s r rest : jsstring) :
  bold_match s = Some (r, rest) ->
  exists cap, s = [STAR; STAR] ++ cap ++ [STAR; STAR] ++ rest
    /\ r = lit "<strong>" ++ cap ++ lit "</strong>".
Proof.
  unfold bold_match.
  destruct (strip_prefix [STAR; STAR] s) as [s1|] eqn:H1; [|discriminate].
  destruct (until [STAR; STAR] is_dot s1) as [[cap rest']|] eqn:H2;
    [|discriminate].
  intros [= <- <-]. exists cap.
  apply strip_prefix_Some in H1. apply until_spec in H2 as (-> & _).
  now subst.
Qed.

Lemma italic_match_spec (s r rest : jsstring) :
  italic_match s = Some (r, rest) ->
  exists cap, s = [STAR] ++ cap ++ [STAR] ++ rest
    /\ r = lit "<em>" ++ cap ++ lit "</em>".
Proof.
  unfold italic_match.
  destruct (strip_prefix [STAR] s) as [s1|] eqn:H1; [|discriminate].
  destruct (until [STAR] is_dot s1) as [[cap rest']|] eqn:H2; [|discriminate].
  intros [= <- <-]. exists cap.
  apply strip_prefix_Some in H1. apply until_spec in H2 as (-> & _).
  now subst.
Qed.

Lemma inline_code_match_spec (s r rest : jsstring) :
  inline_code_match s = Some (r, rest) ->
  exists cap, s = [BACKTICK] ++ cap ++ [BACKTICK] ++ rest
    /\ r = lit "<code>" ++ cap ++ lit "</code>".
Proof.
  unfold inline_code_match.
  destruct (strip_prefix [BACKTICK] s) as [s1|] eqn:H1; [|discriminate].
  destruct (span _ s1) as [cap s2] eqn:H2.
  destruct cap as [|c cap]; [discriminate|].
  destruct (strip_prefix [BACKTICK] s2) as [rest'|] eqn:H3; [|discriminate].
  intros [= <- <-]. exists (c :: cap).
  apply strip_prefix_Some in H1, H3. apply span_spec in H2 as (-> & _).
  now subst.
Qed.

Lemma link_match_spec (s r rest : jsstring) :
  link_match s = Some (r, rest) ->
  exists txt url,
    s = [LBRACKET] ++ txt ++ [RBRACKET; LPAREN] ++ url ++ [RPAREN] ++ rest
    /\ r = anchor_markup url txt.
Proof.
  unfold link_match.
  destruct (strip_prefix [LBRACKET] s) as [s1|] eqn:H1; [|discriminate].
  destruct (span _ s1) as [txt s2] eqn:H2.
  destruct txt as [|c txt]; [discriminate|].
  destruct (strip_prefix [RBRACKET; LPAREN] s2) as [s3|] eqn:H3;
    [|discriminate].
  destruct (span _ s3) as [url s4] eqn:H4.
  destruct url as [|d url]; [discriminate|].
  destruct (strip_prefix [RPAREN] s4) as [rest'|] eqn:H5; [|discriminate].
  intros [= <- <-]. exists (c :: txt), (d :: url).
  apply strip_prefix_Some in H1, H3, H5.
  apply span_spec in H2 as (-> & _). apply span_spec in H4 as (-> & _).
  subst. split; [|reflexivity]. rewrite <- ?app_assoc; reflexivity.
Qed.

Lemma restore_match_spec (phs : list jsstring) (s r rest : jsstring) :
  restore_match phs s = Some (r, rest) ->
  exists index,
    s = lit "__CODEBLOCK_" ++ index ++ [UNDERSCORE; UNDERSCORE] ++ rest
    /\ r = placeholder_at phs index
    /\ index <> [] /\ Forall (fun c => is_digit c = true) index.
Proof.
  unfold restore_match.
  destruct (strip_prefix (lit "__CODEBLOCK_") s) as [s1|] eqn:H1;
    [|discriminate].
  destruct (span is_digit s1) as [index s2] eqn:H2.
  destruct index as [|c index]; [discriminate|].
  destruct (strip_prefix [UNDERSCORE; UNDERSCORE] s2) as [rest'|] eqn:H3;
    [|discriminate].
  intros [= <- <-]. exists (c :: index).
  apply strip_prefix_Some in H1, H3. apply span_spec in H2 as (-> & Hd & _).
  subst. repeat split;
    first [assumption | discriminate | rewrite <- ?app_assoc; reflexivity].
Qed.

(** A placeholder token in front of any text is matched as a whole. *)
Lemma restore_match_token (phs : list jsstring) (index rest : jsstring) :
  index <> [] -> Forall (fun c => is_digit c = true) index ->
  restore_match phs
    (lit "__CODEBLOCK_" ++ index ++ [UNDERSCORE; UNDERSCORE] ++ rest)
  = Some (placeholder_at phs index, rest).
Proof.
  intros Hne Hd. unfold restore_match. rewrite strip_prefix_app.
  change ([UNDERSCORE; UNDERSCORE] ++ rest)
    with (UNDERSCORE :: UNDERSCORE :: rest).
  rewrite span_app_stop by (assumption || reflexivity).
  destruct index; [contradiction|]. reflexivity.
Qed.

Ltac length_of_shape :=
  repeat match goal with
    | H : exists _, _ |- _ => destruct H
    | H : _ /\ _ |- _ => destruct H
    end;
  subst; rewrite ?length_app; simpl; lia.

Lemma bold_match_consuming : consuming bold_match.
Proof. intros s r rest H. apply bold_match_spec in H. length_of_shape. Qed.

Lemma italic_match_consuming : consuming italic_match.
Proof. intros s r rest H. apply italic_match_spec in H. length_of_shape. Qed.

Lemma inline_code_match_consuming : consuming inline_code_match.
Proof.
  intros s r rest H. apply inline_code_match_spec in H. length_of_shape.
Qed.

Lemma link_match_consuming : consuming link_match.
Proof. intros s r rest H. apply link_match_spec in H. length_of_shape. Qed.

Lemma restore_match_consuming (phs : list jsstring) :
  consuming (restore_match phs).
Proof. intros s r rest H. apply restore_match_spec in H. length_of_shape. Qed.

Create HintDb render.

#[local] Hint Resolve bold_match_consuming italic_match_consuming
  inline_code_match_consuming link_match_consuming restore_match_consuming
  : render.

(** * Tag safety: every [<] opens one of the renderer's tags *)

Lemma starts_with_spec (p s : jsstring) :
  starts_with p s = true <-> exists r, s = p ++ r.
Proof.
  unfold starts_with. destruct (strip_prefix p s) as [r|] eqn:H.
  - apply strip_prefix_Some in H. split; [eauto | reflexivity].
  - split; [discriminate|]. intros [r ->].
    now rewrite strip_prefix_app in H.
Qed.

(** The text after a [<] that opens a renderer's tag starts with the rest
    of that tag, which is made of lookahead code units. *)
Lemma tag_lookahead_spec (t : jsstring) :
  tag_lookahead t = true <->
  exists body r, In (LT :: body) renderer_tags /\ t = body ++ r.
Proof.
  unfold tag_lookahead. rewrite existsb_exists. split.
  - intros (tag & Hin & H). apply starts_with_spec in H as [r ->].
    exists (tl tag), r. split; [|reflexivity].
    revert Hin. clear. simpl. intuition (subst; simpl; auto 12).
  - intros (body & r & Hin & ->). exists (LT :: body). split; [assumption|].
    apply starts_with_spec. now exists r.
Qed.

Lemma renderer_tag_look (body : jsstring) :
  In (LT :: body) renderer_tags ->
  body <> [] /\ Forall (fun c => is_look c = true) body.
Proof.
  simpl. intros H.
  repeat (destruct H as [H|H];
          [injection H as <-; split; [discriminate | repeat constructor]|]).
  contradiction.
Qed.

Lemma tag_lookahead_look (t : jsstring) :
  tag_lookahead t = true ->
  exists c t', t = c :: t' /\ is_look c = true.
Proof.
  intros H. apply tag_lookahead_spec in H as (body & r & Hin & ->).
  apply renderer_tag_look in Hin as [Hne Hl].
  destruct body as [|c body]; [contradiction|].
  exists c, (body ++ r). split; [reflexivity|]. now inversion Hl.
Qed.

Lemma tag_lookahead_app (t b : jsstring) :
  tag_lookahead t = true -> tag_lookahead (t ++ b) = true.
Proof.
  rewrite !tag_lookahead_spec. intros (body & r & Hin & ->).
  exists body, (r ++ b). now rewrite app_assoc.
Qed.

(** A string of lookahead code units at the start of [a ++ d :: b], where
    [d] is none, lies in [a]. *)
Lemma look_prefix (body a : jsstring) (d : N) (b r : jsstring) :
  Forall (fun c => is_look c = true) body -> is_look d = false ->
  a ++ d :: b = body ++ r -> exists r', a = body ++ r'.
Proof.
  intros Hl Hd. revert a. induction Hl as [|c body Hc _ IH]; intros a H.
  - now exists a.
  - destruct a as [|e a]; simpl in H.
    + injection H as -> _. congruence.
    + injection H as -> H. destruct (IH a H) as [r' ->]. now exists r'.
Qed.

Lemma tag_lookahead_prefix (a : jsstring) (d : N) (b : jsstring) :
  is_look d = false ->
  tag_lookahead (a ++ d :: b) = true -> tag_lookahead a = true.
Proof.
  intros Hd. rewrite !tag_lookahead_spec. intros (body & r & Hin & H).
  destruct (renderer_tag_look _ Hin) as [_ Hl].
  destruct (look_prefix body a d b r Hl Hd H) as [r' ->].
  now exists body, r'.
Qed.

Lemma tag_safe_app (a b : jsstring) :
  tag_safe a = true -> tag_safe b = true -> tag_safe (a ++ b) = true.
Proof.
  intros Ha Hb. induction a as [|c a IH]; [assumption|].
  simpl in *. apply andb_true_iff in Ha as [Hc Ha].
  rewrite (IH Ha), andb_true_r.
  destruct (c =? LT); [now apply tag_lookahead_app | reflexivity].
Qed.

Lemma tag_safe_suffix (a b : jsstring) :
  tag_safe (a ++ b) = true -> tag_safe b = true.
Proof.
  induction a as [|c a IH]; [auto|]. simpl.
  intros H. apply andb_true_iff in H as [_ H]. auto.
Qed.

Lemma tag_safe_prefix (a : jsstring) (d : N) (b : jsstring) :
  is_look d = false ->
  tag_safe (a ++ d :: b) = true -> tag_safe a = true.
Proof.
  intros Hd. induction a as [|c a IH]; [reflexivity|]. simpl.
  intros H. apply andb_true_iff in H as [Hc H].
  rewrite (IH H), andb_true_r.
  destruct (c =? LT); [|reflexivity].
  now apply tag_lookahead_prefix in Hc.
Qed.

Lemma tag_safe_no_lt (s : jsstring) :
  Forall (fun c => c <> LT) s -> tag_safe s = true.
Proof.
  induction 1 as [|c s Hc _ IH]; [reflexivity|]. simpl.
  apply N.eqb_neq in Hc. now rewrite Hc, IH.
Qed.

(** A safe string has no [<script>], which is none of the renderer's
    tags. *)
Lemma tag_safe_no_script (s : jsstring) :
  tag_safe s = true -> ~ contains (lit "<script>") s.
Proof.
  intros Hs (a & b & ->). apply tag_safe_suffix in Hs. discriminate.
Qed.

(** What [tag_safe] decides: wherever the string has a [<], one of the
    renderer's tags starts. *)
Lemma tag_safe_spec (s : jsstring) :
  tag_safe s = true <->
  forall a b, s = a ++ LT :: b ->
    exists tag rest, In tag renderer_tags /\ LT :: b = tag ++ rest.
Proof.
  split.
  - intros Hs a b ->. apply tag_safe_suffix in Hs. simpl in Hs.
    apply andb_true_iff in Hs as [Hs _].
    apply tag_lookahead_spec in Hs as (body & r & Hin & ->).
    now exists (LT :: body), r.
  - induction s as [|c s IH]; [reflexivity|]. intros H. simpl.
    apply andb_true_iff. split.
    + destruct (N.eqb_spec c LT) as [->|]; [|reflexivity].
      destruct (H [] s eq_refl) as (tag & rest & Hin & Heq).
      apply tag_lookahead_spec. destruct tag as [|e body].
      { exfalso. revert Hin. clear. simpl. intuition discriminate. }
      injection Heq as <- ->. now exists body, rest.
    + apply IH. intros a b ->. apply (H (c :: a) b eq_refl).
Qed.

(** Tags that are not the renderer's are not safe. *)
Lemma tag_safe_foreign_tags :
  tag_safe (lit "<audio src=x onerror=alert(1)>") = false
  /\ tag_safe (lit "<embed>") = false
  /\ tag_safe (lit "<style>") = false
  /\ tag_safe (lit "</anything>") = false
  /\ tag_safe (lit "<em>a</em> <strong>b</strong>") = true.
Proof. repeat split. Qed.

Section ReplaceSafe.

Variable m : matcher.
Hypothesis m_consuming : consuming m.
Hypothesis m_start : forall c t, is_look c = true -> m (c :: t) = None.
Hypothesis m_safe : forall s r rest,
  tag_safe s = true -> m s = Some (r, rest) ->
  tag_safe r = true /\ tag_safe rest = true.

Lemma replace_g_look (c : N) (t : jsstring) :
  is_look c = true -> replace_g m (c :: t) = c :: replace_g m t.
Proof.
  intros Hc. rewrite replace_g_unfold by assumption.
  now rewrite m_start.
Qed.

Lemma replace_g_looks (body r : jsstring) :
  Forall (fun c => is_look c = true) body ->
  replace_g m (body ++ r) = body ++ replace_g m r.
Proof.
  induction 1 as [|c body Hc _ IH]; [reflexivity|].
  cbn [app]. rewrite replace_g_look by assumption. now rewrite IH.
Qed.

Lemma tag_lookahead_replace_g (t : jsstring) :
  tag_lookahead t = true -> tag_lookahead (replace_g m t) = true.
Proof.
  rewrite !tag_lookahead_spec. intros (body & r & Hin & ->).
  destruct (renderer_tag_look _ Hin) as [_ Hl].
  rewrite replace_g_looks by assumption. now exists body, (replace_g m r).
Qed.

Lemma replace_g_tag_safe (s : jsstring) :
  tag_safe s = true -> tag_safe (replace_g m s) = true.
Proof.
  apply (replace_g_ind m
    (fun s out => tag_safe s = true -> tag_safe out = true));
    [assumption | auto | |].
  - intros c t _ IH. simpl. intros H.
    apply andb_true_iff in H as [Hc H].
    rewrite (IH H), andb_true_r.
    destruct (c =? LT); [|reflexivity].
    now apply tag_lookahead_replace_g.
  - intros s' r rest Hs IH Hsafe.
    destruct (m_safe _ _ _ Hsafe Hs). apply tag_safe_app; auto.
Qed.

End ReplaceSafe.

Ltac bool_to_prop H :=
  repeat rewrite ?andb_true_iff, ?orb_true_iff, ?negb_true_iff,
    ?andb_false_iff, ?orb_false_iff, ?negb_false_iff,
    ?N.leb_le, ?N.eqb_eq, ?N.eqb_neq, ?N.leb_gt in H.

Lemma strip_prefix_head_ne (k : N) (p : jsstring) (c : N) (t : jsstring) :
  k <> c -> strip_prefix (k :: p) (c :: t) = None.
Proof. intros H. simpl. apply N.eqb_neq in H. now rewrite H. Qed.

(** A matcher that starts with a literal whose first code unit is not a
    lookahead code unit fails on every string that starts with one. *)
Ltac start_not_look p :=
  match goal with
  | Hc : is_look ?c = true |- _ (?c :: ?t) = None =>
      assert (strip_prefix p (c :: t) = None) as Hp
        by (apply strip_prefix_head_ne; intros <-; discriminate Hc);
      cbv beta delta [bold_match italic_match inline_code_match
        link_match restore_match]; rewrite Hp; reflexivity
  end.

Lemma bold_match_start c t : is_look c = true -> bold_match (c :: t) = None.
Proof. intros Hc. start_not_look [STAR; STAR]. Qed.

Lemma italic_match_start c t :
  is_look c = true -> italic_match (c :: t) = None.
Proof. intros Hc. start_not_look [STAR]. Qed.

Lemma inline_code_match_start c t :
  is_look c = true -> inline_code_match (c :: t) = None.
Proof. intros Hc. start_not_look [BACKTICK]. Qed.

Lemma link_match_start c t : is_look c = true -> link_match (c :: t) = None.
Proof. intros Hc. start_not_look [LBRACKET]. Qed.

Lemma restore_match_start phs c t :
  is_look c = true -> restore_match phs (c :: t) = None.
Proof. intros Hc. start_not_look (lit "__CODEBLOCK_"). Qed.

(** The capture of a match on a safe string is safe: it is cut out of the
    string in front of a delimiter, which is not a lookahead code unit. *)
Lemma tag_safe_capture (a cap : jsstring) (d : N) (b : jsstring) :
  is_look d = false ->
  tag_safe (a ++ cap ++ d :: b) = true -> tag_safe cap = true.
Proof.
  intros Hd H. apply tag_safe_suffix in H. now apply tag_safe_prefix in H.
Qed.

Lemma bold_match_safe s r rest :
  tag_safe s = true -> bold_match s = Some (r, rest) ->
  tag_safe r = true /\ tag_safe rest = true.
Proof.
  intros Hs H. apply bold_match_spec in H as (cap & -> & ->). split.
  - apply (tag_safe_capture [STAR; STAR] cap STAR (STAR :: rest)) in Hs;
      [|reflexivity].
    apply (tag_safe_app (lit "<strong>")); [reflexivity|].
    apply tag_safe_app; [assumption | reflexivity].
  - rewrite !app_assoc in Hs. now apply tag_safe_suffix in Hs.
Qed.

Lemma italic_match_safe s r rest :
  tag_safe s = true -> italic_match s = Some (r, rest) ->
  tag_safe r = true /\ tag_safe rest = true.
Proof.
  intros Hs H. apply italic_match_spec in H as (cap & -> & ->). split.
  - apply (tag_safe_capture [STAR] cap STAR rest) in Hs; [|reflexivity].
    apply (tag_safe_app (lit "<em>")); [reflexivity|].
    apply tag_safe_app; [assumption | reflexivity].
  - rewrite !app_assoc in Hs. now apply tag_safe_suffix in Hs.
Qed.

Lemma inline_code_match_safe s r rest :
  tag_safe s = true -> inline_code_match s = Some (r, rest) ->
  tag_safe r = true /\ tag_safe rest = true.
Proof.
  intros Hs H. apply inline_code_match_spec in H as (cap & -> & ->). split.
  - apply (tag_safe_capture [BACKTICK] cap BACKTICK rest) in Hs;
      [|reflexivity].
    apply (tag_safe_app (lit "<code>")); [reflexivity|].
    apply tag_safe_app; [assumption | reflexivity].
  - rewrite !app_assoc in Hs. now apply tag_safe_suffix in Hs.
Qed.

Lemma anchor_markup_safe (url txt : jsstring) :
  tag_safe url = true -> tag_safe txt = true ->
  tag_safe (anchor_markup url txt) = true.
Proof.
  intros Hu Ht. unfold anchor_markup. rewrite (app_assoc (lit "<a href=")).
  repeat (apply tag_safe_app; [first [assumption | reflexivity]|]).
  reflexivity.
Qed.

Lemma link_match_safe s r rest :
  tag_safe s = true -> link_match s = Some (r, rest) ->
  tag_safe r = true /\ tag_safe rest = true.
Proof.
  intros Hs H. apply link_match_spec in H as (txt & url & -> & ->). split.
  - apply anchor_markup_safe.
    + rewrite (app_assoc [LBRACKET]), (app_assoc _ [RBRACKET; LPAREN]) in Hs.
      now apply (tag_safe_capture _ url RPAREN rest) in Hs.
    + now apply (tag_safe_capture [LBRACKET] txt RBRACKET
                   (LPAREN :: url ++ [RPAREN] ++ rest)) in Hs.
  - rewrite !app_assoc in Hs. now apply tag_safe_suffix in Hs.
Qed.

Lemma placeholder_at_safe (phs : list jsstring) (index : jsstring) :
  Forall (fun p => tag_safe p = true) phs ->
  tag_safe (placeholder_at phs index) = true.
Proof.
  intros Hp. unfold placeholder_at.
  destruct (nth_error phs (parseInt index)) as [p|] eqn:Hn; [|reflexivity].
  apply nth_error_In in Hn. rewrite List.Forall_forall in Hp. auto.
Qed.

Lemma restore_match_safe phs s r rest :
  Forall (fun p => tag_safe p = true) phs ->
  tag_safe s = true -> restore_match phs s = Some (r, rest) ->
  tag_safe r = true /\ tag_safe rest = true.
Proof.
  intros Hp Hs H. apply restore_match_spec in H as (index & -> & -> & _).
  split; [now apply placeholder_at_safe|].
  rewrite !app_assoc in Hs. now apply tag_safe_suffix in Hs.
Qed.

Lemma inlineTransforms_safe (s : jsstring) :
  tag_safe s = true -> tag_safe (inlineTransforms s) = true.
Proof.
  intros Hs. unfold inlineTransforms.
  apply (replace_g_tag_safe _ link_match_consuming link_match_start
           link_match_safe).
  apply (replace_g_tag_safe _ inline_code_match_consuming
           inline_code_match_start inline_code_match_safe).
  apply (replace_g_tag_safe _ italic_match_consuming italic_match_start
           italic_match_safe).
  apply (replace_g_tag_safe _ bold_match_consuming bold_match_start
           bold_match_safe).
  exact Hs.
Qed.

(** * Escaping *)

Lemma escapeHTML_flat_map (s : jsstring) :
  escapeHTML s = flat_map escape_char s.
Proof.
  unfold escapeHTML, replace_char.
  induction s as [|c s IH]; [reflexivity|].
  simpl. rewrite flat_map_app, IH. f_equal.
  unfold escape_char. destruct (N.eqb_spec c LT) as [->|Hl]; [reflexivity|].
  simpl. rewrite app_nil_r. reflexivity.
Qed.

Lemma escapeHTML_app (a b : jsstring) :
  escapeHTML (a ++ b) = escapeHTML a ++ escapeHTML b.
Proof. rewrite !escapeHTML_flat_map. apply flat_map_app. Qed.

Lemma escapeHTML_no_angle (s : jsstring) :
  Forall (fun c => c <> LT /\ c <> GT) (escapeHTML s).
Proof.
  rewrite escapeHTML_flat_map.
  induction s as [|c s IH]; [constructor|].
  simpl. apply Forall_app. split; [|assumption].
  unfold escape_char.
  destruct (N.eqb_spec c LT); [repeat constructor; discriminate|].
  destruct (N.eqb_spec c GT); [repeat constructor; discriminate|].
  repeat constructor; assumption.
Qed.

Lemma escapeHTML_safe (s : jsstring) : tag_safe (escapeHTML s) = true.
Proof.
  apply tag_safe_no_lt. eapply List.Forall_impl; [|apply escapeHTML_no_angle].
  simpl. tauto.
Qed.

(** Without [<] and [>] there is nothing to escape. *)
Lemma escapeHTML_id (s : jsstring) :
  Forall (fun c => c <> LT /\ c <> GT) s -> escapeHTML s = s.
Proof.
  rewrite escapeHTML_flat_map.
  induction 1 as [|c s [Hl Hg] _ IH]; [reflexivity|].
  simpl. rewrite IH. unfold escape_char.
  apply N.eqb_neq in Hl, Hg. now rewrite Hl, Hg.
Qed.

(** Escaping twice is escaping once. *)
Lemma escapeHTML_idempotent (s : jsstring) :
  escapeHTML (escapeHTML s) = escapeHTML s.
Proof. apply escapeHTML_id, escapeHTML_no_angle. Qed.

(** * Fence extraction *)

Lemma fence_match_consuming (s lang code rest : jsstring) :
  fence_match s = Some (lang, code, rest) -> (length rest < length s)%nat.
Proof.
  intros H. apply fence_match_spec in H as (-> & _).
  rewrite !length_app. simpl. lia.
Qed.

Lemma extract_from_enough (n k : nat) (phs : list jsstring) (s : jsstring) :
  (length s < n)%nat -> (length s < k)%nat ->
  extract_from n phs s = extract_from k phs s.
Proof.
  revert k phs s. induction n as [|n IH]; intros k phs s Hn Hk; [lia|].
  destruct k as [|k]; [lia|]. simpl.
  destruct (fence_match s) as [[[lang code] rest]|] eqn:Hs.
  - apply fence_match_consuming in Hs.
    rewrite (IH k) by lia. reflexivity.
  - destruct s as [|c t]; [reflexivity|]. simpl in *.
    rewrite (IH k) by lia. reflexivity.
Qed.

Lemma extract_blocks_unfold (phs : list jsstring) (s : jsstring) :
  extract_blocks phs s =
    match fence_match s with
    | Some (lang, code, rest) =>
        let phs' := phs ++ [code_block_markup lang (escapeHTML (trim code))] in
        (codeblock_token (length phs' - 1) ++ fst (extract_blocks phs' rest),
         snd (extract_blocks phs' rest))
    | None =>
        match s with
        | [] => ([], phs)
        | c :: t => (c :: fst (extract_blocks phs t),
                     snd (extract_blocks phs t))
        end
    end.
Proof.
  unfold extract_blocks at 1. simpl.
  destruct (fence_match s) as [[[lang code] rest]|] eqn:Hs.
  - apply fence_match_consuming in Hs.
    rewrite (extract_from_enough _ (S (length rest))) by lia.
    fold (extract_blocks
            (phs ++ [code_block_markup lang (escapeHTML (trim code))]) rest).
    now destruct (extract_blocks _ rest).
  - destruct s as [|c t]; [reflexivity|].
    rewrite (extract_from_enough _ (S (length t))) by (simpl; lia).
    fold (extract_blocks phs t). now destruct (extract_blocks phs t).
Qed.

Lemma extract_blocks_ind
    (P : list jsstring -> jsstring -> jsstring * list jsstring -> Prop) :
  (forall phs, P phs [] ([], phs)) ->
  (forall phs c t, fence_match (c :: t) = None ->
     P phs t (extract_blocks phs t) ->
     P phs (c :: t)
       (c :: fst (extract_blocks phs t), snd (extract_blocks phs t))) ->
  (forall phs s lang code rest, fence_match s = Some (lang, code, rest) ->
     let phs' := phs ++ [code_block_markup lang (escapeHTML (trim code))] in
     P phs' rest (extract_blocks phs' rest) ->
     P phs s
       (codeblock_token (length phs' - 1) ++ fst (extract_blocks phs' rest),
        snd (extract_blocks phs' rest))) ->
  forall phs s, P phs s (extract_blocks phs s).
Proof.
  intros Hnil Hcopy Hmatch phs s.
  remember (length s) as n eqn:Hn. revert phs s Hn.
  induction n as [n IH] using lt_wf_ind. intros phs s ->.
  rewrite extract_blocks_unfold.
  destruct (fence_match s) as [[[lang code] rest]|] eqn:Hs.
  - apply Hmatch; [assumption|]. eapply IH; [|reflexivity].
    now apply fence_match_consuming in Hs.
  - destruct s as [|c t]; [apply Hnil|].
    apply Hcopy; [assumption|]. eapply IH; [|reflexivity]. simpl; lia.
Qed.

Lemma is_word_not_lt (c : N) : is_word c = true -> c <> LT.
Proof. unfold is_word, LT. intros H. bool_to_prop H. lia. Qed.

Lemma code_block_markup_safe (lang code : jsstring) :
  Forall (fun c => is_word c = true) lang ->
  tag_safe (code_block_markup lang (escapeHTML code)) = true.
Proof.
  intros Hl. unfold code_block_markup.
  rewrite (app_assoc (lit "<pre><code class=")), (app_assoc _ (lit "language-")).
  repeat (apply tag_safe_app;
          [first [reflexivity | apply escapeHTML_safe | idtac]|]);
    [|reflexivity].
  destruct lang; [reflexivity|]. apply tag_safe_no_lt.
  eapply List.Forall_impl; [|exact Hl]. apply is_word_not_lt.
Qed.

Lemma extract_blocks_safe (phs : list jsstring) (s : jsstring) :
  Forall (fun p => tag_safe p = true) phs ->
  Forall (fun p => tag_safe p = true) (snd (extract_blocks phs s)).
Proof.
  apply (extract_blocks_ind (fun phs s res =>
    Forall (fun p => tag_safe p = true) phs ->
    Forall (fun p => tag_safe p = true) (snd res))); simpl; auto.
  intros phs' s' lang code rest Hm IH Hp. apply IH.
  apply Forall_app. split; [assumption|]. constructor; [|constructor].
  apply fence_match_spec in Hm as (_ & Hl). now apply code_block_markup_safe.
Qed.

(** Every [<] of the renderer's output opens one of its own tags. *)
Lemma parseMarkdown_tag_safe (text : jsstring) :
  tag_safe (parseMarkdown text) = true.
Proof.
  unfold parseMarkdown, extractCodeBlocks.
  pose proof (extract_blocks_safe [] text (List.Forall_nil _)) as Hp.
  destruct (extract_blocks [] text) as [processed phs]. simpl in Hp.
  apply (replace_g_tag_safe _ (restore_match_consuming phs)
           (restore_match_start phs)).
  - intros s r rest. now apply restore_match_safe.
  - apply inlineTransforms_safe, escapeHTML_safe.
Qed.

(** * Text that the passes keep

    A string without delimiter code units is never cut by a match: it lies
    in a capture, which the replacement copies, or in the text that the
    scan has still to see. *)

Lemma contains_split (delim : N -> bool) (w x : jsstring) (d : N)
    (y : jsstring) :
  Forall (fun c => delim c = false) w -> delim d = true ->
  contains w (x ++ d :: y) -> contains w x \/ contains w y.
Proof.
  intros Hw Hd (a & b & H).
  apply app_eq_app in H as (l & [[-> H]|[-> H]]).
  - left. apply app_eq_app in H as (l' & [[-> H]|[-> ->]]).
    + destruct l' as [|e l'].
      * rewrite app_nil_r. exists a, []. now rewrite app_nil_r.
      * injection H as <- _. apply Forall_app in Hw as [_ Hw].
        inversion Hw; congruence.
    + exists a, l'. rewrite <- ?app_assoc. reflexivity.
  - destruct l as [|e l].
    + simpl in H. destruct w as [|e w].
      * left. exists x, []. now rewrite app_nil_r.
      * injection H as <- _. inversion Hw; congruence.
    + injection H as _ ->. right. now exists l, b.
Qed.

Lemma contains_skip_delims (delim : N -> bool) (w x y : jsstring) :
  Forall (fun c => delim c = false) w -> w <> [] ->
  Forall (fun c => delim c = true) x ->
  contains w (x ++ y) -> contains w y.
Proof.
  intros Hw Hne Hx. induction Hx as [|d x Hd _ IH]; [auto|].
  intros H. apply (contains_split delim w [] d (x ++ y)) in H as [H|H];
    auto.
  apply contains_nil_inv in H. contradiction.
Qed.

Section ReplaceKeeps.

Variable m : matcher.
Variable delim : N -> bool.
Hypothesis m_consuming : consuming m.
Hypothesis m_start : forall c t, delim c = false -> m (c :: t) = None.
Hypothesis m_keeps : forall w s r rest,
  w <> [] -> Forall (fun c => delim c = false) w ->
  m s = Some (r, rest) -> contains w s ->
  contains w r \/ contains w rest.

Lemma replace_g_keeps (w s : jsstring) :
  w <> [] -> Forall (fun c => delim c = false) w ->
  contains w s -> contains w (replace_g m s).
Proof.
  intros Hne Hw.
  apply (replace_g_ind m (fun s out => contains w s -> contains w out));
    [assumption | | |].
  - intros _ H. apply contains_nil_inv in H. contradiction.
  - intros c t _ IH (a & b & H). destruct a as [|e a].
    + simpl in H. destruct w as [|e w]; [contradiction|].
      injection H as <- ->. inversion Hw; subst.
      rewrite (replace_g_skip m delim) by assumption.
      exists [], (replace_g m b). reflexivity.
    + injection H as <- ->. apply contains_cons, IH. now exists a, b.
  - intros s' r rest Hs IH H.
    destruct (m_keeps _ _ _ _ Hne Hw Hs H).
    + now apply contains_app_l.
    + now apply contains_app_r, IH.
Qed.

End ReplaceKeeps.

Ltac keep_in_capture :=
  left; unfold anchor_markup;
  repeat first [ assumption
               | apply contains_app_l; assumption
               | apply contains_app_r ].

Lemma inline_delim_start (m : matcher) (k : N) (p : jsstring) :
  inline_delim k = true ->
  (forall s, strip_prefix (k :: p) s = None -> m s = None) ->
  forall c t, inline_delim c = false -> m (c :: t) = None.
Proof.
  intros Hk Hm c t Hc. apply Hm, strip_prefix_head_ne. congruence.
Qed.

Lemma bold_match_keeps w s r rest :
  w <> [] -> Forall (fun c => inline_delim c = false) w ->
  bold_match s = Some (r, rest) -> contains w s ->
  contains w r \/ contains w rest.
Proof.
  intros Hne Hw H Hc. apply bold_match_spec in H as (cap & -> & ->).
  apply (contains_skip_delims inline_delim _ [STAR; STAR]) in Hc;
    [|assumption..|repeat constructor].
  apply (contains_split inline_delim) in Hc as [Hc|Hc]; auto.
  - keep_in_capture.
  - right. apply (contains_skip_delims inline_delim _ [STAR]) in Hc;
      [assumption..|repeat constructor].
Qed.

Lemma italic_match_keeps w s r rest :
  w <> [] -> Forall (fun c => inline_delim c = false) w ->
  italic_match s = Some (r, rest) -> contains w s ->
  contains w r \/ contains w rest.
Proof.
  intros Hne Hw H Hc. apply italic_match_spec in H as (cap & -> & ->).
  apply (contains_skip_delims inline_delim _ [STAR]) in Hc;
    [|assumption..|repeat constructor].
  apply (contains_split inline_delim) in Hc as [Hc|Hc]; auto.
  keep_in_capture.
Qed.

Lemma inline_code_match_keeps w s r rest :
  w <> [] -> Forall (fun c => inline_delim c = false) w ->
  inline_code_match s = Some (r, rest) -> contains w s ->
  contains w r \/ contains w rest.
Proof.
  intros Hne Hw H Hc. apply inline_code_match_spec in H as (cap & -> & ->).
  apply (contains_skip_delims inline_delim _ [BACKTICK]) in Hc;
    [|assumption..|repeat constructor].
  apply (contains_split inline_delim) in Hc as [Hc|Hc]; auto.
  keep_in_capture.
Qed.

Lemma link_match_keeps w s r rest :
  w <> [] -> Forall (fun c => inline_delim c = false) w ->
  link_match s = Some (r, rest) -> contains w s ->
  contains w r \/ contains w rest.
Proof.
  intros Hne Hw H Hc. apply link_match_spec in H as (txt & url & -> & ->).
  apply (contains_skip_delims inline_delim _ [LBRACKET]) in Hc;
    [|assumption..|repeat constructor].
  apply (contains_split inline_delim) in Hc as [Hc|Hc]; auto.
  - keep_in_capture.
  - apply (contains_skip_delims inline_delim _ [LPAREN]) in Hc;
      [|assumption..|repeat constructor].
    apply (contains_split inline_delim) in Hc as [Hc|Hc]; auto.
    keep_in_capture.
Qed.

Lemma inlineTransforms_keeps (w s : jsstring) :
  w <> [] -> Forall (fun c => inline_delim c = false) w ->
  contains w s -> contains w (inlineTransforms s).
Proof.
  intros Hne Hw H. unfold inlineTransforms.
  apply (replace_g_keeps link_match inline_delim); auto with render.
  { apply (inline_delim_start _ LBRACKET []); [reflexivity|].
    intros s' Hs'. unfold link_match. now rewrite Hs'. }
  { apply link_match_keeps. }
  apply (replace_g_keeps inline_code_match inline_delim); auto with render.
  { apply (inline_delim_start _ BACKTICK []); [reflexivity|].
    intros s' Hs'. unfold inline_code_match. now rewrite Hs'. }
  { apply inline_code_match_keeps. }
  apply (replace_g_keeps italic_match inline_delim); auto with render.
  { apply (inline_delim_start _ STAR []); [reflexivity|].
    intros s' Hs'. unfold italic_match. now rewrite Hs'. }
  { apply italic_match_keeps. }
  apply (replace_g_keeps bold_match inline_delim); auto with render.
  { apply (inline_delim_start _ STAR [STAR]); [reflexivity|].
    intros s' Hs'. unfold bold_match. now rewrite Hs'. }
  { apply bold_match_keeps. }
Qed.

Lemma restore_match_token_start phs c t :
  token_char c = false -> restore_match phs (c :: t) = None.
Proof.
  intros Hc. unfold restore_match.
  assert (strip_prefix (lit "__CODEBLOCK_") (c :: t) = None) as ->;
    [|reflexivity].
  apply strip_prefix_head_ne. intros <-. discriminate.
Qed.

Lemma is_digit_token_char (c : N) : is_digit c = true -> token_char c = true.
Proof. unfold token_char. intros ->. now rewrite orb_true_r. Qed.

Lemma restore_match_keeps phs w s r rest :
  w <> [] -> Forall (fun c => token_char c = false) w ->
  restore_match phs s = Some (r, rest) -> contains w s ->
  contains w r \/ contains w rest.
Proof.
  intros Hne Hw H Hc. right.
  apply restore_match_spec in H as (index & -> & _ & _ & Hd).
  rewrite !app_assoc in Hc.
  apply (contains_skip_delims token_char) in Hc; auto.
  repeat apply Forall_app_2; try (repeat constructor).
  eapply List.Forall_impl; [|exact Hd]. apply is_digit_token_char.
Qed.

Lemma restore_keeps (phs : list jsstring) (w s : jsstring) :
  w <> [] -> Forall (fun c => token_char c = false) w ->
  contains w s -> contains w (replace_g (restore_match phs) s).
Proof.
  intros Hne Hw.
  apply (replace_g_keeps (restore_match phs) token_char); auto with render.
  - apply restore_match_token_start.
  - apply restore_match_keeps.
Qed.

Lemma escapeHTML_contains (w s : jsstring) :
  contains w s -> contains (escapeHTML w) (escapeHTML s).
Proof.
  intros (a & b & ->). exists (escapeHTML a), (escapeHTML b).
  now rewrite !escapeHTML_app.
Qed.

(** * What fence extraction keeps *)

Lemma contains_Forall (P : N -> Prop) (w s : jsstring) :
  contains w s -> Forall P s -> Forall P w.
Proof.
  intros (a & b & ->) H. apply Forall_app in H as [_ H].
  now apply Forall_app in H as [H _].
Qed.

Lemma contains_rev (w s : jsstring) :
  contains w s -> contains (rev w) (rev s).
Proof.
  intros (a & b & ->). exists (rev b), (rev a).
  rewrite !rev_app_distr. now rewrite <- app_assoc.
Qed.

Lemma trim_start_keeps (w s : jsstring) :
  w <> [] -> Forall (fun c => is_trim_space c = false) w ->
  contains w s -> contains w (trim_start s).
Proof.
  intros Hne Hw. induction s as [|c t IH]; [auto|]. cbn [trim_start].
  destruct (is_trim_space c) eqn:Hc; [|auto].
  intros (a & b & H). destruct a as [|e a].
  - destruct w as [|e w]; [contradiction|]. injection H as <- _.
    inversion Hw as [|x l H1 H2]. rewrite Hc in H1. discriminate.
  - injection H as _ ->. apply IH. now exists a, b.
Qed.

Lemma trim_keeps (w s : jsstring) :
  w <> [] -> Forall (fun c => is_trim_space c = false) w ->
  contains w s -> contains w (trim s).
Proof.
  intros Hne Hw H. unfold trim. rewrite <- (rev_involutive w).
  apply contains_rev, trim_start_keeps.
  - intros Hr. apply (f_equal (@rev N)) in Hr.
    rewrite rev_involutive in Hr. contradiction.
  - now apply Forall_rev.
  - now apply contains_rev, trim_start_keeps.
Qed.

Lemma fence_match_not_backtick (c : N) (t : jsstring) :
  c <> BACKTICK -> fence_match (c :: t) = None.
Proof.
  intros Hc. unfold fence_match.
  assert (strip_prefix (lit "```") (c :: t) = None) as ->; [|reflexivity].
  apply strip_prefix_head_ne. intros <-. now apply Hc.
Qed.

(** Text without backticks in front of [b] is copied by the extraction. *)
Lemma extract_blocks_skip (phs : list jsstring) (a b : jsstring) :
  Forall (fun c => c <> BACKTICK) a ->
  extract_blocks phs (a ++ b)
  = (a ++ fst (extract_blocks phs b), snd (extract_blocks phs b)).
Proof.
  induction 1 as [|c a Hc _ IH]; simpl.
  - now destruct (extract_blocks phs b).
  - rewrite extract_blocks_unfold, fence_match_not_backtick by assumption.
    now rewrite IH.
Qed.

(** The extraction only appends to the list of placeholders. *)
Lemma extract_blocks_grows (phs : list jsstring) (s : jsstring) :
  exists more, snd (extract_blocks phs s) = phs ++ more.
Proof.
  apply (extract_blocks_ind (fun phs s res =>
    exists more, snd res = phs ++ more)); simpl.
  - intros phs'. exists []. now rewrite app_nil_r.
  - auto.
  - intros phs' s' lang code rest _ [more ->].
    eexists. rewrite <- app_assoc. reflexivity.
Qed.

Lemma fence_delim_not_backtick (c : N) :
  fence_delim c = false -> c <> BACKTICK.
Proof.
  unfold fence_delim. intros H ->. discriminate.
Qed.

(** A string that has no backtick and no white space, and whose first
    code unit is not a word character, is either left in the processed text
    or, escaped, in the markup of an extracted block. *)
Lemma extract_blocks_keeps (c0 : N) (w' : jsstring) :
  is_word c0 = false ->
  Forall (fun c => fence_delim c = false) (c0 :: w') ->
  forall phs s, contains (c0 :: w') s ->
    contains (c0 :: w') (fst (extract_blocks phs s))
    \/ Exists (contains (escapeHTML (c0 :: w'))) (snd (extract_blocks phs s)).
Proof.
  intros Hc0 Hw. set (w := c0 :: w') in *.
  assert (Hne : w <> []) by discriminate.
  apply (extract_blocks_ind (fun phs s res =>
    contains w s ->
    contains w (fst res) \/ Exists (contains (escapeHTML w)) (snd res)));
    cbn [fst snd].
  - intros phs H. apply contains_nil_inv in H. contradiction.
  - intros phs c t _ IH (a & b & H). destruct a as [|e a].
    + left. simpl in H. injection H as -> ->.
      rewrite extract_blocks_skip; simpl.
      * exists [], (fst (extract_blocks phs b)). reflexivity.
      * inversion Hw; subst. eapply List.Forall_impl; [|eassumption].
        apply fence_delim_not_backtick.
    + injection H as _ ->.
      destruct IH as [IH|IH]; [now exists a, b| |]; auto using contains_cons.
  - intros phs s lang code rest Hm IH H.
    apply fence_match_spec in Hm as (-> & Hl).
    apply (contains_skip_delims fence_delim) in H;
      [|assumption..|repeat constructor].
    apply (contains_split fence_delim) in H as [H|H]; auto.
    { apply contains_Forall with (P := fun c => is_word c = true) in H;
        [|assumption].
      inversion H; congruence. }
    apply (contains_split fence_delim) in H as [H|H]; auto.
    + right. destruct (extract_blocks_grows
        (phs ++ [code_block_markup lang (escapeHTML (trim code))]) rest)
        as [more ->].
      apply Exists_app. left. apply Exists_app. right. constructor.
      unfold code_block_markup.
      do 7 apply contains_app_r. apply contains_app_l.
      apply escapeHTML_contains, trim_keeps; auto.
      eapply List.Forall_impl; [|exact Hw]. simpl. intros c Hc.
      unfold fence_delim in Hc. now apply orb_false_iff in Hc as [_ Hc].
    + apply (contains_skip_delims fence_delim _ (lit "``")) in H;
        [|assumption..|repeat constructor].
      destruct (IH H) as [IH'|IH'];
        [left; apply contains_app_r; assumption | right; assumption].
Qed.

(** * A fenced block after plain prose *)

Lemma until_unfold (stop : jsstring) (ok : N -> bool) (s : jsstring) :
  until stop ok s =
    match strip_prefix stop s with
    | Some rest => Some ([], rest)
    | None =>
        match s with
        | [] => None
        | c :: t =>
            if ok c then
              match until stop ok t with
              | Some (cap, rest) => Some (c :: cap, rest)
              | None => None
              end
            else None
        end
    end.
Proof. destruct s; reflexivity. Qed.

Lemma until_complete (stop : jsstring) (ok : N -> bool) (k : N)
    (body rest : jsstring) :
  hd_error stop = Some k ->
  Forall (fun c => c <> k /\ ok c = true) body ->
  until stop ok (body ++ stop ++ rest) = Some (body, rest).
Proof.
  intros Hk Hb. destruct stop as [|k' stop]; [discriminate|].
  injection Hk as ->.
  induction Hb as [|c body [Hc Hok] _ IH]; rewrite until_unfold.
  - cbn [app]. change (k :: stop ++ rest) with ((k :: stop) ++ rest).
    now rewrite strip_prefix_app.
  - change ((c :: body) ++ (k :: stop) ++ rest)
      with (c :: (body ++ (k :: stop) ++ rest)).
    rewrite strip_prefix_head_ne by congruence.
    now rewrite Hok, IH.
Qed.

Lemma fence_match_complete (lang body post : jsstring) :
  Forall (fun c => is_word c = true) lang ->
  Forall (fun c => c <> BACKTICK) body ->
  fence_match (fenced lang body ++ post) = Some (lang, body, post).
Proof.
  intros Hl Hb. unfold fence_match, fenced.
  rewrite <- !app_assoc, strip_prefix_app.
  change ([NEWLINE] ++ body ++ lit "```" ++ post)
    with (NEWLINE :: (body ++ lit "```" ++ post)).
  rewrite span_app_stop by (assumption || reflexivity).
  change (NEWLINE :: (body ++ lit "```" ++ post))
    with ([NEWLINE] ++ (body ++ lit "```" ++ post)).
  rewrite strip_prefix_app.
  rewrite (until_complete _ _ BACKTICK); [reflexivity..|].
  eapply List.Forall_impl; [|exact Hb]. simpl. auto.
Qed.

Lemma plain_char_spec (c : N) :
  plain_char c = true ->
  c <> LT /\ c <> GT /\ inline_delim c = false /\ c <> UNDERSCORE.
Proof.
  unfold plain_char. rewrite negb_true_iff, !orb_false_iff, !N.eqb_neq.
  tauto.
Qed.

Lemma inline_delim_not_backtick (c : N) :
  inline_delim c = false -> c <> BACKTICK.
Proof. intros H ->. discriminate. Qed.

Lemma inlineTransforms_skip (a b : jsstring) :
  Forall (fun c => inline_delim c = false) a ->
  inlineTransforms (a ++ b) = a ++ inlineTransforms b.
Proof.
  intros Ha. unfold inlineTransforms.
  rewrite (replace_g_skip bold_match inline_delim); auto with render.
  2:{ apply (inline_delim_start _ STAR [STAR]); [reflexivity|].
      intros s' Hs'. unfold bold_match. now rewrite Hs'. }
  rewrite (replace_g_skip italic_match inline_delim); auto with render.
  2:{ apply (inline_delim_start _ STAR []); [reflexivity|].
      intros s' Hs'. unfold italic_match. now rewrite Hs'. }
  rewrite (replace_g_skip inline_code_match inline_delim); auto with render.
  2:{ apply (inline_delim_start _ BACKTICK []); [reflexivity|].
      intros s' Hs'. unfold inline_code_match. now rewrite Hs'. }
  rewrite (replace_g_skip link_match inline_delim); auto with render.
  apply (inline_delim_start _ LBRACKET []); [reflexivity|].
  intros s' Hs'. unfold link_match. now rewrite Hs'.
Qed.

Lemma restore_skip (phs : list jsstring) (a b : jsstring) :
  Forall (fun c => c <> UNDERSCORE) a ->
  replace_g (restore_match phs) (a ++ b)
  = a ++ replace_g (restore_match phs) b.
Proof.
  intros Ha.
  apply (replace_g_skip _ (fun c => c =? UNDERSCORE)); auto with render.
  - intros c t Hc. unfold restore_match.
    assert (strip_prefix (lit "__CODEBLOCK_") (c :: t) = None) as ->;
      [|reflexivity].
    apply strip_prefix_head_ne. intros <-. discriminate.
  - eapply List.Forall_impl; [|exact Ha]. intros c. apply N.eqb_neq.
Qed.

(** The restore pass replaces a token at the front of the text. *)
Lemma restore_token (phs : list jsstring) (index rest : jsstring) :
  index <> [] -> Forall (fun c => is_digit c = true) index ->
  replace_g (restore_match phs)
    (lit "__CODEBLOCK_" ++ index ++ [UNDERSCORE; UNDERSCORE] ++ rest)
  = placeholder_at phs index ++ replace_g (restore_match phs) rest.
Proof.
  intros Hne Hd. rewrite replace_g_unfold by auto with render.
  now rewrite restore_match_token.
Qed.

(** The first fenced block of a text that starts with plain prose is
    rendered in place as its code-block markup. *)
Lemma parseMarkdown_first_fence (pre lang body post : jsstring) :
  Forall (fun c => plain_char c = true) pre ->
  Forall (fun c => is_word c = true) lang ->
  Forall (fun c => c <> BACKTICK) body ->
  exists tail,
    parseMarkdown (pre ++ fenced lang body ++ post)
    = pre ++ code_block_markup lang (escapeHTML (trim body)) ++ tail.
Proof.
  intros Hpre Hl Hb.
  assert (Hp : Forall (fun c => c <> LT /\ c <> GT
                        /\ inline_delim c = false /\ c <> UNDERSCORE) pre).
  { eapply List.Forall_impl; [|exact Hpre]. apply plain_char_spec. }
  unfold parseMarkdown, extractCodeBlocks.
  rewrite extract_blocks_skip.
  2:{ eapply List.Forall_impl; [|exact Hp]. simpl.
      intros c (_ & _ & H & _). now apply inline_delim_not_backtick. }
  rewrite extract_blocks_unfold, fence_match_complete by assumption.
  cbn zeta. cbn [app length Nat.sub fst snd].
  set (markup := code_block_markup lang (escapeHTML (trim body))).
  destruct (extract_blocks_grows [markup] post) as [more Hmore].
  destruct (extract_blocks [markup] post) as [out phs]. cbn [fst snd] in *.
  subst phs. rewrite !escapeHTML_app.
  rewrite (escapeHTML_id pre)
    by (eapply List.Forall_impl; [|exact Hp]; simpl; tauto).
  rewrite (escapeHTML_id (codeblock_token 0))
    by (repeat constructor; intros H; vm_compute in H; discriminate H).
  rewrite app_assoc, inlineTransforms_skip.
  2:{ apply Forall_app_2; [|repeat constructor].
      eapply List.Forall_impl; [|exact Hp]. simpl. tauto. }
  rewrite <- app_assoc, restore_skip
    by (eapply List.Forall_impl; [|exact Hp]; simpl; tauto).
  change (codeblock_token 0)
    with (lit "__CODEBLOCK_" ++ [48] ++ [UNDERSCORE; UNDERSCORE]).
  rewrite <- !app_assoc, restore_token
    by first [discriminate | repeat constructor].
  eexists. reflexivity.
Qed.

(** * The restore pass around a token *)

Lemma digits_before_prefix_spec (u' ds : jsstring) :
  ds <> [] -> Forall (fun c => is_digit c = true) ds ->
  digits_before_prefix (rev (u' ++ lit "__CODEBLOCK_" ++ ds)) = true.
Proof.
  intros Hne Hd. unfold digits_before_prefix.
  rewrite !rev_app_distr, <- app_assoc.
  change (rev (lit "__CODEBLOCK_") ++ rev u')
    with (UNDERSCORE :: (rev (lit "__CODEBLOCK") ++ rev u')).
  rewrite span_app_stop by (try apply Forall_rev; assumption || reflexivity).
  change (UNDERSCORE :: (rev (lit "__CODEBLOCK") ++ rev u'))
    with (rev (lit "__CODEBLOCK_") ++ rev u').
  rewrite strip_prefix_app.
  destruct (rev ds) eqn:Hr; [|reflexivity].
  apply (f_equal (@rev N)) in Hr. rewrite rev_involutive in Hr.
  contradiction.
Qed.

Lemma ends_in_partial_token_digits (u' ds : jsstring) :
  ds <> [] -> Forall (fun c => is_digit c = true) ds ->
  ends_in_partial_token (u' ++ lit "__CODEBLOCK_" ++ ds) = true.
Proof.
  intros Hne Hd. unfold ends_in_partial_token.
  now rewrite digits_before_prefix_spec.
Qed.

Lemma ends_in_partial_token_underscore (u' ds : jsstring) :
  ds <> [] -> Forall (fun c => is_digit c = true) ds ->
  ends_in_partial_token (u' ++ lit "__CODEBLOCK_" ++ ds ++ [UNDERSCORE])
  = true.
Proof.
  intros Hne Hd. unfold ends_in_partial_token.
  rewrite !app_assoc, rev_unit, <- !app_assoc.
  rewrite N.eqb_refl, digits_before_prefix_spec by assumption.
  apply orb_true_r.
Qed.

Lemma ends_in_partial_token_suffix (a b : jsstring) :
  ends_in_partial_token (a ++ b) = false -> b <> [] ->
  ends_in_partial_token b = false.
Proof.
  intros H Hb. destruct (ends_in_partial_token b) eqn:Hp; [|reflexivity].
  rewrite <- H. symmetry. clear H. unfold ends_in_partial_token in *.
  rewrite rev_app_distr.
  destruct (rev b) as [|c r] eqn:Hr.
  { apply (f_equal (@rev N)) in Hr. rewrite rev_involutive in Hr.
    contradiction. }
  assert (Hd : forall x y, digits_before_prefix x = true ->
                           digits_before_prefix (x ++ y) = true).
  { clear. intros x y. unfold digits_before_prefix.
    destruct (span is_digit x) as [ds r'] eqn:Hs.
    destruct ds as [|d ds]; [discriminate|].
    destruct (strip_prefix _ r') as [r2|] eqn:Hp; [|discriminate].
    intros _. apply span_spec in Hs as (-> & Hds & Hr').
    apply strip_prefix_Some in Hp. subst r'.
    rewrite <- !app_assoc.
    change (rev (lit "__CODEBLOCK_") ++ r2 ++ y)
      with (UNDERSCORE :: (rev (lit "__CODEBLOCK") ++ r2 ++ y)).
    rewrite span_app_stop by (assumption || reflexivity).
    change (UNDERSCORE :: (rev (lit "__CODEBLOCK") ++ r2 ++ y))
      with (rev (lit "__CODEBLOCK_") ++ (r2 ++ y)).
    now rewrite strip_prefix_app. }
  cbn [app]. apply orb_true_iff in Hp as [Hp|Hp].
  - change (c :: r ++ rev a) with ((c :: r) ++ rev a).
    now rewrite Hd.
  - apply andb_true_iff in Hp as [-> Hp]. rewrite (Hd _ _ Hp).
    apply orb_true_r.
Qed.

Lemma lit_codeblock :
  lit "__CODEBLOCK_" = [95; 95; 67; 79; 68; 69; 66; 76; 79; 67; 75; 95].
Proof. reflexivity. Qed.

(** A match of the placeholder pattern that starts in [u] ends in [u],
    unless [u] ends with the beginning of a token: it cannot reach into a
    token that follows [u]. *)
Lemma restore_match_no_straddle (phs : list jsstring)
    (u index v r rest : jsstring) :
  u <> [] -> ends_in_partial_token u = false ->
  restore_match phs
    (u ++ lit "__CODEBLOCK_" ++ index ++ [UNDERSCORE; UNDERSCORE] ++ v)
  = Some (r, rest) ->
  exists rest',
    rest = rest' ++ lit "__CODEBLOCK_" ++ index ++ [UNDERSCORE; UNDERSCORE] ++ v
    /\ restore_match phs u = Some (r, rest').
Proof.
  intros Hu Hend Hm.
  apply restore_match_spec in Hm as (ds & H & -> & Hne & Hd).
  rewrite !(app_assoc _ _ rest) in H.
  apply app_eq_app in H as (l & [[-> H]|[H1 H2]]).
  { exists l. split; [assumption|].
    rewrite <- !app_assoc. now apply restore_match_token. }
  destruct l as [|c l].
  { rewrite app_nil_r in H1. subst u. exists []. split; [now symmetry|].
    rewrite <- (app_nil_r (_ ++ [UNDERSCORE; UNDERSCORE])), <- !app_assoc.
    now apply restore_match_token. }
  exfalso. rewrite lit_codeblock in H1, H2.
  cbn [app] in H2. injection H2 as <- H2.
  apply app_eq_app in H1 as (l2 & [[H1 H3]|[-> H1]]).
  - (* [u] ends inside the literal of the pattern *)
    do 12 (destruct u as [|? u];
           [ try contradiction; cbn [app] in H1; subst l2;
             try discriminate H3;
             try (injection H3 as H3; subst l; cbn [app] in H2;
                  discriminate H2)
           | injection H1 as _ H1 ]).
    + injection H3 as H3. subst l. destruct ds as [|d ds]; [contradiction|].
      cbn [app] in H2. injection H2 as <- _. inversion Hd; discriminate.
    + destruct u; [|discriminate H1]. cbn [app] in H1. subst l2.
      destruct ds as [|d ds]; [contradiction|].
      cbn [app] in H3. injection H3 as <- _. inversion Hd; discriminate.
  - (* [u] reaches past the literal of the pattern *)
    rewrite <- lit_codeblock in Hend.
    apply app_eq_app in H1 as (l3 & [[-> H1]|[-> H1]]).
    + destruct l3 as [|d l3].
      * rewrite app_nil_r in Hne, Hd.
        pose proof (ends_in_partial_token_digits [] l2 Hne Hd) as E.
        change (ends_in_partial_token (lit "__CODEBLOCK_" ++ l2) = true) in E.
        congruence.
      * injection H1 as <- _. apply Forall_app in Hd as [_ Hd].
        inversion Hd; discriminate.
    + destruct l3 as [|d [|d' l3]].
      * rewrite app_nil_r in Hend.
        pose proof (ends_in_partial_token_digits [] ds Hne Hd) as E.
        change (ends_in_partial_token (lit "__CODEBLOCK_" ++ ds) = true) in E.
        congruence.
      * injection H1 as <- _.
        pose proof (ends_in_partial_token_underscore [] ds Hne Hd) as E.
        change (ends_in_partial_token
                  (lit "__CODEBLOCK_" ++ ds ++ [UNDERSCORE]) = true) in E.
        congruence.
      * injection H1 as _ _ H1. destruct l3; discriminate.
Qed.

Lemma ends_in_partial_token_tail (a b : jsstring) :
  ends_in_partial_token (a ++ b) = false -> ends_in_partial_token b = false.
Proof.
  intros H. destruct b as [|c b]; [reflexivity|].
  eapply ends_in_partial_token_suffix; [exact H | discriminate].
Qed.

(** The scan of the restore pass reaches the start of a token whenever the
    text in front of it does not end with the beginning of a token. *)
Lemma restore_before_token (phs : list jsstring) (index v u : jsstring) :
  ends_in_partial_token u = false ->
  replace_g (restore_match phs)
    (u ++ lit "__CODEBLOCK_" ++ index ++ [UNDERSCORE; UNDERSCORE] ++ v)
  = replace_g (restore_match phs) u
    ++ replace_g (restore_match phs)
         (lit "__CODEBLOCK_" ++ index ++ [UNDERSCORE; UNDERSCORE] ++ v).
Proof.
  set (w := lit "__CODEBLOCK_" ++ index ++ [UNDERSCORE; UNDERSCORE] ++ v).
  revert u.
  apply (replace_g_ind (restore_match phs) (fun u out =>
    ends_in_partial_token u = false ->
    replace_g (restore_match phs) (u ++ w)
    = out ++ replace_g (restore_match phs) w)); auto with render.
  - intros c t Hnone IH Hend.
    change ((c :: t) ++ w) with (c :: (t ++ w)).
    rewrite replace_g_unfold by auto with render.
    destruct (restore_match phs (c :: t ++ w)) as [[r rest]|] eqn:Hm.
    + apply (restore_match_no_straddle phs (c :: t)) in Hm
        as (rest' & _ & Hm); [congruence | discriminate | assumption].
    + cbn [app]. f_equal. apply IH.
      now apply (ends_in_partial_token_tail [c]).
  - intros u r rest Hm IH Hend.
    apply restore_match_spec in Hm as (ds & -> & -> & Hne & Hd).
    rewrite <- !app_assoc. rewrite replace_g_unfold by auto with render.
    rewrite restore_match_token by assumption.
    f_equal. apply IH.
    rewrite !app_assoc in Hend.
    now apply ends_in_partial_token_tail in Hend.
Qed.

Lemma ends_in_partial_token_ordinary (a : jsstring) (c : N) :
  is_digit c = false -> c <> UNDERSCORE ->
  ends_in_partial_token (a ++ [c]) = false.
Proof.
  intros Hd Hu. unfold ends_in_partial_token. rewrite rev_unit.
  apply N.eqb_neq in Hu. rewrite Hu. cbn [andb]. rewrite orb_false_r.
  unfold digits_before_prefix. cbn [span]. now rewrite Hd.
Qed.

(** A code unit that no token holds is copied by the restore pass, and so
    is its place after the text in front of it. *)
Lemma restore_before_ordinary (phs : list jsstring) (c : N) (a : jsstring) :
  token_char c = false ->
  replace_g (restore_match phs) (a ++ [c])
  = replace_g (restore_match phs) a ++ [c].
Proof.
  intros Hc. revert a.
  assert (Hone : replace_g (restore_match phs) [c] = [c]).
  { rewrite replace_g_unfold, restore_match_token_start by auto with render.
    reflexivity. }
  apply (replace_g_ind (restore_match phs) (fun a out =>
    replace_g (restore_match phs) (a ++ [c]) = out ++ [c]));
    auto with render.
  - intros x t Hnone IH. change ((x :: t) ++ [c]) with (x :: (t ++ [c])).
    rewrite replace_g_unfold by auto with render.
    destruct (restore_match phs (x :: t ++ [c])) as [[r rest]|] eqn:Hm.
    + exfalso. apply restore_match_spec in Hm as (ds & H & -> & Hne & Hd).
      destruct (exists_last (l := rest)) as (rest' & z & ->).
      * intros ->. rewrite app_nil_r in H.
        change (x :: t ++ [c]) with ((x :: t) ++ [c]) in H.
        rewrite !app_assoc in H.
        change [UNDERSCORE; UNDERSCORE] with ([UNDERSCORE] ++ [UNDERSCORE])
          in H.
        rewrite app_assoc in H. apply app_inj_tail in H as [_ ->].
        discriminate Hc.
      * change (x :: t ++ [c]) with ((x :: t) ++ [c]) in H.
        rewrite !app_assoc in H. apply app_inj_tail in H as [H _].
        rewrite <- !app_assoc in H. rewrite H in Hnone.
        rewrite restore_match_token in Hnone by assumption. discriminate.
    + cbn [app]. now rewrite IH.
  - intros a r rest Hm IH.
    apply restore_match_spec in Hm as (ds & -> & -> & Hne & Hd).
    rewrite <- !app_assoc. rewrite replace_g_unfold by auto with render.
    rewrite restore_match_token by assumption. now rewrite IH.
Qed.

(** * Decimal numerals of the block indices *)

Lemma size_nat_gt (n : N) : n < 2 ^ N.of_nat (N.size_nat n).
Proof.
  destruct n as [|p]; [reflexivity|]. simpl N.size_nat.
  induction p as [p IH|p IH|]; cbn [Pos.size_nat].
  - rewrite Nat2N.inj_succ, N.pow_succ_r by lia. lia.
  - rewrite Nat2N.inj_succ, N.pow_succ_r by lia. lia.
  - reflexivity.
Qed.

Lemma to_digits_app (fuel : nat) (n : N) (acc : jsstring) :
  to_digits fuel n acc = to_digits fuel n [] ++ acc.
Proof.
  revert n acc. induction fuel as [|fuel IH]; intros n acc; [reflexivity|].
  cbn [to_digits]. destruct (n / 10 =? 0); [reflexivity|].
  rewrite IH, (IH _ [_]). now rewrite <- app_assoc.
Qed.

Lemma to_digits_unfold (fuel : nat) (n : N) :
  to_digits (S fuel) n []
  = (if n / 10 =? 0 then [] else to_digits fuel (n / 10) [])
    ++ [48 + n mod 10].
Proof.
  cbn [to_digits]. destruct (n / 10 =? 0); [reflexivity|].
  apply to_digits_app.
Qed.

Lemma to_digits_digits (fuel : nat) (n : N) :
  Forall (fun c => is_digit c = true) (to_digits fuel n []).
Proof.
  revert n. induction fuel as [|fuel IH]; intros n; [constructor|].
  rewrite to_digits_unfold. apply Forall_app. split.
  - destruct (n / 10 =? 0); [constructor | apply IH].
  - constructor; [|constructor]. unfold is_digit.
    pose proof (N.mod_upper_bound n 10 ltac:(lia)) as Hm.
    revert Hm. generalize (n mod 10). intros r Hm.
    apply andb_true_iff. split; apply N.leb_le; lia.
Qed.

Lemma parseInt_snoc (ds : jsstring) (d : N) :
  parseInt (ds ++ [d]) = (10 * parseInt ds + N.to_nat (d - 48))%nat.
Proof. unfold parseInt. now rewrite fold_left_app. Qed.

Lemma parseInt_to_digits (fuel : nat) (n : N) :
  n < 2 ^ N.of_nat fuel -> (0 < fuel)%nat ->
  parseInt (to_digits fuel n []) = N.to_nat n.
Proof.
  revert n. induction fuel as [|fuel IH]; intros n Hn Hf; [lia|].
  rewrite to_digits_unfold, parseInt_snoc.
  pose proof (N.mod_upper_bound n 10 ltac:(lia)) as Hm.
  pose proof (N.div_mod n 10 ltac:(lia)) as Hdm.
  specialize (IH (n / 10)).
  revert Hm Hdm IH. generalize (n mod 10) (n / 10). intros r q Hm Hdm IH.
  destruct (N.eqb_spec q 0) as [H0|H0].
  - change (parseInt []) with 0%nat. lia.
  - rewrite Nat2N.inj_succ, N.pow_succ_r in Hn by lia.
    rewrite IH; [lia|lia|].
    destruct fuel; [|lia]. simpl in Hn. lia.
Qed.

Lemma number_to_string_digits (n : N) :
  number_to_string n <> []
  /\ Forall (fun c => is_digit c = true) (number_to_string n).
Proof.
  split; [|apply to_digits_digits].
  unfold number_to_string. rewrite to_digits_unfold.
  destruct (_ =? _); [discriminate|]. now destruct (to_digits _ _ _).
Qed.

Lemma parseInt_number_to_string (n : N) :
  parseInt (number_to_string n) = N.to_nat n.
Proof.
  apply parseInt_to_digits; [|lia].
  rewrite Nat2N.inj_succ, N.pow_succ_r by lia.
  pose proof (size_nat_gt n). lia.
Qed.

Lemma placeholder_at_number (phs : list jsstring) (k : nat) :
  placeholder_at phs (number_to_string (N.of_nat k))
  = match nth_error phs k with
    | Some p => p
    | None => lit "undefined"
    end.
Proof.
  unfold placeholder_at. now rewrite parseInt_number_to_string, Nat2N.id.
Qed.

(** * Minted tokens and the text between them *)

Lemma contains_trans (w s t : jsstring) :
  contains w s -> contains s t -> contains w t.
Proof.
  intros (a & b & ->) (c & d & ->). exists (c ++ a), (b ++ d).
  now rewrite <- !app_assoc.
Qed.

Lemma token_free_sub (x a y : jsstring) :
  token_free (x ++ a ++ y) -> token_free a.
Proof.
  intros H Ha. apply H.
  eapply contains_trans; [exact Ha|]. now exists x, y.
Qed.

Lemma token_free_prefix (a y : jsstring) : token_free (a ++ y) -> token_free a.
Proof. apply (token_free_sub []). Qed.

Lemma token_free_suffix (x a : jsstring) : token_free (x ++ a) -> token_free a.
Proof.
  intros H. apply (token_free_sub x a []). now rewrite app_nil_r.
Qed.

Lemma token_free_cut (a : jsstring) (d : N) (b : jsstring) :
  prefix_char d = false ->
  token_free a -> token_free b -> token_free (a ++ d :: b).
Proof.
  intros Hd Ha Hb H.
  apply (contains_split (fun c => negb (prefix_char c))) in H as [H|H]; auto.
  - repeat constructor.
  - now rewrite Hd.
Qed.

Lemma separator_spec (l : jsstring) :
  separator l = true ->
  token_free l
  /\ (exists d l', l = d :: l' /\ prefix_char d = false)
  /\ (exists l' d, l = l' ++ [d] /\ prefix_char d = false).
Proof.
  unfold separator. intros H.
  apply andb_true_iff in H as [H Hlast]. apply andb_true_iff in H as [Hfree Hfirst].
  split; [|split].
  - intros Hc. apply containsb_spec in Hc. rewrite Hc in Hfree. discriminate.
  - destruct l as [|d l']; [discriminate|]. exists d, l'.
    now apply negb_true_iff in Hfirst.
  - destruct (rev l) as [|d r] eqn:Hr; [discriminate|].
    exists (rev r), d. apply negb_true_iff in Hlast. split; [|assumption].
    rewrite <- (rev_involutive l), Hr. reflexivity.
Qed.

(** Two texts without [__CODEBLOCK_] joined by a separator hold none. *)
Lemma token_free_join (a l b : jsstring) :
  separator l = true ->
  token_free a -> token_free b -> token_free (a ++ l ++ b).
Proof.
  intros Hl Ha Hb.
  apply separator_spec in Hl as (Hfree & (d & l' & -> & Hd) & (l2 & e & Heq & He)).
  cbn [app]. intros H.
  apply (contains_split (fun c => negb (prefix_char c))) in H as [H|H];
    [auto | | repeat constructor | now rewrite Hd].
  destruct l2 as [|d2 l2].
  - injection Heq as _ ->. auto.
  - injection Heq as _ ->. rewrite <- app_assoc in H. cbn [app] in H.
    apply (contains_split (fun c => negb (prefix_char c))) in H as [H|H];
      [ | auto | repeat constructor | now rewrite He].
    apply Hfree. apply contains_cons. now apply contains_app_l.
Qed.

Lemma tokenized_nil (ks : list nat) : tokenized ks [] -> ks = [].
Proof.
  inversion 1 as [|a k ks' rest _ _ Hk Heq]; [reflexivity|].
  exfalso. destruct a; discriminate.
Qed.

Lemma codeblock_token_token_chars (k : nat) :
  Forall (fun c => token_char c = true) (codeblock_token k).
Proof.
  unfold codeblock_token. repeat apply Forall_app_2; try (repeat constructor).
  eapply List.Forall_impl; [|apply number_to_string_digits].
  apply is_digit_token_char.
Qed.

(** Cutting tokenized text at a code unit that no token holds leaves two
    tokenized texts. *)
Lemma tokenized_split (ks : list nat) (x : jsstring) (d : N) (y : jsstring) :
  token_char d = false ->
  tokenized ks (x ++ d :: y) ->
  exists ks1 ks2, ks = ks1 ++ ks2 /\ tokenized ks1 x /\ tokenized ks2 y.
Proof.
  intros Hd H. remember (x ++ d :: y) as s eqn:Hs. revert x Hs.
  induction H as [a Ha|a k ks rest Ha Hrest IH]; intros x Hs.
  - subst a. exists [], []. split; [reflexivity|].
    split; constructor.
    + now apply token_free_prefix in Ha.
    + now apply (token_free_suffix (x ++ [d])); rewrite <- app_assoc.
  - apply app_eq_app in Hs as (l & [[-> Hs]|[-> Hs]]).
    + (* the cut is in the text in front of the token *)
      destruct l as [|e l].
      * exfalso. simpl in Hs. injection Hs as -> _. discriminate Hd.
      * injection Hs as <- ->. exists [], (k :: ks). split; [reflexivity|].
        split.
        -- constructor. now apply token_free_prefix in Ha.
        -- constructor; [|assumption].
           now apply (token_free_suffix (x ++ [d])); rewrite <- app_assoc.
    + (* the cut is after the token *)
      apply app_eq_app in Hs as (l2 & [[Hl Hs]|[-> Hs]]).
      * destruct l2 as [|e l2].
        -- rewrite app_nil_r in Hl. subst l. simpl in Hs. symmetry in Hs.
           destruct (IH [] Hs) as (ks1 & ks2 & -> & H1 & H2).
           exists (k :: ks1), ks2. split; [reflexivity|].
           split; [|assumption].
           replace (a ++ codeblock_token k)
             with (a ++ codeblock_token k ++ []) by now rewrite app_nil_r.
           now constructor.
        -- exfalso. injection Hs as <- _.
           pose proof (codeblock_token_token_chars k) as Hk.
           rewrite Hl in Hk. apply Forall_app in Hk as [_ Hk].
           inversion Hk; congruence.
      * destruct (IH l2 Hs) as (ks1 & ks2 & -> & H1 & H2).
        exists (k :: ks1), ks2. split; [reflexivity|].
        split; [now constructor | assumption].
Qed.

(** Tokenized texts joined by a separator are tokenized. *)
Lemma tokenized_join (ks1 ks2 : list nat) (x l y : jsstring) :
  separator l = true ->
  tokenized ks1 x -> tokenized ks2 y -> tokenized (ks1 ++ ks2) (x ++ l ++ y).
Proof.
  intros Hl Hx Hy. induction Hx as [a Ha|a k ks rest Ha Hrest IH].
  - destruct Hy as [b Hb|b k ks rest Hb Hrest]; cbn [app].
    + constructor. now apply token_free_join.
    + replace (a ++ l ++ b ++ codeblock_token k ++ rest)
        with ((a ++ l ++ b) ++ codeblock_token k ++ rest)
        by now rewrite <- !app_assoc.
      constructor; [|assumption]. now apply token_free_join.
  - rewrite <- !app_assoc. cbn [app]. now constructor.
Qed.

Lemma tokenized_front (ks : list nat) (l y : jsstring) :
  separator l = true -> tokenized ks y -> tokenized ks (l ++ y).
Proof.
  intros Hl Hy.
  apply (tokenized_join [] ks [] l y Hl); [|assumption].
  constructor. intros H. apply contains_nil_inv in H. discriminate.
Qed.

Lemma tokenized_back (ks : list nat) (x l : jsstring) :
  separator l = true -> tokenized ks x -> tokenized ks (x ++ l).
Proof.
  intros Hl Hx.
  pose proof (tokenized_join ks [] x l [] Hl Hx) as H.
  rewrite !app_nil_r in H. apply H.
  constructor. intros Hc. apply contains_nil_inv in Hc. discriminate.
Qed.

Section ReplaceTokenized.

Variable m : matcher.
Hypothesis m_consuming : consuming m.
Hypothesis m_tokenized : forall s r rest,
  m s = Some (r, rest) ->
  forall x ks, tokenized ks (x ++ s) ->
  exists ks1 ks2,
    (forall k, In k ks -> In k ks1 \/ In k ks2)
    /\ tokenized ks2 rest
    /\ (forall y ks2', tokenized ks2' y -> tokenized (ks1 ++ ks2') (x ++ r ++ y)).

(** A pass whose matches cut the text at code units outside the tokens,
    and write separators there, keeps the text tokenized and loses no
    token. *)
Lemma replace_g_tokenized (s x : jsstring) (ks : list nat) :
  tokenized ks (x ++ s) ->
  exists ks', tokenized ks' (x ++ replace_g m s)
              /\ forall k, In k ks -> In k ks'.
Proof.
  revert x ks.
  apply (replace_g_ind m (fun s out => forall x ks,
    tokenized ks (x ++ s) ->
    exists ks', tokenized ks' (x ++ out) /\ forall k, In k ks -> In k ks'));
    [assumption | | |].
  - intros _ x ks H. now exists ks.
  - intros c t _ IH x ks H.
    change (x ++ c :: t) with (x ++ [c] ++ t) in H. rewrite app_assoc in H.
    destruct (IH _ _ H) as (ks' & H' & Hin). exists ks'.
    rewrite <- app_assoc in H'. now split.
  - intros s' r rest Hm IH x ks H.
    destruct (m_tokenized _ _ _ Hm x ks H) as (ks1 & ks2 & Hin & Hrest & Hjoin).
    destruct (IH [] ks2 Hrest) as (ks2' & Hout & Hin2).
    exists (ks1 ++ ks2'). split; [now apply Hjoin|].
    intros k Hk. apply in_or_app. destruct (Hin k Hk); auto.
Qed.

End ReplaceTokenized.

Tactic Notation "cut_at" hyp(H) constr(x)
    "as" ident(ka) ident(kb) ident(Ha) :=
  apply (tokenized_split _ x) in H as (ka & kb & -> & Ha & H);
  [|reflexivity].

Ltac members :=
  let k := fresh "k" in
  let Hk := fresh "Hk" in
  intros k Hk; rewrite ?in_app_iff in *; cbn [In] in *; tauto.

Lemma bold_match_tokenized s r rest :
  bold_match s = Some (r, rest) ->
  forall x ks, tokenized ks (x ++ s) ->
  exists ks1 ks2,
    (forall k, In k ks -> In k ks1 \/ In k ks2)
    /\ tokenized ks2 rest
    /\ (forall y ks2', tokenized ks2' y -> tokenized (ks1 ++ ks2') (x ++ r ++ y)).
Proof.
  intros H x ks Hx. apply bold_match_spec in H as (cap & -> & ->).
  cbn [app] in Hx.
  cut_at Hx x as k1 k2 Hx1. cut_at Hx (@nil N) as k3 k4 Hx2.
  cut_at Hx cap as k5 k6 Hcap. cut_at Hx (@nil N) as k7 k8 Hx3.
  apply tokenized_nil in Hx2 as ->. apply tokenized_nil in Hx3 as ->.
  exists (k1 ++ k5), k8. split; [members|]. split; [assumption|].
  intros y ks' Hy. rewrite <- !app_assoc.
  apply tokenized_join; [reflexivity | assumption|].
  apply tokenized_join; [reflexivity | assumption | assumption].
Qed.

Lemma italic_match_tokenized s r rest :
  italic_match s = Some (r, rest) ->
  forall x ks, tokenized ks (x ++ s) ->
  exists ks1 ks2,
    (forall k, In k ks -> In k ks1 \/ In k ks2)
    /\ tokenized ks2 rest
    /\ (forall y ks2', tokenized ks2' y -> tokenized (ks1 ++ ks2') (x ++ r ++ y)).
Proof.
  intros H x ks Hx. apply italic_match_spec in H as (cap & -> & ->).
  cbn [app] in Hx.
  cut_at Hx x as k1 k2 Hx1. cut_at Hx cap as k3 k4 Hcap.
  exists (k1 ++ k3), k4. split; [members|]. split; [assumption|].
  intros y ks' Hy. rewrite <- !app_assoc.
  apply tokenized_join; [reflexivity | assumption|].
  apply tokenized_join; [reflexivity | assumption | assumption].
Qed.

Lemma inline_code_match_tokenized s r rest :
  inline_code_match s = Some (r, rest) ->
  forall x ks, tokenized ks (x ++ s) ->
  exists ks1 ks2,
    (forall k, In k ks -> In k ks1 \/ In k ks2)
    /\ tokenized ks2 rest
    /\ (forall y ks2', tokenized ks2' y -> tokenized (ks1 ++ ks2') (x ++ r ++ y)).
Proof.
  intros H x ks Hx. apply inline_code_match_spec in H as (cap & -> & ->).
  cbn [app] in Hx.
  cut_at Hx x as k1 k2 Hx1. cut_at Hx cap as k3 k4 Hcap.
  exists (k1 ++ k3), k4. split; [members|]. split; [assumption|].
  intros y ks' Hy. rewrite <- !app_assoc.
  apply tokenized_join; [reflexivity | assumption|].
  apply tokenized_join; [reflexivity | assumption | assumption].
Qed.

Lemma anchor_markup_parts (url txt : jsstring) :
  anchor_markup url txt
  = (lit "<a href=" ++ [QUOTE]) ++ url
    ++ ([QUOTE] ++ lit " target=" ++ [QUOTE] ++ lit "_blank" ++ [QUOTE]
        ++ lit " rel=" ++ [QUOTE] ++ lit "noopener noreferrer" ++ [QUOTE]
        ++ lit ">")
    ++ txt ++ lit "</a>".
Proof. unfold anchor_markup. now rewrite <- !app_assoc. Qed.

Lemma link_match_tokenized s r rest :
  link_match s = Some (r, rest) ->
  forall x ks, tokenized ks (x ++ s) ->
  exists ks1 ks2,
    (forall k, In k ks -> In k ks1 \/ In k ks2)
    /\ tokenized ks2 rest
    /\ (forall y ks2', tokenized ks2' y -> tokenized (ks1 ++ ks2') (x ++ r ++ y)).
Proof.
  intros H x ks Hx. apply link_match_spec in H as (txt & url & -> & ->).
  cbn [app] in Hx.
  cut_at Hx x as k1 k2 Hx1. cut_at Hx txt as k3 k4 Htxt.
  cut_at Hx (@nil N) as k5 k6 Hx2. cut_at Hx url as k7 k8 Hurl.
  apply tokenized_nil in Hx2 as ->.
  exists (k1 ++ k7 ++ k3), k8. split; [members|]. split; [assumption|].
  intros y ks' Hy. rewrite anchor_markup_parts.
  set (l1 := lit "<a href=" ++ [QUOTE]).
  set (l2 := [QUOTE] ++ lit " target=" ++ _).
  rewrite <- !app_assoc.
  apply tokenized_join; [reflexivity | assumption|].
  apply tokenized_join; [reflexivity | assumption|].
  apply tokenized_join; [reflexivity | assumption | assumption].
Qed.

Lemma inlineTransforms_tokenized (ks : list nat) (s : jsstring) :
  tokenized ks s ->
  exists ks', tokenized ks' (inlineTransforms s)
              /\ forall k, In k ks -> In k ks'.
Proof.
  intros H. unfold inlineTransforms.
  destruct (replace_g_tokenized bold_match bold_match_consuming
              bold_match_tokenized s [] ks H) as (k1 & H1 & Hin1).
  destruct (replace_g_tokenized italic_match italic_match_consuming
              italic_match_tokenized _ [] k1 H1) as (k2 & H2 & Hin2).
  destruct (replace_g_tokenized inline_code_match inline_code_match_consuming
              inline_code_match_tokenized _ [] k2 H2) as (k3 & H3 & Hin3).
  destruct (replace_g_tokenized link_match link_match_consuming
              link_match_tokenized _ [] k3 H3) as (k4 & H4 & Hin4).
  exists k4. split; [exact H4 | auto].
Qed.

Lemma escapeHTML_tokenized (s x : jsstring) (ks : list nat) :
  tokenized ks (x ++ s) -> tokenized ks (x ++ escapeHTML s).
Proof.
  rewrite escapeHTML_flat_map. revert x ks.
  induction s as [|c s IH]; intros x ks H; [assumption|].
  cbn [flat_map]. unfold escape_char.
  destruct (N.eqb_spec c LT) as [->|Hl]; [|destruct (N.eqb_spec c GT) as [->|Hg]].
  - apply tokenized_split in H as (k1 & k2 & -> & H1 & H2); [|reflexivity].
    apply tokenized_join; [reflexivity | assumption|]. apply (IH []), H2.
  - apply tokenized_split in H as (k1 & k2 & -> & H1 & H2); [|reflexivity].
    apply tokenized_join; [reflexivity | assumption|]. apply (IH []), H2.
  - change (x ++ [c] ++ flat_map escape_char s)
      with (x ++ [c] ++ flat_map escape_char s).
    rewrite app_assoc. apply IH. now rewrite <- app_assoc.
Qed.

Lemma strike_fence_consuming : consuming strike_fence.
Proof.
  intros s r rest H. unfold strike_fence in H.
  destruct (fence_match s) as [[[lang code] rest']|] eqn:Hm; [|discriminate].
  injection H as _ <-. eapply fence_match_consuming, Hm.
Qed.

(** Fence extraction tokenizes a text that has no [__CODEBLOCK_] outside
    its fenced blocks: the tokens are those of the blocks it extracts. *)
Lemma extract_blocks_tokenized (phs : list jsstring) (s a : jsstring) :
  token_free (a ++ replace_g strike_fence s) ->
  exists ks,
    tokenized ks (a ++ fst (extract_blocks phs s))
    /\ forall k, (length phs <= k < length (snd (extract_blocks phs s)))%nat ->
                 In k ks.
Proof.
  revert a.
  apply (extract_blocks_ind (fun phs s res => forall a,
    token_free (a ++ replace_g strike_fence s) ->
    exists ks, tokenized ks (a ++ fst res)
               /\ forall k, (length phs <= k < length (snd res))%nat -> In k ks));
    cbn [fst snd].
  - intros phs' a H. exists []. split; [|lia].
    rewrite app_nil_r. constructor. now apply token_free_prefix in H.
  - intros phs' c t Hnone IH a H.
    rewrite replace_g_unfold in H by apply strike_fence_consuming.
    unfold strike_fence in H at 1. rewrite Hnone in H.
    change (a ++ c :: replace_g strike_fence t)
      with (a ++ [c] ++ replace_g strike_fence t) in H.
    rewrite app_assoc in H.
    destruct (IH _ H) as (ks & Hk & Hin). exists ks.
    rewrite <- app_assoc in Hk. now split.
  - intros phs' s' lang code rest Hm IH a H.
    rewrite replace_g_unfold in H by apply strike_fence_consuming.
    unfold strike_fence in H at 1. rewrite Hm in H.
    assert (Ha : token_free a) by now apply token_free_prefix in H.
    assert (Hr : token_free ([] ++ replace_g strike_fence rest)).
    { rewrite app_assoc in H. now apply token_free_suffix in H. }
    destruct (IH [] Hr) as (ks & Hk & Hin).
    rewrite length_app in *. cbn [length] in *.
    replace (length phs' + 1 - 1)%nat with (length phs') by lia.
    exists (length phs' :: ks). split; [now constructor|].
    intros k Hk'. destruct (Nat.eq_dec k (length phs')) as [->|Hne];
      [now left | right; apply Hin; lia].
Qed.

(** A [__CODEBLOCK_] outside the fenced blocks is one of the raw text. *)
Lemma outside_fences_contains (text : jsstring) :
  contains (lit "__CODEBLOCK_") (outside_fences text) ->
  contains (lit "__CODEBLOCK_") text.
Proof.
  unfold outside_fences. intros H.
  enough (Hgen : forall x,
            contains (lit "__CODEBLOCK_") (x ++ replace_g strike_fence text) ->
            contains (lit "__CODEBLOCK_") (x ++ text)) by exact (Hgen [] H).
  clear H.
  apply (replace_g_ind strike_fence (fun s out => forall x,
    contains (lit "__CODEBLOCK_") (x ++ out) ->
    contains (lit "__CODEBLOCK_") (x ++ s))).
  - apply strike_fence_consuming.
  - auto.
  - intros c t _ IH x H.
    change (x ++ c :: t) with (x ++ [c] ++ t). rewrite app_assoc.
    apply IH. now rewrite <- app_assoc.
  - intros s r rest Hm IH x H. unfold strike_fence in Hm.
    destruct (fence_match s) as [[[lang code] rest']|] eqn:Hf;
      [|discriminate].
    injection Hm as <- <-. apply fence_match_spec in Hf as (-> & _).
    cbn [app] in H.
    apply (contains_split (fun c => negb (prefix_char c))) in H as [H|H];
      [now apply contains_app_l | | repeat constructor | reflexivity].
    apply contains_app_r. rewrite !app_assoc. apply contains_app_r.
    exact (IH [] H).
Qed.

(** Text without line feeds that stands outside the fenced blocks is in
    the text left by fence extraction. *)
Lemma outside_fences_processed (w text : jsstring) :
  Forall (fun c => (c =? NEWLINE) = false) w ->
  contains w (outside_fences text) ->
  contains w (fst (extractCodeBlocks text)).
Proof.
  intros Hw H. unfold outside_fences, extractCodeBlocks in *.
  enough (Hgen : forall phs s x,
            contains w (x ++ replace_g strike_fence s) ->
            contains w (x ++ fst (extract_blocks phs s)))
    by exact (Hgen [] text [] H).
  clear H text. intros phs s.
  apply (extract_blocks_ind (fun phs s res => forall x,
    contains w (x ++ replace_g strike_fence s) ->
    contains w (x ++ fst res))); cbn [fst].
  - auto.
  - intros phs' c t Hnone IH x H.
    rewrite replace_g_unfold in H by apply strike_fence_consuming.
    unfold strike_fence in H at 1. rewrite Hnone in H.
    change (x ++ c :: fst (extract_blocks phs' t))
      with (x ++ [c] ++ fst (extract_blocks phs' t)).
    rewrite app_assoc. apply IH. now rewrite <- app_assoc.
  - intros phs' s' lang code rest Hm IH x H.
    rewrite replace_g_unfold in H by apply strike_fence_consuming.
    unfold strike_fence in H at 1. rewrite Hm in H. cbn [app] in H.
    apply (contains_split (fun c => c =? NEWLINE)) in H as [H|H];
      [now apply contains_app_l | | assumption | reflexivity].
    do 2 apply contains_app_r. exact (IH [] H).
Qed.

(** * The restore pass on tokenized text *)

Lemma digits_before_prefix_contains (r : jsstring) :
  digits_before_prefix r = true -> contains (lit "__CODEBLOCK_") (rev r).
Proof.
  unfold digits_before_prefix.
  destruct (span is_digit r) as [ds r'] eqn:Hs.
  destruct ds as [|d ds]; [discriminate|].
  destruct (strip_prefix _ r') as [r2|] eqn:Hp; [|discriminate].
  intros _. apply span_spec in Hs as (-> & _).
  apply strip_prefix_Some in Hp. subst r'.
  rewrite !rev_app_distr, rev_involutive.
  exists (rev r2), (rev (d :: ds)). now rewrite <- app_assoc.
Qed.

Lemma ends_in_partial_token_contains (u : jsstring) :
  ends_in_partial_token u = true -> contains (lit "__CODEBLOCK_") u.
Proof.
  unfold ends_in_partial_token. intros H.
  apply orb_true_iff in H as [H|H].
  - apply digits_before_prefix_contains in H. now rewrite rev_involutive in H.
  - destruct (rev u) as [|c r] eqn:Hr; [discriminate|].
    apply andb_true_iff in H as [_ H].
    apply digits_before_prefix_contains in H.
    rewrite <- (rev_involutive u), Hr. cbn [rev]. now apply contains_app_l.
Qed.

Lemma token_free_clean (a : jsstring) :
  token_free a -> ends_in_partial_token a = false.
Proof.
  intros Ha. destruct (ends_in_partial_token a) eqn:H; [|reflexivity].
  now apply ends_in_partial_token_contains in H.
Qed.

(** The restore pass copies text without [__CODEBLOCK_]. *)
Lemma restore_token_free (phs : list jsstring) (a : jsstring) :
  token_free a -> replace_g (restore_match phs) a = a.
Proof.
  apply (replace_g_ind (restore_match phs) (fun a out =>
    token_free a -> out = a)); auto with render.
  - intros c t _ IH H. f_equal. apply IH.
    now apply (token_free_suffix [c]).
  - intros s r rest Hm _ H. exfalso. apply H.
    apply restore_match_spec in Hm as (index & -> & _).
    now exists [], (index ++ [UNDERSCORE; UNDERSCORE] ++ rest).
Qed.

(** On tokenized text the restore pass copies the text between the tokens
    and replaces every token. *)
Lemma restore_tokenized_cons (phs : list jsstring) (a : jsstring) (k : nat)
    (rest : jsstring) :
  token_free a ->
  replace_g (restore_match phs) (a ++ codeblock_token k ++ rest)
  = a ++ placeholder_at phs (number_to_string (N.of_nat k))
    ++ replace_g (restore_match phs) rest.
Proof.
  intros Ha. unfold codeblock_token. rewrite <- !app_assoc.
  change (lit "__" ++ rest) with ([UNDERSCORE; UNDERSCORE] ++ rest).
  rewrite restore_before_token by now apply token_free_clean.
  rewrite restore_token_free by assumption.
  now rewrite restore_token by apply number_to_string_digits.
Qed.

Lemma restore_tokenized (phs : list jsstring) (ks : list nat) (s : jsstring) :
  tokenized ks s ->
  forall k, In k ks ->
    contains (placeholder_at phs (number_to_string (N.of_nat k)))
      (replace_g (restore_match phs) s).
Proof.
  induction 1 as [a Ha|a k' ks rest Ha Hrest IH]; intros k Hk;
    [contradiction|].
  rewrite restore_tokenized_cons by assumption.
  apply contains_app_r. destruct Hk as [->|Hk].
  - apply contains_app_l, contains_refl.
  - now apply contains_app_r, IH.
Qed.

(** Every block extracted from a text without [__CODEBLOCK_] outside its
    fenced blocks is restored: its markup is in the output. *)
Lemma parseMarkdown_restores_blocks (text : jsstring) :
  token_free (outside_fences text) ->
  forall markup, In markup (snd (extractCodeBlocks text)) ->
    contains markup (parseMarkdown text).
Proof.
  intros Hfree markup Hin. unfold parseMarkdown, extractCodeBlocks in *.
  destruct (extract_blocks_tokenized [] text [] Hfree) as (ks & Hk & Hall).
  destruct (extract_blocks [] text) as [processed phs]. cbn [fst snd app] in *.
  apply (escapeHTML_tokenized processed []) in Hk. cbn [app] in Hk.
  apply inlineTransforms_tokenized in Hk as (ks' & Hk & Hsub).
  apply In_nth_error in Hin as [k Hnth].
  assert (Hlt : (k < length phs)%nat).
  { apply nth_error_Some. congruence. }
  pose proof (restore_tokenized phs ks' _ Hk k) as H.
  rewrite placeholder_at_number, Hnth in H. apply H, Hsub, Hall.
  cbn [length]. lia.
Qed.

(** * Claims about the renderer *)

(** The input of the counterexample to C1: prose that ends with the
    beginning of a placeholder token, followed by a fenced block whose body
    is [<script>].  The token minted for the block completes the prose into
    [__CODEBLOCK_1__], which the restore pass replaces by [undefined]: the
    block, and with it the escaped [<script>], never reaches the output. *)
Lemma parseMarkdown_drops_fenced_script :
  let text := lit "__CODEBLOCK_1" ++ fenced [] (lit "<script>") in
  contains (lit "<script>") text
  /\ parseMarkdown text = lit "undefinedCODEBLOCK_0__"
  /\ ~ contains (lit "&lt;script&gt;") (parseMarkdown text).
Proof.
  cbv zeta. split; [|split].
  - apply containsb_spec. vm_compute. reflexivity.
  - vm_compute. reflexivity.
  - intros H. apply containsb_spec in H. vm_compute in H. discriminate H.
Qed.

(** C1 (amended).  For every raw text: wherever the rendered HTML has a
    [<], one of the renderer's own tags starts ([renderer_tags]), so the
    output never contains [<script>]; a [<script>] outside the fenced
    blocks (one that is left in the text after fence extraction) is in the
    output as [&lt;script&gt;]; when [__CODEBLOCK_] does not occur outside
    the fenced blocks of the raw text (in particular when it does not
    occur in the raw text at all), the markup of every extracted block,
    whatever its position, is in the output, and a [<script>] anywhere in
    the raw text, inside or outside a fence, is in the output as
    [&lt;script&gt;]; and whatever the text holds elsewhere, the body of a
    fenced block that follows plain prose is in the output, escaped. *)
Theorem parseMarkdown_escaping_invariant (text : jsstring) :
  (forall before after,
     parseMarkdown text = before ++ LT :: after ->
     exists tag rest, In tag renderer_tags /\ LT :: after = tag ++ rest)
  /\ ~ contains (lit "<script>") (parseMarkdown text)
  /\ (contains (lit "<script>") (outside_fences text)
      \/ contains (lit "<script>") (fst (extractCodeBlocks text)) ->
      contains (lit "&lt;script&gt;") (parseMarkdown text))
  /\ (~ contains (lit "__CODEBLOCK_") (outside_fences text) ->
      (forall markup,
         In markup (snd (extractCodeBlocks text)) ->
         contains markup (parseMarkdown text))
      /\ (contains (lit "<script>") text ->
          contains (lit "&lt;script&gt;") (parseMarkdown text)))
  /\ (~ contains (lit "__CODEBLOCK_") text ->
      ~ contains (lit "__CODEBLOCK_") (outside_fences text))
  /\ (forall pre lang body post,
        text = pre ++ fenced lang body ++ post ->
        Forall (fun c => plain_char c = true) pre ->
        Forall (fun c => is_word c = true) lang ->
        Forall (fun c => c <> BACKTICK) body ->
        contains (lit "<script>") body ->
        contains (lit "&lt;script&gt;") (parseMarkdown text)).
Proof.
  assert (Houtside : contains (lit "<script>") (fst (extractCodeBlocks text))
                     -> contains (lit "&lt;script&gt;") (parseMarkdown text)).
  { intros H. unfold parseMarkdown.
    destruct (extractCodeBlocks text) as [processed phs]. cbn [fst] in H.
    apply restore_keeps; [discriminate | repeat constructor|].
    apply inlineTransforms_keeps; [discriminate | repeat constructor|].
    now apply (escapeHTML_contains (lit "<script>")). }
  pose proof (parseMarkdown_tag_safe text) as Hs.
  split; [|split; [|split; [|split; [|split]]]].
  - now apply tag_safe_spec.
  - now apply tag_safe_no_script.
  - intros [H|H]; [|now apply Houtside].
    apply Houtside, outside_fences_processed; [repeat constructor | exact H].
  - intros Hfree. split; [now apply parseMarkdown_restores_blocks|].
    intros H.
    destruct (extract_blocks_keeps LT (lit "script>") eq_refl
                ltac:(repeat constructor) [] text H) as [Hl|Hr].
    + now apply Houtside.
    + apply List.Exists_exists in Hr as (markup & Hin & Hm).
      eapply contains_trans; [exact Hm|].
      now apply parseMarkdown_restores_blocks.
  - intros Hfree H. now apply Hfree, outside_fences_contains.
  - intros pre lang body post -> Hpre Hlang Hbody Hin.
    destruct (parseMarkdown_first_fence pre lang body post Hpre Hlang Hbody)
      as [tail ->].
    apply contains_app_r, contains_app_l. unfold code_block_markup.
    do 7 apply contains_app_r. apply contains_app_l.
    apply (escapeHTML_contains (lit "<script>")), trim_keeps;
      [discriminate | repeat constructor | assumption].
Qed.

Lemma parseMarkdown_escaping_invariant_witness :
  let text := lit "first " ++ fenced (lit "js") (lit "x = __CODEBLOCK_1__")
              ++ lit " then " ++ fenced (lit "html") (lit "<script>") in
  ~ contains (lit "__CODEBLOCK_") (outside_fences text)
  /\ ~ contains (lit "<script>") (parseMarkdown text)
  /\ contains (lit "&lt;script&gt;") (parseMarkdown text).
Proof.
  cbv zeta.
  assert (Hfree : ~ contains (lit "__CODEBLOCK_")
                      (outside_fences
                         (lit "first "
                          ++ fenced (lit "js") (lit "x = __CODEBLOCK_1__")
                          ++ lit " then "
                          ++ fenced (lit "html") (lit "<script>")))).
  { intros H. apply containsb_spec in H. vm_compute in H. discriminate H. }
  destruct (parseMarkdown_escaping_invariant
              (lit "first " ++ fenced (lit "js") (lit "x = __CODEBLOCK_1__")
               ++ lit " then " ++ fenced (lit "html") (lit "<script>")))
    as (_ & Hno & _ & Hall & _).
  split; [exact Hfree|]. split; [exact Hno|].
  apply (Hall Hfree). apply containsb_spec. vm_compute. reflexivity.
Defined.

(** The renderer of the newer sources keeps the body of a fenced block
    out of the inline passes. *)
Lemma parseMarkdown_fence_priority :
  let out := parseMarkdown (fenced (lit "js") (lit "**bold**" ++ [NEWLINE])) in
  out = code_block_markup (lit "js") (lit "**bold**")
  /\ ~ contains (lit "<strong>") out.
Proof.
  cbv zeta. split; [vm_compute; reflexivity|].
  intros H. apply containsb_spec in H. vm_compute in H. discriminate H.
Qed.

(** C2 (code bug in [index.tsx]).  On the fenced block whose body is
    [**bold**], the renderer of [index.tsx] substitutes the code-block
    markup and then runs the bold pattern over it: the output holds a
    [<strong>] element inside the code block instead of the literal
    [**bold**]. *)
Theorem legacy_parseMarkdown_bolds_fenced_code :
  let out :=
    Legacy.parseMarkdown (fenced (lit "js") (lit "**bold**" ++ [NEWLINE])) in
  out = code_block_markup (lit "js") (lit "<strong>bold</strong>")
  /\ contains (lit "<strong>") out
  /\ ~ contains (lit "**bold**") out.
Proof.
  cbv zeta. split; [vm_compute; reflexivity|]. split.
  - apply containsb_spec. vm_compute. reflexivity.
  - intros H. apply containsb_spec in H. vm_compute in H. discriminate H.
Qed.

(** The input of the counterexample to C10: two placeholder-shaped tokens
    that share their underscores.  The scan replaces the first and goes on
    after it, so the second one, although it is a literal substring of the
    raw text outside any fence, is neither kept nor replaced by
    [undefined]: its tail is left in the output. *)
Lemma restore_overlapping_tokens :
  let text := lit "__CODEBLOCK_1__CODEBLOCK_2__" in
  let u := lit "__CODEBLOCK_1" in
  text = u ++ lit "__CODEBLOCK_" ++ lit "2" ++ lit "__"
  /\ extractCodeBlocks text = (text, [])
  /\ inlineTransforms (escapeHTML text) = text
  /\ parseMarkdown text = lit "undefinedCODEBLOCK_2__"
  /\ parseMarkdown text
     <> replace_g (restore_match []) u ++ lit "undefined".
Proof.
  cbv zeta. repeat split; try (vm_compute; reflexivity).
  intros H. vm_compute in H. discriminate H.
Qed.

(** C10 (amended).  Take a placeholder-shaped token [__CODEBLOCK_k__].
    When the text that reaches the restore step holds it, and the text in
    front of that occurrence does not end with the beginning of such a
    token ([__CODEBLOCK_], digits and at most one underscore), the
    occurrence is not kept: the output has the replacement in its place.  In
    particular a token that stands, in the text left by fence extraction,
    after a code unit which is no angle bracket, no markdown delimiter and
    no code unit of tokens, is replaced after that code unit.  The
    replacement is the markup of the [k]-th extracted block when [k] is less
    than the number of blocks, and the string [undefined] otherwise. *)
Theorem restore_replaces_prose_token (text index : jsstring) :
  index <> [] -> Forall (fun c => is_digit c = true) index ->
  let token := lit "__CODEBLOCK_" ++ index ++ lit "__" in
  let placeholders := snd (extractCodeBlocks text) in
  let restore := replace_g (restore_match placeholders) in
  (forall u v,
     inlineTransforms (escapeHTML (fst (extractCodeBlocks text)))
     = u ++ token ++ v ->
     ends_in_partial_token u = false ->
     parseMarkdown text
     = restore u ++ placeholder_at placeholders index ++ restore v)
  /\ (forall c,
        c <> LT -> c <> GT -> inline_delim c = false ->
        token_char c = false ->
        contains (c :: token) (fst (extractCodeBlocks text)) ->
        contains (c :: placeholder_at placeholders index)
          (parseMarkdown text))
  /\ (forall markup,
        nth_error placeholders (parseInt index) = Some markup ->
        placeholder_at placeholders index = markup)
  /\ ((length placeholders <= parseInt index)%nat ->
      placeholder_at placeholders index = lit "undefined").
Proof.
  intros Hne Hd token placeholders restore.
  assert (Hrestore : forall u v,
            ends_in_partial_token u = false ->
            restore (u ++ token ++ v)
            = restore u ++ placeholder_at placeholders index ++ restore v).
  { intros u v Hclean. unfold restore, token. rewrite <- !app_assoc.
    rewrite restore_before_token by assumption. now rewrite restore_token. }
  assert (Hout : parseMarkdown text
                 = restore (inlineTransforms
                              (escapeHTML (fst (extractCodeBlocks text))))).
  { unfold parseMarkdown, restore, placeholders.
    now destruct (extractCodeBlocks text). }
  split; [|split; [|split]].
  - intros u v Hshape Hclean. rewrite Hout, Hshape. now apply Hrestore.
  - intros c Hlt Hgt Hdelim Hc Hin. rewrite Hout.
    assert (Hplain : Forall (fun d => d <> LT /\ d <> GT
                                      /\ inline_delim d = false)
                       (c :: token)).
    { constructor; [auto|]. unfold token.
      repeat apply Forall_app_2; try (repeat constructor; discriminate).
      eapply List.Forall_impl; [|exact Hd]. intros d Hdig.
      unfold is_digit in Hdig. unfold LT, GT, inline_delim, STAR, BACKTICK,
        LBRACKET, RBRACKET, LPAREN, RPAREN.
      bool_to_prop Hdig.
      repeat split; try lia.
      repeat (apply orb_false_iff; split); apply N.eqb_neq; lia. }
    apply escapeHTML_contains in Hin.
    rewrite (escapeHTML_id (c :: token)) in Hin
      by (eapply List.Forall_impl; [|exact Hplain]; simpl; tauto).
    apply (inlineTransforms_keeps (c :: token)) in Hin;
      [|discriminate
       |eapply List.Forall_impl; [|exact Hplain]; simpl; tauto].
    destruct Hin as (a & b & Hshape). rewrite Hshape.
    change (a ++ (c :: token) ++ b) with (a ++ [c] ++ token ++ b).
    rewrite app_assoc, Hrestore.
    + unfold restore. rewrite restore_before_ordinary by assumption.
      exists (replace_g (restore_match placeholders) a),
        (replace_g (restore_match placeholders) b).
      rewrite <- !app_assoc. reflexivity.
    + apply ends_in_partial_token_ordinary.
      * destruct (is_digit c) eqn:Hdig; [|reflexivity].
        apply is_digit_token_char in Hdig. congruence.
      * intros ->. discriminate Hc.
  - intros markup Hk. unfold placeholder_at. now rewrite Hk.
  - intros Hk. unfold placeholder_at.
    apply nth_error_None in Hk. now rewrite Hk.
Qed.

Lemma restore_replaces_prose_token_witness :
  let text := lit "see __CODEBLOCK_0__ and __CODEBLOCK_7__ "
              ++ fenced (lit "js") (lit "x<y") in
  let block := code_block_markup (lit "js") (lit "x&lt;y") in
  parseMarkdown text
  = lit "see " ++ block ++ lit " and undefined " ++ block
  /\ contains (lit " undefined") (parseMarkdown text).
Proof.
  cbv zeta. split.
  - destruct (restore_replaces_prose_token
                (lit "see __CODEBLOCK_0__ and __CODEBLOCK_7__ "
                 ++ fenced (lit "js") (lit "x<y"))
                (lit "0"))
      as (Hout & _).
    + discriminate.
    + repeat constructor.
    + rewrite (Hout (lit "see ")
                 (lit " and __CODEBLOCK_7__ __CODEBLOCK_0__")).
      * vm_compute. reflexivity.
      * vm_compute. reflexivity.
      * vm_compute. reflexivity.
  - destruct (restore_replaces_prose_token
                (lit "see __CODEBLOCK_0__ and __CODEBLOCK_7__ "
                 ++ fenced (lit "js") (lit "x<y"))
                (lit "7"))
      as (_ & Hafter & _ & Hundefined).
    + discriminate.
    + repeat constructor.
    + change (lit " undefined") with (32 :: lit "undefined").
      rewrite <- Hundefined by (vm_compute; lia).
      apply (Hafter 32); try discriminate; try reflexivity.
      apply containsb_spec. vm_compute. reflexivity.
Defined.

(** * Claims about the stored data *)

(** The stored strings of the counterexample to C3: text that is not JSON
    under both keys.  Neither loader falls back: the [SyntaxError] of
    [JSON.parse] leaves the function. *)
Lemma loaders_throw_on_corrupt_storage :
  let store : gmap string jsstring :=
    <["chatHistory"%string := lit "{oops"]>
      (<["settings"%string := lit "{oops"]> ∅) in
  JSON_parse (lit "{oops") = None
  /\ loadHistoryFromStorage store initial_loaded
     = Throw SyntaxError initial_loaded
  /\ loadSettings store initial_loaded = Throw SyntaxError initial_loaded.
Proof. cbv zeta. repeat split; vm_compute; reflexivity. Qed.

(** C3 (amended).  A missing or empty stored value is the empty-state
    fallback: [loadHistoryFromStorage] yields the empty collection and
    [loadSettings] leaves the settings as they are (the defaults at start).
    A non-empty stored string that is not valid JSON makes [JSON.parse]
    throw a [SyntaxError] that neither loader catches; the variables keep
    their values. *)
Theorem loaders_on_stored_text (store : gmap string jsstring) (g : Loaded) :
  (store !! "chatHistory"%string = None
   \/ store !! "chatHistory"%string = Some [] ->
   loadHistoryFromStorage store g
   = Normal {| loaded_chatHistory := JArray [];
               loaded_settings := loaded_settings g |})
  /\ (store !! "settings"%string = None
      \/ store !! "settings"%string = Some [] ->
      loadSettings store g = Normal g)
  /\ (forall saved,
        store !! "chatHistory"%string = Some saved -> saved <> [] ->
        JSON_parse saved = None ->
        loadHistoryFromStorage store g = Throw SyntaxError g)
  /\ (forall saved,
        store !! "settings"%string = Some saved -> saved <> [] ->
        JSON_parse saved = None ->
        loadSettings store g = Throw SyntaxError g).
Proof.
  unfold loadHistoryFromStorage, loadSettings.
  split; [|split; [|split]].
  - intros [-> | ->]; reflexivity.
  - intros [-> | ->]; reflexivity.
  - intros saved -> Hne Hp. destruct saved; [contradiction|]. now rewrite Hp.
  - intros saved -> Hne Hp. destruct saved; [contradiction|]. now rewrite Hp.
Qed.

Lemma loaders_on_stored_text_witness :
  loadHistoryFromStorage (<["settings"%string := lit "[1,"]> ∅) initial_loaded
  = Normal initial_loaded
  /\ loadSettings (<["settings"%string := lit "[1,"]> ∅) initial_loaded
     = Throw SyntaxError initial_loaded.
Proof.
  destruct (loaders_on_stored_text (<["settings"%string := lit "[1,"]> ∅)
              initial_loaded) as (Hh & _ & _ & Hs).
  split.
  - apply Hh. left. vm_compute. reflexivity.
  - apply (Hs (lit "[1,")).
    + vm_compute. reflexivity.
    + vm_compute. discriminate.
    + vm_compute. reflexivity.
Defined.

(** * Claims about the session store *)

Section SessionStore.

Context {platform : Platform}.

Lemma session_title_short (prompt : jsstring) :
  (length prompt <= 30)%nat -> session_title prompt = prompt.
Proof.
  intros H. unfold session_title.
  destruct (Nat.ltb_spec 30 (length prompt)); [lia | reflexivity].
Qed.

Lemma session_title_long (prompt : jsstring) :
  (30 < length prompt)%nat ->
  session_title prompt = firstn 27 prompt ++ lit "..."
  /\ length (session_title prompt) = 30%nat.
Proof.
  intros H. unfold session_title.
  destruct (Nat.ltb_spec 30 (length prompt)); [|lia].
  split; [reflexivity|].
  rewrite length_app, length_firstn.
  change (length (lit "...")) with 3%nat. lia.
Qed.

(** C7.  The title of a newly created session is the prompt itself when
    the prompt has at most 30 code units, and its first 27 code units
    followed by three dots, 30 code units in all, when it is longer; a
    prompt of 40 gives a title of 30 that ends in the dots, a prompt of 10
    gives itself. *)
Theorem saveCurrentChat_new_session_title (env : Env) (prompt : jsstring)
    (st : State) :
  truthy (currentChatId st) = false ->
  getMessagesFromDOM env st <> [] ->
  exists session,
    chatHistory (saveCurrentChat env prompt st) = session :: chatHistory st
    /\ ((length prompt <= 30)%nat -> ChatSession.title session = prompt)
    /\ ((30 < length prompt)%nat ->
        ChatSession.title session = firstn 27 prompt ++ lit "..."
        /\ length (ChatSession.title session) = 30%nat)
    /\ (length prompt = 40%nat ->
        length (ChatSession.title session) = 30%nat
        /\ exists start, ChatSession.title session = start ++ lit "...")
    /\ (length prompt = 10%nat -> ChatSession.title session = prompt).
Proof.
  intros Hnew Hmsgs. unfold saveCurrentChat.
  destruct (getMessagesFromDOM env st) as [|m ms] eqn:Hm; [contradiction|].
  destruct (currentChatId st) as [[|c cur]|]; try discriminate Hnew.
  all: eexists; (split; [reflexivity|]); cbn [ChatSession.title].
  all: split; [apply session_title_short|].
  all: split; [apply session_title_long|].
  all: split; [|intros H10; apply session_title_short; lia].
  all: intros H40; destruct (session_title_long prompt) as [Ht Hl]; [lia|].
  all: split; [assumption|]; eexists; exact Ht.
Qed.

(** [filter] by id on a collection without repeated ids removes the
    session with that id and nothing else. *)
Lemma filter_id_remove (A : ChatSession.t) (l1 l2 : list ChatSession.t) :
  NoDup (map ChatSession.id (l1 ++ A :: l2)) ->
  List.filter
    (fun s => negb (jsstring_eqb (ChatSession.id s) (ChatSession.id A)))
    (l1 ++ A :: l2)
  = l1 ++ l2.
Proof.
  intros Hnd.
  assert (Hkeep : forall l,
    (forall s, In s l -> ChatSession.id s <> ChatSession.id A) ->
    List.filter
      (fun s => negb (jsstring_eqb (ChatSession.id s) (ChatSession.id A))) l
    = l).
  { induction l as [|s l IH]; [reflexivity|]. intros Hl. simpl.
    unfold jsstring_eqb at 1. rewrite bool_decide_eq_false_2
      by (apply Hl; now left).
    simpl. f_equal. apply IH. intros s' Hs'. apply Hl. now right. }
  rewrite map_app in Hnd. simpl in Hnd.
  apply NoDup_app in Hnd as (_ & Hdisj & Hnd2).
  apply NoDup_cons in Hnd2 as [HA _].
  rewrite List.filter_app. simpl. unfold jsstring_eqb at 2.
  rewrite bool_decide_eq_true_2 by reflexivity. simpl.
  rewrite !Hkeep; [reflexivity| |].
  - intros s Hs Heq. apply HA. rewrite <- Heq.
    apply list_elem_of_In, in_map, Hs.
  - intros s Hs Heq. apply (Hdisj (ChatSession.id s)).
    + apply list_elem_of_In, in_map, Hs.
    + rewrite Heq. left.
Qed.

(** What [deleteChat] does to the collection, whatever the ids are. *)
Lemma deleteChat_chatHistory (st : State) (chatId : jsstring) :
chatId <> [] -> contextMenuTarget st = Some (Some chatId) ->
chatHistory (deleteChat true st)
= List.filter (fun s => negb (jsstring_eqb (ChatSession.id s) chatId))
    (chatHistory st)
/\ localStorage (deleteChat true st) !! "chatHistory"%string
   = Some (JSON_stringify (chatHistory (deleteChat true st))).
Proof.
intros Hid Htarget. unfold deleteChat. rewrite Htarget.
destruct chatId as [|c t]; [contradiction|].
destruct (strict_eq _ _); cbn; rewrite lookup_insert_eq; auto.
Qed.

(** C9.  Deleting the session [A] chosen in the context menu (and
  confirmed) keeps exactly the sessions whose id is not that of [A], each
  the same record as before, and persists the result.  In a session
  collection (at most one session per id) the result is the collection
  without [A]: [A] is gone and every other session is there, unchanged
  and at the same relative place. *)
Theorem deleteChat_removes_exactly (st : State) (A : ChatSession.t) :
In A (chatHistory st) ->
ChatSession.id A <> [] ->
contextMenuTarget st = Some (Some (ChatSession.id A)) ->
let st' := deleteChat true st in
(forall B, In B (chatHistory st')
           <-> In B (chatHistory st) /\ ChatSession.id B <> ChatSession.id A)
/\ localStorage st' !! "chatHistory"%string
   = Some (JSON_stringify (chatHistory st'))
/\ (NoDup (map ChatSession.id (chatHistory st)) ->
    (forall l1 l2, chatHistory st = l1 ++ A :: l2 ->
                   chatHistory st' = l1 ++ l2)
    /\ ~ In A (chatHistory st')
    /\ (forall B, In B (chatHistory st) -> B <> A ->
                  In B (chatHistory st'))).
Proof.
intros HA Hid Htarget st'.
destruct (deleteChat_chatHistory st (ChatSession.id A) Hid Htarget)
  as [Hc Hl]. fold st' in Hc, Hl.
assert (Hin : forall B, In B (chatHistory st')
                        <-> In B (chatHistory st)
                            /\ ChatSession.id B <> ChatSession.id A).
{ intros B. rewrite Hc, filter_In, negb_true_iff.
  unfold jsstring_eqb. rewrite bool_decide_eq_false. reflexivity. }
split; [exact Hin|]. split; [exact Hl|].
intros Hnd. split; [|split].
- intros l1 l2 Hh. rewrite Hc, Hh.
  apply filter_id_remove. now rewrite <- Hh.
- intros HA'. apply Hin in HA' as [_ Hne]. now apply Hne.
- intros B HB Hne. apply Hin. split; [assumption|].
  intros Heq. apply Hne.
  apply in_split in HA as (l1 & l2 & Hh).
  rewrite Hh, map_app in Hnd. simpl in Hnd.
  apply NoDup_app in Hnd as (_ & Hdisj & Hnd2).
  apply NoDup_cons in Hnd2 as [HA2 _].
  rewrite Hh in HB. apply in_app_or in HB as [HB|[HB|HB]].
  + exfalso. apply (Hdisj (ChatSession.id A)); [|left].
    rewrite <- Heq. apply list_elem_of_In, in_map, HB.
  + now symmetry.
  + exfalso. apply HA2. rewrite <- Heq.
    apply list_elem_of_In, in_map, HB.
Qed.

End SessionStore.

(** * The streaming turn *)

Section Streaming.

Context {platform : Platform}.

Lemma stream_chunk_streaming (base : State) (mid p : jsstring) (ref : nat)
    (regen : bool) (full text : jsstring) (w : Wrapper) :
  (ref < length (elements base))%nat ->
  stream_chunk 0 text (streaming base mid p ref regen full w)
  = streaming base mid p ref regen (full ++ text)
      {| children := Html (parseMarkdown (full ++ text));
         rawText := rawText w; codeBlocksProcessed := false |}.
Proof.
  intros Href. unfold stream_chunk, streaming, update_wrapper. cbn.
  rewrite list_lookup_insert_eq by assumption. cbn.
  now rewrite list_insert_insert_eq.
Qed.

(** After one or more chunks the placeholder holds the render of all of
    them together. *)
Lemma run_chunks (base : State) (mid p : jsstring) (ref : nat)
    (regen : bool) (deltas : list jsstring) :
  (ref < length (elements base))%nat -> deltas <> [] ->
  forall full w,
    run (streaming base mid p ref regen full w)
      (map (StreamChunk 0) deltas)
    = streaming base mid p ref regen (full ++ concat deltas)
        {| children := Html (parseMarkdown (full ++ concat deltas));
           rawText := rawText w; codeBlocksProcessed := false |}.
Proof.
  intros Href. induction deltas as [|d ds IH]; [contradiction|].
  intros _ full w. cbn [map run fold_left step].
  rewrite stream_chunk_streaming by assumption.
  destruct ds as [|d' ds].
  - cbn. now rewrite app_nil_r.
  - fold (run (streaming base mid p ref regen (full ++ d)
                 {| children := Html (parseMarkdown (full ++ d));
                    rawText := rawText w; codeBlocksProcessed := false |})
            (map (StreamChunk 0) (d' :: ds))).
    rewrite IH by discriminate. cbn [rawText concat].
    now rewrite <- !app_assoc.
Qed.

Lemma handleFormSubmit_streaming (env : Env) (st : State) :
  isAwaitingResponse st = false -> inflight st = [] ->
  trim (chatInput st) <> [] ->
  handleFormSubmit env st
  = streaming (submit_base env st) (newId' env) (trim (chatInput st))
      (S (length (elements st))) false [] loading_wrapper.
Proof.
  intros Hbusy Hin Hprompt. unfold handleFormSubmit. rewrite Hbusy.
  destruct (trim (chatInput st)) as [|c t] eqn:Ht; [contradiction|].
  unfold streaming, submit_base. rewrite Ht. cbn. rewrite Hin. cbn.
  rewrite length_app, Nat.add_1_r.
  rewrite list_insert_id; [reflexivity|].
  rewrite lookup_app_r by (rewrite length_app; simpl; lia).
  rewrite length_app, Nat.add_1_r, Nat.sub_diag. reflexivity.
Qed.

Lemma handleRegenerate_streaming (env : Env) (st : State)
    (lastUserMessage : Message.t) :
  isAwaitingResponse st = false -> inflight st = [] ->
  last (List.filter
          (fun m => match Message.role m with
                    | user => true
                    | model => false
                    end) (getMessagesFromDOM env st))
  = Some lastUserMessage ->
  handleRegenerate env st
  = streaming (regenerate_base env st) (newId' env)
      (default [] (head (Message.parts lastUserMessage)))
      (length (elements st)) true [] loading_wrapper.
Proof.
  intros Hbusy Hin Hlast. unfold handleRegenerate. rewrite Hbusy, Hlast.
  unfold streaming, regenerate_base.
  destruct (last_model_message st); cbn; rewrite Hin; cbn.
  all: rewrite list_insert_id; [reflexivity|].
  all: rewrite lookup_app_r by lia.
  all: now rewrite Nat.sub_diag.
Qed.

Lemma submit_base_frame (env : Env) (st : State) :
  chatHistory (submit_base env st) = chatHistory st
  /\ localStorage (submit_base env st) !! "chatHistory"%string
     = localStorage st !! "chatHistory"%string
  /\ length (elements (submit_base env st)) = S (S (length (elements st))).
Proof.
  unfold submit_base. cbn. split; [reflexivity|]. split.
  - now rewrite lookup_delete_ne.
  - rewrite !length_app. simpl. lia.
Qed.

Lemma regenerate_base_frame (env : Env) (st : State) :
  chatHistory (regenerate_base env st) = chatHistory st
  /\ localStorage (regenerate_base env st) = localStorage st
  /\ length (elements (regenerate_base env st)) = S (length (elements st)).
Proof.
  unfold regenerate_base.
  destruct (last_model_message st); cbn; rewrite length_app; simpl;
    repeat split; lia.
Qed.

Lemma wrapper_at_streaming (base : State) (mid p : jsstring) (ref : nat)
    (regen : bool) (full : jsstring) (w : Wrapper) :
  (ref < length (elements base))%nat ->
  wrapper_at ref (streaming base mid p ref regen full w) = Some w.
Proof.
  intros Href. unfold wrapper_at, streaming. cbn.
  now rewrite list_lookup_insert_eq.
Qed.

Lemma saveCurrentChat_frame (env : Env) (p : jsstring) (st : State) :
  elements (saveCurrentChat env p st) = elements st
  /\ inflight (saveCurrentChat env p st) = inflight st
  /\ isAwaitingResponse (saveCurrentChat env p st) = isAwaitingResponse st.
Proof.
  unfold saveCurrentChat.
  destruct (getMessagesFromDOM env st); [auto|].
  destruct (currentChatId st) as [[|c cur]|]; cbn; auto.
Qed.

Lemma update_wrapper_frame (ref : nat) (f : Wrapper -> Wrapper)
    (st : State) :
  inflight (update_wrapper ref f st) = inflight st
  /\ isAwaitingResponse (update_wrapper ref f st) = isAwaitingResponse st
  /\ chatHistory (update_wrapper ref f st) = chatHistory st
  /\ localStorage (update_wrapper ref f st) = localStorage st.
Proof.
  unfold update_wrapper. destruct (elements st !! ref); cbn; auto.
Qed.

End Streaming.

(** * Claims about the streaming turn *)

Section Turns.

Context {platform : Platform}.

Lemma run_app (st : State) (evs evs' : list Event) :
  run st (evs ++ evs') = run (run st evs) evs'.
Proof. apply fold_left_app. Qed.

(** The chunks of a stream, whatever their number, leave the handler
    suspended with all of them accumulated. *)
Lemma run_chunks_any (base : State) (mid p : jsstring) (ref : nat)
    (regen : bool) (deltas : list jsstring) (full : jsstring)
    (w : Wrapper) :
  (ref < length (elements base))%nat ->
  exists w',
    run (streaming base mid p ref regen full w) (map (StreamChunk 0) deltas)
    = streaming base mid p ref regen (full ++ concat deltas) w'
    /\ rawText w' = rawText w
    /\ (deltas = [] -> w' = w).
Proof.
  intros Href. destruct deltas as [|d ds].
  - exists w. cbn. now rewrite app_nil_r.
  - eexists. split; [apply run_chunks; [assumption | discriminate]|].
    split; [reflexivity | discriminate].
Qed.

(** C5 (amended).  After the [k]-th delta of a stream opened by a
  submission, the placeholder holds the HTML that [parseMarkdown] gives
  for the concatenation of the deltas 1 to [k], which is what the handler
  has accumulated.  It is not the render of the [k]-th delta alone, nor
  the concatenation of the renders of the deltas, wherever these differ
  from the render of the whole buffer. *)
Theorem streaming_renders_whole_buffer (env : Env) (st : State)
  (deltas : list jsstring) (k : nat) :
isAwaitingResponse st = false -> inflight st = [] ->
trim (chatInput st) <> [] -> (0 < k <= length deltas)%nat ->
let consumed := firstn k deltas in
let st' := run st (FormSubmit env :: map (StreamChunk 0) consumed) in
let displayed := children <$> wrapper_at (S (length (elements st))) st' in
displayed = Some (Html (parseMarkdown (concat consumed)))
/\ fullResponse <$> inflight st' = [concat consumed]
/\ (forall last_delta,
      last consumed = Some last_delta ->
      parseMarkdown last_delta <> parseMarkdown (concat consumed) ->
      displayed <> Some (Html (parseMarkdown last_delta)))
/\ (concat (map parseMarkdown consumed) <> parseMarkdown (concat consumed) ->
    displayed <> Some (Html (concat (map parseMarkdown consumed)))).
Proof.
intros Hbusy Hin Hprompt Hk consumed st' displayed.
set (placeholder := S (length (elements st))) in *.
assert (Hd : consumed <> []).
{ subst consumed. destruct deltas, k; simpl in *; try lia; discriminate. }
assert (Href : (placeholder < length (elements (submit_base env st)))%nat).
{ destruct (submit_base_frame env st) as (_ & _ & ->).
  unfold placeholder. lia. }
assert (Hst' : st' = streaming (submit_base env st) (newId' env)
                 (trim (chatInput st)) placeholder false (concat consumed)
                 {| children := Html (parseMarkdown (concat consumed));
                    rawText := None; codeBlocksProcessed := false |}).
{ subst st'. cbn [run fold_left step].
  rewrite handleFormSubmit_streaming by assumption.
  fold placeholder.
  fold (run (streaming (submit_base env st) (newId' env)
               (trim (chatInput st)) placeholder false [] loading_wrapper)
          (map (StreamChunk 0) consumed)).
  now rewrite run_chunks. }
assert (Hshown : displayed
                 = Some (Html (parseMarkdown (concat consumed)))).
{ subst displayed. now rewrite Hst', wrapper_at_streaming. }
split; [exact Hshown|]. split; [now rewrite Hst'|]. rewrite Hshown.
split.
- intros last_delta _ Hne [= Heq]. now apply Hne.
- intros Hne [= Heq]. now apply Hne.
Qed.

(** C4 (amended).  After a submission whose stream delivers at least one
    delta and then ends, the placeholder stores the accumulated raw text,
    the HTML assigned to it is [parseMarkdown] of that stored raw text,
    and [processCodeBlocks] has run on it: what is displayed is determined
    by the stored raw text alone. *)
Theorem finalized_placeholder_renders_raw_text (env env' : Env)
    (st : State) (deltas : list jsstring) :
  isAwaitingResponse st = false -> inflight st = [] ->
  trim (chatInput st) <> [] -> deltas <> [] ->
  let st' :=
    run st (FormSubmit env :: map (StreamChunk 0) deltas
            ++ [StreamEnd 0 env']) in
  exists raw,
    raw = concat deltas
    /\ wrapper_at (S (length (elements st))) st'
       = Some {| children := Html (parseMarkdown raw);
                 rawText := Some raw; codeBlocksProcessed := true |}
    /\ isAwaitingResponse st' = false /\ inflight st' = [].
Proof.
  intros Hbusy Hin Hprompt Hd st'. exists (concat deltas).
  split; [reflexivity|].
  set (placeholder := S (length (elements st))).
  assert (Href : (placeholder < length (elements (submit_base env st)))%nat).
  { destruct (submit_base_frame env st) as (_ & _ & ->).
    unfold placeholder. lia. }
  subst st'. rewrite app_comm_cons, run_app. cbn [run fold_left step].
  rewrite handleFormSubmit_streaming by assumption. fold placeholder.
  fold (run (streaming (submit_base env st) (newId' env)
               (trim (chatInput st)) placeholder false [] loading_wrapper)
          (map (StreamChunk 0) deltas)).
  rewrite run_chunks by assumption. cbn [app rawText loading_wrapper].
  set (streamed := streaming _ _ _ _ _ _ _).
  unfold stream_end.
  assert (Hturn : inflight streamed !! 0%nat
                  = Some {| prompt := trim (chatInput st);
                            loadingIndicator := placeholder;
                            fullResponse := concat deltas;
                            regenerating := false |}) by reflexivity.
  rewrite Hturn. cbn [loadingIndicator fullResponse prompt].
  set (stored := update_wrapper placeholder _ streamed).
  destruct (saveCurrentChat_frame env' (trim (chatInput st)) stored)
    as (He & Hi & _).
  unfold finish_turn, wrapper_at. cbn. rewrite He, Hi.
  subst stored. unfold update_wrapper, streamed, streaming. cbn.
  rewrite list_lookup_insert_eq by assumption. cbn.
  rewrite list_lookup_insert_eq by (rewrite length_insert; assumption).
  repeat split.
Qed.

(** C6.  When the stream of a submission, or of a regeneration, throws
    after any number of deltas, the placeholder shows the fixed error text
    of the handler in place of the partial render, the flag is cleared,
    and the session collection and what is persisted of it are as they
    were before the turn. *)
Theorem stream_error_persists_nothing (env : Env) (st : State)
    (deltas : list jsstring) :
  isAwaitingResponse st = false -> inflight st = [] ->
  (trim (chatInput st) <> [] ->
   let st' :=
     run st (FormSubmit env :: map (StreamChunk 0) deltas
             ++ [StreamError 0]) in
   children <$> wrapper_at (S (length (elements st))) st'
   = Some (Text (lit "Oops! Something went wrong. Please try again."))
   /\ chatHistory st' = chatHistory st
   /\ localStorage st' !! "chatHistory"%string
      = localStorage st !! "chatHistory"%string
   /\ isAwaitingResponse st' = false /\ inflight st' = [])
  /\ (forall lastUserMessage,
        last (List.filter
                (fun m => match Message.role m with
                          | user => true
                          | model => false
                          end) (getMessagesFromDOM env st))
        = Some lastUserMessage ->
        let st' :=
          run st (RegenerateClick env :: map (StreamChunk 0) deltas
                  ++ [StreamError 0]) in
        children <$> wrapper_at (length (elements st)) st'
        = Some (Text (lit "Oops! Something went wrong on regenerate. Please try again."))
        /\ chatHistory st' = chatHistory st
        /\ localStorage st' !! "chatHistory"%string
           = localStorage st !! "chatHistory"%string
        /\ isAwaitingResponse st' = false /\ inflight st' = []).
Proof.
  intros Hbusy Hin. split.
  - intros Hprompt st'.
    destruct (submit_base_frame env st) as (Hh & Hl & Hlen).
    set (placeholder := S (length (elements st))) in *.
    assert (Href : (placeholder
                    < length (elements (submit_base env st)))%nat)
      by (rewrite Hlen; unfold placeholder; lia).
    subst st'. rewrite app_comm_cons, run_app. cbn [run fold_left step].
    rewrite handleFormSubmit_streaming by assumption. fold placeholder.
    fold (run (streaming (submit_base env st) (newId' env)
                 (trim (chatInput st)) placeholder false [] loading_wrapper)
            (map (StreamChunk 0) deltas)).
    destruct (run_chunks_any (submit_base env st) (newId' env)
                (trim (chatInput st)) placeholder false deltas []
                loading_wrapper Href) as (w' & -> & _ & _).
    set (base := submit_base env st) in *. clearbody base.
    unfold stream_error, finish_turn, wrapper_at, update_wrapper, streaming.
    cbn. rewrite list_lookup_insert_eq by assumption. cbn.
    rewrite list_lookup_insert_eq by (rewrite length_insert; assumption).
    repeat split; assumption.
  - intros lastUserMessage Hlast st'.
    destruct (regenerate_base_frame env st) as (Hh & Hl & Hlen).
    set (placeholder := length (elements st)) in *.
    assert (Href : (placeholder
                    < length (elements (regenerate_base env st)))%nat)
      by (rewrite Hlen; unfold placeholder; lia).
    subst st'. rewrite app_comm_cons, run_app. cbn [run fold_left step].
    rewrite (handleRegenerate_streaming env st lastUserMessage)
      by assumption.
    fold placeholder.
    fold (run (streaming (regenerate_base env st) (newId' env)
                 (default [] (head (Message.parts lastUserMessage)))
                 placeholder true [] loading_wrapper)
            (map (StreamChunk 0) deltas)).
    destruct (run_chunks_any (regenerate_base env st) (newId' env)
                (default [] (head (Message.parts lastUserMessage)))
                placeholder true deltas [] loading_wrapper Href)
      as (w' & -> & _ & _).
    set (base := regenerate_base env st) in *. clearbody base.
    unfold stream_error, finish_turn, wrapper_at, update_wrapper, streaming.
    cbn. rewrite list_lookup_insert_eq by assumption. cbn.
    rewrite list_lookup_insert_eq by (rewrite length_insert; assumption).
    rewrite Hl. repeat split; assumption.
Qed.

End Turns.

(** * The busy flag *)

Section BusyGate.

Context {platform : Platform}.

Lemma single_flight_initial (s : Settings.t) :
  single_flight (initial_state s).
Proof. right. split; reflexivity. Qed.

Lemma single_flight_only_turn (st : State) (i : nat) (turn : Turn) :
  single_flight st -> inflight st !! i = Some turn ->
  i = 0%nat /\ inflight st = [turn] /\ isAwaitingResponse st = true.
Proof.
  intros [[Hb Hl]|[_ Hl]] Hi; [|rewrite Hl in Hi; discriminate].
  destruct (inflight st) as [|t [|t' l]]; try discriminate.
  destruct i as [|i]; [|discriminate]. injection Hi as ->. auto.
Qed.

Lemma deleteChat_frame (confirmed : bool) (st : State) :
  isAwaitingResponse (deleteChat confirmed st) = isAwaitingResponse st
  /\ inflight (deleteChat confirmed st) = inflight st.
Proof.
  unfold deleteChat.
  destruct (contextMenuTarget st) as [[[|c t]|]|]; auto.
  destruct confirmed; cbn; auto.
  destruct (strict_eq _ _); cbn; auto.
Qed.

(** Every event keeps the one-stream discipline. *)
Lemma step_single_flight (st : State) (ev : Event) :
  single_flight st -> single_flight (step st ev).
Proof.
  intros Hsf. destruct ev as [v|env|env|i text|i env|i|c|confirmed|]; cbn.
  - exact Hsf.
  - destruct (isAwaitingResponse st) eqn:Hb.
    + unfold handleFormSubmit. now rewrite Hb.
    + destruct Hsf as [[Hb' _]|[_ Hin]]; [congruence|].
      destruct (trim (chatInput st)) as [|c t] eqn:Ht.
      * unfold handleFormSubmit. rewrite Hb, Ht. right. auto.
      * rewrite handleFormSubmit_streaming by (assumption || congruence).
        left. split; reflexivity.
  - destruct (isAwaitingResponse st) eqn:Hb.
    + unfold handleRegenerate. now rewrite Hb.
    + destruct Hsf as [[Hb' _]|[_ Hin]]; [congruence|].
      destruct (last (List.filter
                        (fun m => match Message.role m with
                                  | user => true
                                  | model => false
                                  end) (getMessagesFromDOM env st)))
        as [m|] eqn:Hlast.
      * rewrite (handleRegenerate_streaming env st m) by assumption.
        left. unfold streaming, regenerate_base.
        destruct (last_model_message st); split; reflexivity.
      * unfold handleRegenerate. rewrite Hb, Hlast. right. auto.
  - unfold stream_chunk. destruct (inflight st !! i) as [turn|] eqn:Hi;
      [|exact Hsf].
    destruct (single_flight_only_turn _ _ _ Hsf Hi) as (-> & Hin & Hb).
    destruct (update_wrapper_frame (loadingIndicator turn)
                (fun w => set_innerHTML
                            (parseMarkdown (fullResponse turn ++ text))
                            (set_innerHTML [] w)) st)
      as (Hi' & Hb' & _).
    left. cbn. rewrite Hi', Hb', Hin. split; [assumption | reflexivity].
  - unfold stream_end. destruct (inflight st !! i) as [turn|] eqn:Hi;
      [|exact Hsf].
    destruct (single_flight_only_turn _ _ _ Hsf Hi) as (-> & Hin & Hb).
    right. unfold finish_turn. cbn.
    destruct (saveCurrentChat_frame env (prompt turn)
                (update_wrapper (loadingIndicator turn)
                   (fun w => processCodeBlocks
                               (set_rawText (fullResponse turn) w)) st))
      as (_ & -> & _).
    destruct (update_wrapper_frame (loadingIndicator turn)
                (fun w => processCodeBlocks
                            (set_rawText (fullResponse turn) w)) st)
      as (-> & _).
    rewrite Hin. split; reflexivity.
  - unfold stream_error. destruct (inflight st !! i) as [turn|] eqn:Hi;
      [|exact Hsf].
    destruct (single_flight_only_turn _ _ _ Hsf Hi) as (-> & Hin & Hb).
    right. unfold finish_turn. cbn.
    destruct (update_wrapper_frame (loadingIndicator turn)
                (set_textContent (error_text (regenerating turn))) st)
      as (-> & _).
    rewrite Hin. split; reflexivity.
  - exact Hsf.
  - destruct (deleteChat_frame confirmed st) as [Hb Hi].
    unfold single_flight. now rewrite Hb, Hi.
  - exact Hsf.
Qed.

Lemma run_single_flight (evs : list Event) (st : State) :
  single_flight st -> single_flight (run st evs).
Proof.
  revert st. induction evs as [|ev evs IH]; intros st Hsf; [exact Hsf|].
  cbn [run fold_left]. apply IH, step_single_flight, Hsf.
Qed.

(** C8.  While the flag [isAwaitingResponse] is set, a submission and a
    regenerate request leave the whole state as it is: no message is
    appended to the view and no stream is opened.  In every state the
    client reaches from its start, at most one handler is suspended on a
    stream, and one is exactly when the flag is set. *)
Theorem busy_gate :
  (forall st env,
     isAwaitingResponse st = true ->
     step st (FormSubmit env) = st /\ step st (RegenerateClick env) = st)
  /\ (forall s evs,
        let st := run (initial_state s) evs in
        (length (inflight st) <= 1)%nat
        /\ (isAwaitingResponse st = true <-> inflight st <> [])).
Proof.
  split.
  - intros st env Hb. cbn. unfold handleFormSubmit, handleRegenerate.
    now rewrite Hb.
  - intros s evs st.
    destruct (run_single_flight evs _ (single_flight_initial s))
      as [[Hb Hl]|[Hb Hl]]; fold st in Hb, Hl.
    + split; [lia|]. split; [|auto]. intros _ Hnil.
      rewrite Hnil in Hl. discriminate.
    + rewrite Hl. split; [simpl; lia|]. split; congruence.
Qed.

End BusyGate.

(** * The claims at concrete inputs *)

Lemma busy_gate_witness :
  let st := @run sample_platform sample_ready
              [FormSubmit sample_env; StreamChunk 0 (lit "Hi")] in
  isAwaitingResponse st = true
  /\ @step sample_platform st (FormSubmit sample_env) = st
  /\ @step sample_platform st (RegenerateClick sample_env) = st.
Proof.
  cbv zeta. destruct (@busy_gate sample_platform) as [Hgate _].
  split; [reflexivity|]. apply Hgate. reflexivity.
Defined.

(** The run of the counterexample to C5: the deltas [Hel] and [lo ].  What
    the placeholder shows after the second one is also the concatenation
    of the renders of the two deltas. *)
Lemma streaming_coincides_with_per_delta_renders :
  let st := @run sample_platform sample_ready
              [FormSubmit sample_env; StreamChunk 0 (lit "Hel");
               StreamChunk 0 (lit "lo ")] in
  children <$> wrapper_at 1 st
  = Some (Html (parseMarkdown (lit "Hel") ++ parseMarkdown (lit "lo ")))
  /\ parseMarkdown (lit "Hel" ++ lit "lo ")
     = parseMarkdown (lit "Hel") ++ parseMarkdown (lit "lo ").
Proof. cbv zeta. split; vm_compute; reflexivity. Qed.

Lemma streaming_renders_whole_buffer_witness :
  let st := @run sample_platform sample_ready
              (FormSubmit sample_env
               :: map (StreamChunk 0) [lit "**a"; lit "b**"]) in
  let displayed := children <$> wrapper_at 1 st in
  displayed = Some (Html (lit "<strong>ab</strong>"))
  /\ displayed <> Some (Html (parseMarkdown (lit "b**")))
  /\ displayed
     <> Some (Html (parseMarkdown (lit "**a") ++ parseMarkdown (lit "b**"))).
Proof.
  cbv zeta.
  destruct (@streaming_renders_whole_buffer sample_platform sample_env
              sample_ready [lit "**a"; lit "b**"; lit " and more"] 2)
    as (Hw & _ & Hlast & Hconcat).
  - reflexivity.
  - reflexivity.
  - vm_compute. discriminate.
  - simpl. lia.
  - split; [|split].
    + exact Hw.
    + apply (Hlast (lit "b**")); [reflexivity|]. vm_compute. discriminate.
    + apply Hconcat. vm_compute. discriminate.
Defined.

(** The run of the counterexample to C4: a stream that ends without a
    delta.  The cycle completes and stores the empty raw text, but nothing
    was ever assigned to the placeholder, which still holds the loading
    indicator and not the (empty) render of the stored text. *)
Lemma empty_stream_keeps_loading_indicator :
  let st := @run sample_platform sample_ready
              [FormSubmit sample_env; StreamEnd 0 sample_env] in
  wrapper_at 1 st
  = Some {| children := LoadingDots; rawText := Some [];
            codeBlocksProcessed := true |}
  /\ children <$> wrapper_at 1 st <> Some (Html (parseMarkdown []))
  /\ isAwaitingResponse st = false /\ inflight st = [].
Proof.
  cbv zeta. split; [vm_compute; reflexivity|].
  split; [vm_compute; discriminate|]. split; vm_compute; reflexivity.
Qed.

Lemma finalized_placeholder_renders_raw_text_witness :
  let st := @run sample_platform sample_ready
              (FormSubmit sample_env
               :: map (StreamChunk 0) [lit "a <"; lit "b> c"]
               ++ [StreamEnd 0 sample_env]) in
  wrapper_at 1 st
  = Some {| children := Html (lit "a &lt;b&gt; c");
            rawText := Some (lit "a <b> c"); codeBlocksProcessed := true |}.
Proof.
  cbv zeta.
  destruct (@finalized_placeholder_renders_raw_text sample_platform
              sample_env sample_env sample_ready [lit "a <"; lit "b> c"])
    as (raw & -> & Hw & _).
  - reflexivity.
  - reflexivity.
  - vm_compute. discriminate.
  - discriminate.
  - change (S (length (elements sample_ready))) with 1%nat in Hw.
    rewrite Hw. vm_compute. reflexivity.
Defined.

Lemma stream_error_persists_nothing_witness :
  let st := @run sample_platform sample_ready
              (FormSubmit sample_env
               :: map (StreamChunk 0) [lit "partial "; lit "answ"]
               ++ [StreamError 0]) in
  children <$> wrapper_at 1 st
  = Some (Text (lit "Oops! Something went wrong. Please try again."))
  /\ chatHistory st = []
  /\ localStorage st !! "chatHistory"%string = None.
Proof.
  cbv zeta.
  destruct (@stream_error_persists_nothing sample_platform sample_env
              sample_ready [lit "partial "; lit "answ"] eq_refl eq_refl)
    as [Hsubmit _].
  destruct Hsubmit as (Hw & Hh & Hl & _).
  - vm_compute. discriminate.
  - change (S (length (elements sample_ready))) with 1%nat in Hw.
    split; [exact Hw|]. split; [exact Hh|]. rewrite Hl. reflexivity.
Defined.

Lemma saveCurrentChat_new_session_title_witness :
  let st := fst (appendMessage user (Some (lit "hi")) (lit "id_1")
                   (initial_state sample_settings)) in
  let prompt := lit "0123456789012345678901234567890123456789" in
  exists session,
    chatHistory (@saveCurrentChat sample_platform sample_env prompt st)
    = [session]
    /\ ChatSession.title session = lit "012345678901234567890123456...".
Proof.
  cbv zeta.
  destruct (@saveCurrentChat_new_session_title sample_platform sample_env
              (lit "0123456789012345678901234567890123456789")
              (fst (appendMessage user (Some (lit "hi")) (lit "id_1")
                      (initial_state sample_settings))))
    as (session & Hh & _ & Hlong & _).
  - reflexivity.
  - vm_compute. discriminate.
  - exists session. split; [exact Hh|].
    destruct Hlong as [Ht _]; [vm_compute; lia|]. rewrite Ht.
    vm_compute. reflexivity.
Defined.

Lemma deleteChat_removes_exactly_witness :
  let A := sample_session (lit "chat_2") (lit "second") in
  let B := sample_session (lit "chat_1") (lit "first") in
  let C := sample_session (lit "chat_3") (lit "third") in
  let st := set_contextMenuTarget (Some (Some (lit "chat_2")))
              (set_chatHistory [B; A; C] (initial_state sample_settings)) in
  chatHistory (@deleteChat sample_platform true st) = [B; C].
Proof.
  cbv zeta.
  destruct (@deleteChat_removes_exactly sample_platform
              (set_contextMenuTarget (Some (Some (lit "chat_2")))
                 (set_chatHistory
                    [sample_session (lit "chat_1") (lit "first");
                     sample_session (lit "chat_2") (lit "second");
                     sample_session (lit "chat_3") (lit "third")]
                    (initial_state sample_settings)))
              (sample_session (lit "chat_2") (lit "second")))
    as (_ & _ & Hnodup).
  - right. left. reflexivity.
  - vm_compute. discriminate.
  - reflexivity.
  - destruct Hnodup as (Hh & _).
    + cbn [chatHistory set_contextMenuTarget set_chatHistory map
             ChatSession.id sample_session].
      repeat (apply NoDup_cons_2;
              [rewrite list_elem_of_In; vm_compute; intuition discriminate|]).
      apply NoDup_nil_2.
    + apply (Hh [sample_session (lit "chat_1") (lit "first")]
                [sample_session (lit "chat_3") (lit "third")]).
      reflexivity.
Defined.

(** * Documents *)

Lemma forallb_Forall_true (f : N -> bool) (s : jsstring) :
  forallb f s = true -> Forall (fun c => f c = true) s.
Proof.
  induction s as [|c s IH]; simpl; [constructor|].
  intros [Hc Hs]%andb_true_iff. constructor; auto.
Qed.

(** Escaping keeps every property of code units that the units of the two
    entities have. *)
Lemma escapeHTML_forallb (f : N -> bool) (s : jsstring) :
  forallb f (lit "&lt;&gt;") = true -> forallb f s = true ->
  Forall (fun c => f c = true) (escapeHTML s).
Proof.
  intros Hent Hs. rewrite escapeHTML_flat_map.
  apply forallb_Forall_true in Hs.
  induction Hs as [|c s Hc Hs IH]; [constructor|].
  cbn [flat_map]. apply Forall_app. split; [|exact IH].
  unfold escape_char.
  destruct (c =? LT); [|destruct (c =? GT)].
  - apply forallb_Forall_true.
    change (lit "&lt;&gt;") with (lit "&lt;" ++ lit "&gt;") in Hent.
    rewrite forallb_app in Hent. now apply andb_true_iff in Hent as [? _].
  - apply forallb_Forall_true.
    change (lit "&lt;&gt;") with (lit "&lt;" ++ lit "&gt;") in Hent.
    rewrite forallb_app in Hent. now apply andb_true_iff in Hent as [_ ?].
  - constructor; [exact Hc | constructor].
Qed.

Lemma escapeHTML_nonempty (s : jsstring) :
  nonempty s = true -> nonempty (escapeHTML s) = true.
Proof.
  rewrite escapeHTML_flat_map. destruct s as [|c s]; [discriminate|].
  intros _. cbn [flat_map]. unfold escape_char.
  destruct (c =? LT); [reflexivity|]. destruct (c =? GT); reflexivity.
Qed.

Lemma nonempty_cons (s : jsstring) :
  nonempty s = true -> exists c t, s = c :: t.
Proof. destruct s as [|c t]; [discriminate | eauto]. Qed.

(** A global replace copies a text that holds no first code unit of the
    pattern. *)
Lemma replace_g_skip_ne (m : matcher) (k : N) (a b : jsstring) :
  consuming m ->
  (forall c t, c <> k -> m (c :: t) = None) ->
  Forall (fun c => c <> k) a ->
  replace_g m (a ++ b) = a ++ replace_g m b.
Proof.
  intros Hm Hstart Ha.
  apply (replace_g_skip m (fun c => c =? k)); [assumption| |].
  - intros c t Hc. apply Hstart. now apply N.eqb_neq.
  - eapply List.Forall_impl; [|exact Ha]. intros c Hc. now apply N.eqb_neq.
Qed.

Lemma bold_match_first (c : N) (t : jsstring) :
  c <> STAR -> bold_match (c :: t) = None.
Proof.
  intros Hc. unfold bold_match.
  now rewrite strip_prefix_head_ne by congruence.
Qed.

Lemma italic_match_first (c : N) (t : jsstring) :
  c <> STAR -> italic_match (c :: t) = None.
Proof.
  intros Hc. unfold italic_match.
  now rewrite strip_prefix_head_ne by congruence.
Qed.

Lemma inline_code_match_first (c : N) (t : jsstring) :
  c <> BACKTICK -> inline_code_match (c :: t) = None.
Proof.
  intros Hc. unfold inline_code_match.
  now rewrite strip_prefix_head_ne by congruence.
Qed.

Lemma link_match_first (c : N) (t : jsstring) :
  c <> LBRACKET -> link_match (c :: t) = None.
Proof.
  intros Hc. unfold link_match.
  now rewrite strip_prefix_head_ne by congruence.
Qed.

(** Code units that a text does not hold, by computation on the literal
    parts and from the class of the others. *)
Lemma avoids_literal (k : N) (s : jsstring) :
  forallb (fun c => negb (c =? k)) s = true -> Forall (fun c => c <> k) s.
Proof.
  intros H. apply forallb_Forall_true in H.
  eapply List.Forall_impl; [|exact H].
  intros c Hc. now apply N.eqb_neq, negb_true_iff.
Qed.

Lemma avoids_class (f : N -> bool) (k : N) (s : jsstring) :
  f k = false -> Forall (fun c => f c = true) s -> Forall (fun c => c <> k) s.
Proof.
  intros Hk H. eapply List.Forall_impl; [|exact H].
  intros c Hc ->. congruence.
Qed.

Lemma codeblock_token_digits (k : nat) :
  exists index,
    codeblock_token k = lit "__CODEBLOCK_" ++ index ++ [UNDERSCORE; UNDERSCORE]
    /\ index <> [] /\ Forall (fun c => is_digit c = true) index
    /\ parseInt index = k.
Proof.
  exists (number_to_string (N.of_nat k)).
  destruct (number_to_string_digits (N.of_nat k)) as [Hne Hd].
  repeat split; try assumption.
  now rewrite parseInt_number_to_string, Nat2N.id.
Qed.

Lemma codeblock_token_avoids (x : N) (k : nat) :
  token_char x = false -> Forall (fun c => c <> x) (codeblock_token k).
Proof.
  intros Hx. destruct (codeblock_token_digits k) as (index & -> & _ & Hd & _).
  assert (Hlit : forall s, forallb token_char s = true ->
                           Forall (fun c => c <> x) s).
  { intros s Hs. apply (avoids_class token_char); [assumption|].
    now apply forallb_Forall_true. }
  repeat (apply Forall_app; split).
  - now apply Hlit.
  - apply (avoids_class token_char); [assumption|].
    eapply List.Forall_impl; [|exact Hd]. apply is_digit_token_char.
  - now apply Hlit.
Qed.

Lemma plain_text_spec (s : jsstring) :
  plain_text s = true ->
  Forall (fun c => prose_char c = true) s /\ underscores_apart s = true.
Proof.
  unfold plain_text. intros [H1 H2]%andb_true_iff.
  split; [now apply forallb_Forall_true | assumption].
Qed.

Lemma underscores_apart_cons (c : N) (s : jsstring) :
  c <> UNDERSCORE -> underscores_apart (c :: s) = underscores_apart s.
Proof.
  intros Hc. cbn [underscores_apart].
  now rewrite (proj2 (N.eqb_neq c UNDERSCORE)) by assumption.
Qed.

Lemma escapeHTML_cons (c : N) (s : jsstring) :
  escapeHTML (c :: s) = escape_char c ++ escapeHTML s.
Proof. now rewrite !escapeHTML_flat_map. Qed.

Lemma escapeHTML_underscores_apart (s : jsstring) :
  underscores_apart s = true -> underscores_apart (escapeHTML s) = true.
Proof.
  induction s as [|c s IH]; [reflexivity|].
  intros H. rewrite escapeHTML_cons. unfold escape_char.
  destruct (N.eqb_spec c LT) as [->|Hlt];
    [|destruct (N.eqb_spec c GT) as [->|Hgt]].
  - rewrite underscores_apart_cons in H by discriminate.
    cbn [lit map list_ascii_of_string app].
    rewrite !underscores_apart_cons by discriminate. auto.
  - rewrite underscores_apart_cons in H by discriminate.
    cbn [lit map list_ascii_of_string app].
    rewrite !underscores_apart_cons by discriminate. auto.
  - cbn [app]. cbn [underscores_apart] in H |- *.
    apply andb_true_iff in H as [Hc Hs]. rewrite IH by assumption.
    rewrite andb_true_r. destruct (c =? UNDERSCORE); [|reflexivity].
    destruct s as [|d s]; [discriminate|]. rewrite escapeHTML_cons.
    unfold escape_char.
    destruct (d =? LT); [reflexivity|]. destruct (d =? GT); [reflexivity|].
    exact Hc.
Qed.

Lemma plain_text_escaped (s : jsstring) :
  plain_text s = true -> plain (escapeHTML s).
Proof.
  intros [H1 H2]%andb_true_iff. split.
  - now apply escapeHTML_forallb.
  - now apply escapeHTML_underscores_apart.
Qed.

(** What well-formedness says of the escaped texts of a piece. *)
Lemma well_formed_escaped (p : piece) (next : list piece) :
  well_formed_piece p next = true ->
  match p with
  | Prose t => nonempty (escapeHTML t) = true /\ plain (escapeHTML t)
  | Bold b =>
      plain (escapeHTML b)
      /\ Forall (fun c => is_dot c = true) (escapeHTML b)
  | Italic b =>
      nonempty (escapeHTML b) = true /\ plain (escapeHTML b)
      /\ Forall (fun c => is_dot c = true) (escapeHTML b)
      /\ starts_with_star next = false
  | Code b => nonempty (escapeHTML b) = true /\ plain (escapeHTML b)
  | Link t u =>
      nonempty (escapeHTML t) = true /\ plain (escapeHTML t)
      /\ Forall (fun c => negb (c =? RBRACKET) = true) (escapeHTML t)
      /\ nonempty (escapeHTML u) = true /\ plain (escapeHTML u)
      /\ Forall (fun c => negb (c =? RPAREN) = true) (escapeHTML u)
  | Fence lang body =>
      Forall (fun c => is_word c = true) lang
      /\ Forall (fun c => c <> BACKTICK) body
  end.
Proof.
  destruct p as [t|b|b|b|t u|lang body]; cbn [well_formed_piece];
    rewrite ?andb_true_iff, ?negb_true_iff; intros H;
    repeat match goal with H : _ /\ _ |- _ => destruct H end;
    repeat split;
    try (apply escapeHTML_nonempty; assumption);
    try (apply plain_text_escaped; assumption);
    try (apply escapeHTML_forallb; [reflexivity | assumption]);
    try assumption.
  - now apply forallb_Forall_true.
  - apply avoids_literal. assumption.
Qed.

Ltac avoid :=
  first [ assumption
        | apply codeblock_token_avoids; reflexivity
        | apply avoids_literal; reflexivity
        | match goal with
          | H : Forall (fun c => @?f c = true) ?s |- Forall _ ?s =>
              apply (avoids_class f _ s); [reflexivity | exact H]
          | H : plain ?s |- Forall _ ?s =>
              apply (avoids_class prose_char _ s);
              [reflexivity | exact (proj1 H)]
          end
        | apply Forall_app; split; avoid ].

Lemma stage_cons (n k : nat) (p : piece) (ps : list piece) :
  stage n k (p :: ps) = piece_text n k p ++ stage n (next_index k p) ps.
Proof. reflexivity. Qed.

Lemma strip_star_star (rest : jsstring) :
  (forall c t, rest = c :: t -> c <> STAR) ->
  strip_prefix [STAR; STAR] (STAR :: rest) = None.
Proof.
  intros H. cbn [strip_prefix]. change (STAR =? STAR) with true. cbn iota.
  destruct rest as [|c t]; [reflexivity|].
  now rewrite (proj2 (N.eqb_neq STAR c)) by (intros Hc; now apply (H c t)).
Qed.

(** The text of pieces of which the first is not emphasised does not
    start with a star. *)
Lemma stage_head_not_star (k : nat) (ps : list piece) :
  well_formed ps = true -> starts_with_star ps = false ->
  strip_prefix [STAR; STAR] (STAR :: stage 0 k ps) = None.
Proof.
  intros Hwf Hstar. apply strip_star_star.
  destruct ps as [|p ps]; [discriminate|].
  cbn [well_formed] in Hwf. apply andb_true_iff in Hwf as [Hp _].
  apply well_formed_escaped in Hp.
  rewrite stage_cons.
  destruct p as [t|b|b|b|t u|lang body]; try discriminate Hstar;
    cbn [piece_text Nat.leb].
  - destruct Hp as [Hne [Hp _]].
    apply nonempty_cons in Hne as (c & s & Hs). rewrite Hs in *.
    apply Forall_cons in Hp as [Hc _].
    intros c' t' [= <- _] ->. discriminate Hc.
  - intros c' t' [= <- _]. discriminate.
  - intros c' t' [= <- _]. discriminate.
  - intros c' t' [= <- _]. discriminate.
Qed.

Lemma strip_prefix_one (k : N) (rest : jsstring) :
  strip_prefix [k] (k :: rest) = Some rest.
Proof. apply (strip_prefix_app [k]). Qed.

Lemma inline_body (b : jsstring) :
  plain b -> Forall (fun c => is_dot c = true) b ->
  Forall (fun c => c <> STAR /\ is_dot c = true) b.
Proof.
  intros [Hb _] Hd. apply Forall_forall. intros c Hc. split.
  - eapply Forall_forall in Hb; [|exact Hc]. intros ->. discriminate Hb.
  - eapply Forall_forall in Hd; [exact Hd | exact Hc].
Qed.

Lemma bold_match_complete (b rest : jsstring) :
  plain b -> Forall (fun c => is_dot c = true) b ->
  bold_match ([STAR; STAR] ++ b ++ [STAR; STAR] ++ rest)
  = Some (lit "<strong>" ++ b ++ lit "</strong>", rest).
Proof.
  intros Hb Hd. unfold bold_match. rewrite strip_prefix_app.
  rewrite (until_complete [STAR; STAR] is_dot STAR); [reflexivity..|].
  now apply inline_body.
Qed.

Lemma italic_match_complete (b rest : jsstring) :
  plain b -> Forall (fun c => is_dot c = true) b ->
  italic_match ([STAR] ++ b ++ [STAR] ++ rest)
  = Some (lit "<em>" ++ b ++ lit "</em>", rest).
Proof.
  intros Hb Hd. unfold italic_match. rewrite strip_prefix_app.
  rewrite (until_complete [STAR] is_dot STAR); [reflexivity..|].
  now apply inline_body.
Qed.

Lemma inline_code_match_complete (b rest : jsstring) :
  nonempty b = true -> plain b ->
  inline_code_match ([BACKTICK] ++ b ++ [BACKTICK] ++ rest)
  = Some (lit "<code>" ++ b ++ lit "</code>", rest).
Proof.
  intros Hne [Hb _]. unfold inline_code_match. rewrite strip_prefix_app.
  change ([BACKTICK] ++ rest) with (BACKTICK :: rest).
  rewrite span_app_stop.
  - apply nonempty_cons in Hne as (c & t & ->).
    now rewrite strip_prefix_one.
  - eapply List.Forall_impl; [|exact Hb]. intros c Hc.
    apply negb_true_iff, N.eqb_neq. intros ->. discriminate Hc.
  - reflexivity.
Qed.

Lemma link_match_complete (t u rest : jsstring) :
  nonempty t = true ->
  Forall (fun c => negb (c =? RBRACKET) = true) t ->
  nonempty u = true ->
  Forall (fun c => negb (c =? RPAREN) = true) u ->
  link_match ([LBRACKET] ++ t ++ [RBRACKET; LPAREN] ++ u ++ [RPAREN] ++ rest)
  = Some (anchor_markup u t, rest).
Proof.
  intros Hnt Ht Hnu Hu. unfold link_match. rewrite strip_prefix_app.
  change ([RBRACKET; LPAREN] ++ u ++ [RPAREN] ++ rest)
    with (RBRACKET :: ([LPAREN] ++ u ++ [RPAREN] ++ rest)).
  rewrite span_app_stop.
  - apply nonempty_cons in Hnt as (c & t' & ->).
    change (RBRACKET :: [LPAREN] ++ u ++ [RPAREN] ++ rest)
      with ([RBRACKET; LPAREN] ++ u ++ [RPAREN] ++ rest).
    rewrite strip_prefix_app.
    change ([RPAREN] ++ rest) with (RPAREN :: rest).
    rewrite span_app_stop.
    + apply nonempty_cons in Hnu as (d & u' & ->).
      now rewrite strip_prefix_one.
    + exact Hu.
    + reflexivity.
  - exact Ht.
  - reflexivity.
Qed.

(** The bold pattern does not match at the stars of an italic piece that
    no star follows. *)
Lemma bold_over_italic (b rest : jsstring) :
  nonempty b = true -> plain b ->
  strip_prefix [STAR; STAR] (STAR :: rest) = None ->
  replace_g bold_match ([STAR] ++ b ++ [STAR] ++ rest)
  = [STAR] ++ b ++ [STAR] ++ replace_g bold_match rest.
Proof.
  intros Hne Hpl Hrest. pose proof (proj1 Hpl) as Hb.
  change ([STAR] ++ b ++ [STAR] ++ rest) with (STAR :: (b ++ [STAR] ++ rest)).
  rewrite replace_g_unfold by auto with render.
  assert (bold_match (STAR :: b ++ [STAR] ++ rest) = None) as ->.
  { apply nonempty_cons in Hne as (c & s & ->).
    apply Forall_cons in Hb as [Hc _].
    unfold bold_match. cbn [app].
    rewrite strip_star_star; [reflexivity|].
    intros ? ? [= <- _] ->. discriminate Hc. }
  rewrite (replace_g_skip_ne _ STAR);
    auto using bold_match_first with render; [|avoid].
  change ([STAR] ++ rest) with (STAR :: rest).
  rewrite replace_g_unfold by auto with render.
  unfold bold_match at 1. now rewrite Hrest.
Qed.

Lemma bold_pass (ps : list piece) :
  forall k, well_formed ps = true ->
  replace_g bold_match (stage 0 k ps) = stage 1 k ps.
Proof.
  induction ps as [|p ps IH]; intros k Hwf; [reflexivity|].
  cbn [well_formed] in Hwf. apply andb_true_iff in Hwf as [Hp Hps].
  pose proof (well_formed_escaped _ _ Hp) as He.
  rewrite !stage_cons. specialize (IH (next_index k p) Hps).
  destruct p as [t|b|b|b|t u|lang body];
    cbn [piece_text Nat.leb next_index html_of] in *;
    repeat match goal with H : _ /\ _ |- _ => destruct H end.
  - rewrite (replace_g_skip_ne _ STAR), IH;
      auto using bold_match_first with render. avoid.
  - rewrite <- !app_assoc, replace_g_unfold by auto with render.
    rewrite bold_match_complete by assumption.
    now rewrite IH, <- !app_assoc.
  - rewrite <- !app_assoc, bold_over_italic, IH;
      auto using stage_head_not_star.
  - rewrite (replace_g_skip_ne _ STAR), IH;
      auto using bold_match_first with render. avoid.
  - rewrite (replace_g_skip_ne _ STAR), IH;
      auto using bold_match_first with render. avoid.
  - rewrite (replace_g_skip_ne _ STAR), IH;
      auto using bold_match_first with render. avoid.
Qed.

Lemma italic_pass (ps : list piece) :
  forall k, well_formed ps = true ->
  replace_g italic_match (stage 1 k ps) = stage 2 k ps.
Proof.
  induction ps as [|p ps IH]; intros k Hwf; [reflexivity|].
  cbn [well_formed] in Hwf. apply andb_true_iff in Hwf as [Hp Hps].
  pose proof (well_formed_escaped _ _ Hp) as He.
  rewrite !stage_cons. specialize (IH (next_index k p) Hps).
  destruct p as [t|b|b|b|t u|lang body];
    cbn [piece_text Nat.leb next_index html_of] in *;
    repeat match goal with H : _ /\ _ |- _ => destruct H end.
  - rewrite (replace_g_skip_ne _ STAR), IH;
      auto using italic_match_first with render. avoid.
  - rewrite (replace_g_skip_ne _ STAR), IH;
      auto using italic_match_first with render. avoid.
  - rewrite <- !app_assoc, replace_g_unfold by auto with render.
    rewrite italic_match_complete by assumption.
    now rewrite IH, <- !app_assoc.
  - rewrite (replace_g_skip_ne _ STAR), IH;
      auto using italic_match_first with render. avoid.
  - rewrite (replace_g_skip_ne _ STAR), IH;
      auto using italic_match_first with render. avoid.
  - rewrite (replace_g_skip_ne _ STAR), IH;
      auto using italic_match_first with render. avoid.
Qed.

Lemma inline_code_pass (ps : list piece) :
  forall k, well_formed ps = true ->
  replace_g inline_code_match (stage 2 k ps) = stage 3 k ps.
Proof.
  induction ps as [|p ps IH]; intros k Hwf; [reflexivity|].
  cbn [well_formed] in Hwf. apply andb_true_iff in Hwf as [Hp Hps].
  pose proof (well_formed_escaped _ _ Hp) as He.
  rewrite !stage_cons. specialize (IH (next_index k p) Hps).
  destruct p as [t|b|b|b|t u|lang body];
    cbn [piece_text Nat.leb next_index html_of] in *;
    repeat match goal with H : _ /\ _ |- _ => destruct H end.
  - rewrite (replace_g_skip_ne _ BACKTICK), IH;
      auto using inline_code_match_first with render. avoid.
  - rewrite (replace_g_skip_ne _ BACKTICK), IH;
      auto using inline_code_match_first with render. avoid.
  - rewrite (replace_g_skip_ne _ BACKTICK), IH;
      auto using inline_code_match_first with render. avoid.
  - rewrite <- !app_assoc, replace_g_unfold by auto with render.
    rewrite inline_code_match_complete by assumption.
    now rewrite IH, <- !app_assoc.
  - rewrite (replace_g_skip_ne _ BACKTICK), IH;
      auto using inline_code_match_first with render. avoid.
  - rewrite (replace_g_skip_ne _ BACKTICK), IH;
      auto using inline_code_match_first with render. avoid.
Qed.

Lemma link_pass (ps : list piece) :
  forall k, well_formed ps = true ->
  replace_g link_match (stage 3 k ps) = stage 4 k ps.
Proof.
  induction ps as [|p ps IH]; intros k Hwf; [reflexivity|].
  cbn [well_formed] in Hwf. apply andb_true_iff in Hwf as [Hp Hps].
  pose proof (well_formed_escaped _ _ Hp) as He.
  rewrite !stage_cons. specialize (IH (next_index k p) Hps).
  destruct p as [t|b|b|b|t u|lang body];
    cbn [piece_text Nat.leb next_index html_of] in *;
    repeat match goal with H : _ /\ _ |- _ => destruct H end.
  - rewrite (replace_g_skip_ne _ LBRACKET), IH;
      auto using link_match_first with render. avoid.
  - rewrite (replace_g_skip_ne _ LBRACKET), IH;
      auto using link_match_first with render. avoid.
  - rewrite (replace_g_skip_ne _ LBRACKET), IH;
      auto using link_match_first with render. avoid.
  - rewrite (replace_g_skip_ne _ LBRACKET), IH;
      auto using link_match_first with render. avoid.
  - rewrite <- !app_assoc, replace_g_unfold by auto with render.
    rewrite link_match_complete by assumption.
    now rewrite IH.
  - rewrite (replace_g_skip_ne _ LBRACKET), IH;
      auto using link_match_first with render. avoid.
Qed.

Lemma inlineTransforms_stage (ps : list piece) (k : nat) :
  well_formed ps = true -> inlineTransforms (stage 0 k ps) = stage 4 k ps.
Proof.
  intros Hwf. unfold inlineTransforms.
  now rewrite bold_pass, italic_pass, inline_code_pass, link_pass.
Qed.

(** The restore pass copies a text in which every underscore is followed
    by another code unit. *)
Lemma restore_skip_apart (phs : list jsstring) (s rest : jsstring) :
  underscores_apart s = true ->
  replace_g (restore_match phs) (s ++ rest)
  = s ++ replace_g (restore_match phs) rest.
Proof.
  induction s as [|c s IH]; [reflexivity|].
  cbn [underscores_apart]. intros [Hc Hs]%andb_true_iff.
  cbn [app]. rewrite replace_g_unfold by auto with render.
  assert (restore_match phs (c :: s ++ rest) = None) as ->.
  { unfold restore_match.
    destruct (N.eqb_spec c UNDERSCORE) as [->|Hne].
    - destruct s as [|d s]; [discriminate|].
      apply negb_true_iff, N.eqb_neq in Hc.
      cbn [app lit map list_ascii_of_string strip_prefix].
      change (N_of_ascii "_") with UNDERSCORE.
      change (UNDERSCORE =? UNDERSCORE) with true. cbn iota.
      now rewrite (proj2 (N.eqb_neq UNDERSCORE d)) by congruence.
    - change (lit "__CODEBLOCK_") with (UNDERSCORE :: lit "_CODEBLOCK_").
      now rewrite strip_prefix_head_ne by congruence. }
  now rewrite IH.
Qed.

Lemma restore_skip_plain (phs : list jsstring) (s rest : jsstring) :
  plain s ->
  replace_g (restore_match phs) (s ++ rest)
  = s ++ replace_g (restore_match phs) rest.
Proof. intros [_ H]. now apply restore_skip_apart. Qed.

Lemma restore_skip_literal (phs : list jsstring) (s rest : jsstring) :
  forallb (fun c => negb (c =? UNDERSCORE)) s = true ->
  replace_g (restore_match phs) (s ++ rest)
  = s ++ replace_g (restore_match phs) rest.
Proof. intros H. apply restore_skip. now apply avoids_literal. Qed.

Ltac restore_copy :=
  rewrite <- ?app_assoc;
  repeat first [ rewrite restore_skip_plain by assumption
               | rewrite restore_skip_literal by reflexivity ].

(** The only underscore of the anchor's own text is that of [_blank],
    which starts no placeholder token. *)
Lemma restore_over_anchor (phs : list jsstring) (u t rest : jsstring) :
  plain u -> plain t ->
  replace_g (restore_match phs) (anchor_markup u t ++ rest)
  = anchor_markup u t ++ replace_g (restore_match phs) rest.
Proof.
  intros Hu Ht. unfold anchor_markup. restore_copy.
  match goal with
  | |- context [replace_g (restore_match phs) (lit "_blank" ++ ?x)] =>
      change (lit "_blank" ++ x) with (UNDERSCORE :: (lit "blank" ++ x));
      rewrite (replace_g_unfold _ (UNDERSCORE :: (lit "blank" ++ x)))
        by auto with render;
      assert (restore_match phs (UNDERSCORE :: (lit "blank" ++ x)) = None)
        as -> by reflexivity
  end.
  restore_copy. reflexivity.
Qed.

Lemma restore_pass (ps : list piece) :
  forall prefix, well_formed ps = true ->
  replace_g (restore_match (prefix ++ markups ps))
    (stage 4 (length prefix) ps)
  = document_html ps.
Proof.
  induction ps as [|p ps IH]; intros prefix Hwf; [reflexivity|].
  cbn [well_formed] in Hwf. apply andb_true_iff in Hwf as [Hp Hps].
  pose proof (well_formed_escaped _ _ Hp) as He.
  rewrite stage_cons. unfold document_html. cbn [map concat].
  fold (document_html ps).
  destruct p as [t|b|b|b|t u|lang body];
    cbn [piece_text Nat.leb next_index html_of markups flat_map app] in *;
    fold (markups ps);
    repeat match goal with H : _ /\ _ |- _ => destruct H end.
  - restore_copy. now rewrite IH.
  - restore_copy. now rewrite IH.
  - restore_copy. now rewrite IH.
  - restore_copy. now rewrite IH.
  - rewrite restore_over_anchor, IH by assumption. reflexivity.
  - destruct (codeblock_token_digits (length prefix))
      as (index & -> & Hne & Hd & Hk).
    rewrite <- !app_assoc, restore_token by assumption.
    f_equal.
    + unfold placeholder_at. rewrite Hk.
      now rewrite nth_error_app2, Nat.sub_diag by lia.
    + specialize (IH (prefix ++ [code_block_markup lang
                                   (escapeHTML (trim body))]) Hps).
      rewrite length_app, Nat.add_1_r, <- app_assoc in IH. exact IH.
Qed.

(** What well-formedness says of the texts of a piece as written. *)
Lemma well_formed_raw (p : piece) (next : list piece) :
  well_formed_piece p next = true ->
  match p with
  | Code b => nonempty b = true /\ Forall (fun c => c <> BACKTICK) b
  | Fence lang body =>
      Forall (fun c => is_word c = true) lang
      /\ Forall (fun c => c <> BACKTICK) body
  | _ => Forall (fun c => c <> BACKTICK) (source_of p)
  end.
Proof.
  destruct p as [t|b|b|b|t u|lang body]; cbn [well_formed_piece source_of];
    rewrite ?andb_true_iff, ?negb_true_iff; intros H;
    repeat match goal with H : _ /\ _ |- _ => destruct H end;
    repeat match goal with
      | H : plain_text _ = true |- _ => apply plain_text_spec in H as [H _]
      | H : forallb _ _ = true |- _ => apply forallb_Forall_true in H
      end.
  - avoid.
  - avoid.
  - avoid.
  - split; [assumption | avoid].
  - avoid.
  - split; [assumption|].
    eapply List.Forall_impl; [|eassumption].
    intros c Hc. now apply N.eqb_neq, negb_true_iff.
Qed.

(** The backtick that closes inline code opens no fence, whatever piece
    follows. *)
Lemma fence_after_code (ps : list piece) :
  well_formed ps = true ->
  fence_match (BACKTICK :: document_source ps) = None.
Proof.
  destruct ps as [|p ps]; [reflexivity|].
  cbn [well_formed]. intros [Hp _]%andb_true_iff.
  unfold document_source. cbn [map concat].
  assert (Hne : forall c rest,
            c <> BACKTICK -> fence_match (BACKTICK :: c :: rest) = None).
  { intros c rest Hc. unfold fence_match. cbn [strip_prefix lit map
      list_ascii_of_string]. change (N_of_ascii "`") with BACKTICK.
    change (BACKTICK =? BACKTICK) with true. cbn iota.
    now rewrite (proj2 (N.eqb_neq BACKTICK c)) by congruence. }
  destruct p as [t|b|b|b|t u|lang body]; cbn [source_of];
    cbn [well_formed_piece] in Hp; rewrite ?andb_true_iff in Hp.
  - destruct Hp as [Hn Hp]. apply nonempty_cons in Hn as (c & s & ->).
    apply plain_text_spec in Hp as [Hp _]. apply Forall_cons in Hp as [Hc _].
    apply Hne. intros ->. discriminate Hc.
  - now apply Hne.
  - now apply Hne.
  - destruct Hp as [Hn Hp]. apply nonempty_cons in Hn as (c & s & ->).
    apply plain_text_spec in Hp as [Hp _]. apply Forall_cons in Hp as [Hc _].
    cbn [app]. unfold fence_match. cbn [strip_prefix lit map
      list_ascii_of_string]. change (N_of_ascii "`") with BACKTICK.
    change (BACKTICK =? BACKTICK) with true. cbn iota.
    now rewrite (proj2 (N.eqb_neq BACKTICK c))
      by (intros <-; discriminate Hc).
  - now apply Hne.
  - reflexivity.
Qed.

Lemma document_source_cons (p : piece) (ps : list piece) :
  document_source (p :: ps) = source_of p ++ document_source ps.
Proof. reflexivity. Qed.

Lemma extract_document (ps : list piece) :
  forall phs, well_formed ps = true ->
  extract_blocks phs (document_source ps)
  = (processed (length phs) ps, phs ++ markups ps).
Proof.
  induction ps as [|p ps IH]; intros phs Hwf.
  - cbn. now rewrite app_nil_r.
  - cbn [well_formed] in Hwf. apply andb_true_iff in Hwf as [Hp Hps].
    pose proof (well_formed_raw _ _ Hp) as Hr.
    rewrite document_source_cons.
    assert (Hplain : forall p', Forall (fun c => c <> BACKTICK) (source_of p') ->
              next_index (length phs) p' = length phs ->
              markups (p' :: ps) = markups ps ->
              extract_blocks phs (source_of p' ++ document_source ps)
              = (source_of p' ++ processed (length phs) ps,
                 phs ++ markups ps)).
    { intros p' Hs _ _. rewrite extract_blocks_skip by assumption.
      now rewrite IH. }
    destruct p as [t|b|b|b|t u|lang body]; cbn [processed next_index];
      try (now apply Hplain).
    + destruct Hr as [Hn Hb']. cbn [source_of].
      rewrite <- !app_assoc.
      change ([BACKTICK] ++ b ++ [BACKTICK] ++ document_source ps)
        with (BACKTICK :: (b ++ BACKTICK :: document_source ps)).
      rewrite extract_blocks_unfold.
      assert (fence_match (BACKTICK :: b ++ BACKTICK :: document_source ps)
              = None) as ->.
      { apply nonempty_cons in Hn as (c & s & ->).
        apply Forall_cons in Hb' as [Hc _].
        unfold fence_match. cbn [app strip_prefix lit map
          list_ascii_of_string]. change (N_of_ascii "`") with BACKTICK.
        change (BACKTICK =? BACKTICK) with true. cbn iota.
        now rewrite (proj2 (N.eqb_neq BACKTICK c)) by congruence. }
      rewrite extract_blocks_skip by assumption. cbn [fst snd].
      rewrite extract_blocks_unfold, fence_after_code by assumption.
      rewrite IH by assumption. cbn [fst snd]. reflexivity.
    + destruct Hr as [Hl Hb]. cbn [source_of].
      rewrite extract_blocks_unfold, fence_match_complete by assumption.
      cbn zeta. rewrite IH by assumption. cbn [fst snd].
      rewrite length_app, Nat.add_1_r. cbn [Nat.sub].
      rewrite Nat.sub_0_r, <- app_assoc. reflexivity.
Qed.

Lemma escape_processed (ps : list piece) :
  forall k, escapeHTML (processed k ps) = stage 0 k ps.
Proof.
  induction ps as [|p ps IH]; intros k; [reflexivity|].
  cbn [processed]. rewrite stage_cons, escapeHTML_app, IH. f_equal.
  assert (Hid : forall s, forallb (fun c => negb (c =? LT) && negb (c =? GT)) s
                          = true -> escapeHTML s = s).
  { intros s Hs. apply escapeHTML_id. apply forallb_Forall_true in Hs.
    eapply List.Forall_impl; [|exact Hs]. intros c Hc.
    apply andb_true_iff in Hc as [H1 H2].
    split; now apply N.eqb_neq, negb_true_iff. }
  destruct p as [t|b|b|b|t u|lang body];
    cbn [source_of piece_text Nat.leb];
    rewrite ?escapeHTML_app, ?Hid by reflexivity; try reflexivity.
  apply escapeHTML_id.
  pose proof (codeblock_token_avoids LT k eq_refl) as H1.
  pose proof (codeblock_token_avoids GT k eq_refl) as H2.
  apply Forall_forall. intros c Hc. split.
  - eapply Forall_forall in H1; eassumption.
  - eapply Forall_forall in H2; eassumption.
Qed.

Lemma parseMarkdown_document (ps : list piece) :
  well_formed ps = true ->
  parseMarkdown (document_source ps) = document_html ps.
Proof.
  intros Hwf. unfold parseMarkdown, extractCodeBlocks.
  rewrite extract_document by assumption.
  rewrite escape_processed, inlineTransforms_stage by assumption.
  now apply (restore_pass ps []).
Qed.

(** * More on the renderer *)

Lemma replace_g_nil (m : matcher) : m [] = None -> replace_g m [] = [].
Proof. intros H. unfold replace_g. cbn. now rewrite H. Qed.

Lemma replace_g_id_ne (m : matcher) (k : N) (a : jsstring) :
  consuming m -> m [] = None ->
  (forall c t, c <> k -> m (c :: t) = None) ->
  Forall (fun c => c <> k) a -> replace_g m a = a.
Proof.
  intros Hm Hnil Hstart Ha.
  rewrite <- (app_nil_r a) at 1.
  rewrite (replace_g_skip_ne m k) by assumption.
  now rewrite replace_g_nil, app_nil_r.
Qed.

Lemma until_none (stop : jsstring) (ok : N -> bool) (k : N) (p s : jsstring) :
  stop = k :: p -> Forall (fun c => c <> k) s -> until stop ok s = None.
Proof.
  intros -> Hs. induction Hs as [|c s Hc Hs IH]; [reflexivity|].
  rewrite until_unfold, strip_prefix_head_ne by congruence.
  rewrite IH. now destruct (ok c).
Qed.

(** Three backticks that no further backtick follows open no fence and no
    inline code. *)
Lemma fence_match_open (rest : jsstring) :
  Forall (fun c => c <> BACKTICK) rest ->
  fence_match (lit "```" ++ rest) = None.
Proof.
  intros Hr. unfold fence_match. rewrite strip_prefix_app.
  destruct (span is_word rest) as [lang s2] eqn:Hspan.
  apply span_spec in Hspan as (-> & _ & _).
  apply Forall_app in Hr as [_ Hr].
  destruct (strip_prefix [NEWLINE] s2) as [s3|] eqn:Hs3; [|reflexivity].
  apply strip_prefix_Some in Hs3 as ->.
  apply Forall_app in Hr as [_ Hr].
  now rewrite (until_none _ _ BACKTICK (lit "``")).
Qed.

Lemma extract_open_fence (phs : list jsstring) (rest : jsstring) :
  Forall (fun c => c <> BACKTICK) rest ->
  extract_blocks phs (lit "```" ++ rest) = (lit "```" ++ rest, phs).
Proof.
  intros Hr.
  assert (Htail : extract_blocks phs rest = (rest, phs)).
  { rewrite <- (app_nil_r rest) at 1. rewrite extract_blocks_skip by assumption.
    cbn. now rewrite app_nil_r. }
  assert (H2 : fence_match (lit "``" ++ rest) = None
               /\ fence_match (lit "`" ++ rest) = None).
  { unfold fence_match.
    change (lit "```") with [BACKTICK; BACKTICK; BACKTICK].
    change (lit "``" ++ rest) with (BACKTICK :: BACKTICK :: rest).
    change (lit "`" ++ rest) with (BACKTICK :: rest).
    cbn [strip_prefix]. change (BACKTICK =? BACKTICK) with true. cbn iota.
    destruct Hr as [|c t Hc _]; [split; reflexivity|].
    rewrite (proj2 (N.eqb_neq BACKTICK c)) by congruence.
    split; [reflexivity|]. now destruct (BACKTICK =? c). }
  destruct H2 as [H2 H1].
  change (lit "```" ++ rest) with (BACKTICK :: (lit "``" ++ rest)).
  rewrite extract_blocks_unfold.
  change (BACKTICK :: (lit "``" ++ rest)) with (lit "```" ++ rest).
  rewrite fence_match_open by assumption.
  change (lit "``" ++ rest) with (BACKTICK :: (lit "`" ++ rest)).
  rewrite extract_blocks_unfold.
  change (BACKTICK :: (lit "`" ++ rest)) with (lit "``" ++ rest).
  rewrite H2.
  change (lit "`" ++ rest) with (BACKTICK :: rest).
  rewrite extract_blocks_unfold.
  change (BACKTICK :: rest) with (lit "`" ++ rest).
  rewrite H1.
  now rewrite Htail.
Qed.

Lemma inline_code_open (rest : jsstring) :
  Forall (fun c => c <> BACKTICK) rest ->
  replace_g inline_code_match (lit "```" ++ rest) = lit "```" ++ rest.
Proof.
  intros Hr.
  assert (Hspan : span (fun c => negb (c =? BACKTICK)) rest = (rest, [])).
  { induction Hr as [|c s Hc Hs IH]; [reflexivity|].
    cbn [span]. rewrite (proj2 (N.eqb_neq c BACKTICK)) by assumption.
    cbn [negb]. now rewrite IH. }
  assert (Hnone : forall s,
            inline_code_match (BACKTICK :: BACKTICK :: s) = None).
  { intros s. unfold inline_code_match. rewrite strip_prefix_one.
    cbn [span]. change (BACKTICK =? BACKTICK) with true. reflexivity. }
  change (lit "```" ++ rest) with (BACKTICK :: (lit "``" ++ rest)).
  rewrite replace_g_unfold by auto with render.
  change (BACKTICK :: (lit "``" ++ rest))
    with (BACKTICK :: BACKTICK :: (lit "`" ++ rest)).
  rewrite Hnone.
  change (BACKTICK :: BACKTICK :: (lit "`" ++ rest))
    with (BACKTICK :: (lit "``" ++ rest)).
  change (lit "``" ++ rest) with (BACKTICK :: (lit "`" ++ rest)).
  rewrite replace_g_unfold by auto with render.
  change (BACKTICK :: (lit "`" ++ rest)) with (BACKTICK :: BACKTICK :: rest).
  rewrite Hnone.
  change (lit "`" ++ rest) with (BACKTICK :: rest).
  rewrite replace_g_unfold by auto with render.
  assert (inline_code_match (BACKTICK :: rest) = None) as ->.
  { unfold inline_code_match. rewrite strip_prefix_one, Hspan.
    now destruct rest. }
  now rewrite (replace_g_id_ne _ BACKTICK)
    by auto using inline_code_match_first with render.
Qed.

Lemma parseMarkdown_open_fence (pre rest : jsstring) :
  plain_text pre = true -> plain_text rest = true ->
  parseMarkdown (pre ++ lit "```" ++ rest)
  = escapeHTML pre ++ lit "```" ++ escapeHTML rest.
Proof.
  intros Hpre Hrest.
  pose proof (plain_text_spec _ Hpre) as [Hp _].
  pose proof (plain_text_spec _ Hrest) as [Hr _].
  apply plain_text_escaped in Hpre, Hrest.
  unfold parseMarkdown, extractCodeBlocks.
  rewrite extract_blocks_skip by avoid.
  rewrite extract_open_fence by avoid. cbn [fst snd].
  rewrite !escapeHTML_app.
  change (escapeHTML (lit "```")) with (lit "```").
  set (epre := escapeHTML pre) in *. set (erest := escapeHTML rest) in *.
  assert (Hstar : Forall (fun c => c <> STAR) (epre ++ lit "```" ++ erest))
    by avoid.
  assert (Hbr : Forall (fun c => c <> LBRACKET) (epre ++ lit "```" ++ erest))
    by avoid.
  unfold inlineTransforms.
  rewrite (replace_g_id_ne bold_match STAR)
    by auto using bold_match_first with render.
  rewrite (replace_g_id_ne italic_match STAR)
    by auto using italic_match_first with render.
  rewrite (replace_g_skip_ne inline_code_match BACKTICK)
    by (auto using inline_code_match_first with render; avoid).
  rewrite inline_code_open by avoid.
  rewrite (replace_g_id_ne link_match LBRACKET)
    by auto using link_match_first with render.
  rewrite restore_skip_plain by assumption.
  rewrite restore_skip_literal by reflexivity.
  rewrite <- (app_nil_r erest) at 1.
  rewrite restore_skip_plain by assumption.
  now rewrite app_nil_r.
Qed.

(** * The older renderer *)

Lemma trim_start_split (s : jsstring) :
  exists ws, s = ws ++ trim_start s
             /\ Forall (fun c => is_trim_space c = true) ws.
Proof.
  induction s as [|c s (ws & IH & Hws)]; [exists []; auto|].
  cbn [trim_start]. destruct (is_trim_space c) eqn:Hc.
  - exists (c :: ws). split; [cbn; congruence | constructor; assumption].
  - exists []. auto.
Qed.

Lemma trim_split (s : jsstring) :
  exists front back,
    s = front ++ trim s ++ back
    /\ Forall (fun c => is_trim_space c = true) back.
Proof.
  destruct (trim_start_split s) as (front & Hs & _).
  destruct (trim_start_split (rev (trim_start s))) as (ws & Hr & Hws).
  exists front, (rev ws). split.
  - unfold trim. rewrite <- rev_app_distr, <- Hr, rev_involutive. exact Hs.
  - apply List.Forall_forall. intros c Hc. apply in_rev in Hc.
    eapply List.Forall_forall in Hws; eassumption.
Qed.

Lemma trim_no_lt (s : jsstring) :
  Forall (fun c => c <> LT) s -> Forall (fun c => c <> LT) (trim s).
Proof.
  intros Hs. destruct (trim_split s) as (front & back & Heq & _).
  rewrite Heq in Hs. apply Forall_app in Hs as [_ Hs].
  now apply Forall_app in Hs as [Hs _].
Qed.

Lemma fence_replace_consuming : consuming Legacy.fence_replace.
Proof.
  intros s r rest H. unfold Legacy.fence_replace in H.
  destruct (fence_match s) as [[[lang code] rest']|] eqn:Hm; [|discriminate].
  injection H as _ <-. eapply fence_match_consuming, Hm.
Qed.

Lemma code_block_markup_tag_safe (lang code : jsstring) :
  Forall (fun c => is_word c = true) lang -> tag_safe code = true ->
  tag_safe (code_block_markup lang code) = true.
Proof.
  intros Hl Hc. unfold code_block_markup.
  rewrite (app_assoc (lit "<pre><code class=")), (app_assoc _ (lit "language-")).
  repeat (apply tag_safe_app; [first [reflexivity | assumption | idtac]|]);
    [|reflexivity].
  destruct lang; [reflexivity|]. apply tag_safe_no_lt.
  eapply List.Forall_impl; [|exact Hl]. apply is_word_not_lt.
Qed.

(** The fence pass of [index.tsx] runs on escaped text: the only [<] of
    its result are those of the code-block markup. *)
Lemma legacy_fence_pass_safe (s : jsstring) :
  Forall (fun c => c <> LT) s ->
  tag_safe (replace_g Legacy.fence_replace s) = true.
Proof.
  apply (replace_g_ind Legacy.fence_replace (fun s out =>
    Forall (fun c => c <> LT) s -> tag_safe out = true)).
  - apply fence_replace_consuming.
  - reflexivity.
  - intros c t _ IH H. apply Forall_cons in H as [Hc Ht]. cbn [tag_safe].
    apply N.eqb_neq in Hc. rewrite Hc. now apply IH.
  - intros s' r rest H IH Hs. unfold Legacy.fence_replace in H.
    destruct (fence_match s') as [[[lang code] rest']|] eqn:Hm;
      [|discriminate].
    injection H as <- <-. apply fence_match_spec in Hm as (-> & Hl).
    apply tag_safe_app.
    + apply code_block_markup_tag_safe; [assumption|].
      apply tag_safe_no_lt, trim_no_lt.
      rewrite !app_assoc in Hs. apply Forall_app in Hs as [Hs _].
      apply Forall_app in Hs as [Hs _]. now apply Forall_app in Hs as [_ Hs].
    + apply IH. rewrite !app_assoc in Hs. now apply Forall_app in Hs as [_ Hs].
Qed.

Lemma legacy_tag_safe (text : jsstring) :
  tag_safe (Legacy.parseMarkdown text) = true.
Proof.
  unfold Legacy.parseMarkdown.
  apply (replace_g_tag_safe _ inline_code_match_consuming
           inline_code_match_start inline_code_match_safe).
  apply (replace_g_tag_safe _ italic_match_consuming italic_match_start
           italic_match_safe).
  apply (replace_g_tag_safe _ bold_match_consuming bold_match_start
           bold_match_safe).
  apply legacy_fence_pass_safe.
  eapply List.Forall_impl; [|apply (escapeHTML_no_angle text)].
  simpl. tauto.
Qed.

(** * Further properties of the renderer *)

Lemma escapeHTML_length (s : jsstring) :
  length (escapeHTML s) = (length s + 3 * angle_brackets s)%nat.
Proof.
  rewrite escapeHTML_flat_map. unfold angle_brackets.
  induction s as [|c s IH]; [reflexivity|].
  cbn [flat_map List.filter]. rewrite length_app, IH. unfold escape_char.
  destruct (c =? LT); [cbn; lia|]. destruct (c =? GT); cbn; lia.
Qed.

(** X1.  [escapeHTML], written as two global replaces, is one pass that
    puts [&lt;] for every [<] and [&gt;] for every [>] and copies every
    other code unit (ampersands and quotes included).  Its result holds no
    angle bracket, is four code units long for each bracket, and is not
    changed by escaping again; escaping distributes over concatenation. *)
Theorem escapeHTML_replaces_angle_brackets (html : jsstring) :
  escapeHTML html = flat_map escape_char html
  /\ Forall (fun c => c <> LT /\ c <> GT) (escapeHTML html)
  /\ length (escapeHTML html) = (length html + 3 * angle_brackets html)%nat
  /\ escapeHTML (escapeHTML html) = escapeHTML html
  /\ (forall more,
        escapeHTML (html ++ more) = escapeHTML html ++ escapeHTML more).
Proof.
  split; [apply escapeHTML_flat_map|].
  split; [apply escapeHTML_no_angle|].
  split; [apply escapeHTML_length|].
  split; [apply escapeHTML_idempotent|].
  intros more. apply escapeHTML_app.
Qed.


(** X3.  Three backticks that no closing fence follows start no code
    block: in plain text they and what follows them are shown as written
    (escaped), which is what a reader sees while a fenced block is still
    being streamed. *)
Theorem parseMarkdown_unclosed_fence (pre rest : jsstring) :
  plain_text pre = true -> plain_text rest = true ->
  parseMarkdown (pre ++ lit "```" ++ rest)
  = escapeHTML pre ++ lit "```" ++ escapeHTML rest.
Proof. apply parseMarkdown_open_fence. Qed.

(** X4.  The token minted for the block of index [k] is restored to the
    [k]-th markup of the list, for every [k] (the decimal numeral of [k] is
    read back as [k]), and to [undefined] when the list has no such
    entry. *)
Theorem minted_token_restores_block (phs : list jsstring) (k : nat)
    (rest : jsstring) :
  replace_g (restore_match phs) (codeblock_token k ++ rest)
  = match nth_error phs k with
    | Some markup => markup
    | None => lit "undefined"
    end ++ replace_g (restore_match phs) rest.
Proof.
  destruct (codeblock_token_digits k) as (index & -> & Hne & Hd & Hk).
  rewrite <- !app_assoc, restore_token by assumption.
  unfold placeholder_at. now rewrite Hk.
Qed.

(** X5.  The url of a link is copied between the double quotes of [href]
    without a double quote in it being escaped: what follows a quote in
    the url lies outside the attribute's value. *)
Theorem link_url_quote_ends_href (txt u v : jsstring) :
  well_formed [Link txt (u ++ [QUOTE] ++ v)] = true ->
  parseMarkdown
    ([LBRACKET] ++ txt ++ [RBRACKET; LPAREN] ++ u ++ [QUOTE] ++ v ++ [RPAREN])
  = lit "<a href=" ++ [QUOTE] ++ escapeHTML u ++ [QUOTE] ++ escapeHTML v
    ++ [QUOTE] ++ lit " target=" ++ [QUOTE] ++ lit "_blank" ++ [QUOTE]
    ++ lit " rel=" ++ [QUOTE] ++ lit "noopener noreferrer" ++ [QUOTE]
    ++ lit ">" ++ escapeHTML txt ++ lit "</a>".
Proof.
  intros Hwf. apply parseMarkdown_document in Hwf.
  unfold document_source, document_html in Hwf.
  cbn [map concat source_of html_of] in Hwf.
  rewrite !app_nil_r, <- !app_assoc in Hwf. rewrite Hwf.
  unfold anchor_markup. rewrite !escapeHTML_app, <- !app_assoc.
  reflexivity.
Qed.

(** X6.  The older renderer of [index.tsx], too, writes no tag but its
    own: wherever its result has a [<], one of the renderer's tags starts
    (of the code block or of the inline styles; it has no links), so the
    result never holds [<script>]. *)
Theorem legacy_parseMarkdown_writes_own_tags (text : jsstring) :
  (forall before after,
     Legacy.parseMarkdown text = before ++ LT :: after ->
     exists tag rest, In tag renderer_tags /\ LT :: after = tag ++ rest)
  /\ ~ contains (lit "<script>") (Legacy.parseMarkdown text).
Proof.
  split; [apply tag_safe_spec, legacy_tag_safe|].
  apply tag_safe_no_script, legacy_tag_safe.
Qed.


Lemma parseMarkdown_unclosed_fence_witness :
  parseMarkdown (lit "Here: ```js" ++ [NEWLINE] ++ lit "let x = a<b;")
  = lit "Here: ```js" ++ [NEWLINE] ++ lit "let x = a&lt;b;".
Proof.
  exact (parseMarkdown_unclosed_fence (lit "Here: ")
           (lit "js" ++ [NEWLINE] ++ lit "let x = a<b;") eq_refl eq_refl).
Defined.

Lemma link_url_quote_ends_href_witness :
  parseMarkdown
    (lit "[x](u" ++ [QUOTE] ++ lit " onclick=" ++ [QUOTE] ++ lit "f" ++ lit ")")
  = lit "<a href=" ++ [QUOTE] ++ lit "u" ++ [QUOTE] ++ lit " onclick="
    ++ [QUOTE] ++ lit "f" ++ [QUOTE] ++ lit " target=" ++ [QUOTE]
    ++ lit "_blank" ++ [QUOTE] ++ lit " rel=" ++ [QUOTE]
    ++ lit "noopener noreferrer" ++ [QUOTE] ++ lit ">x</a>".
Proof.
  exact (link_url_quote_ends_href (lit "x") (lit "u")
           (lit " onclick=" ++ [QUOTE] ++ lit "f") eq_refl).
Defined.

(** * The view and what is scraped from it *)

Section Scrape.

Context {platform : Platform}.

Lemma getMessagesFromDOM_flat_map (env : Env) (st : State) :
  getMessagesFromDOM env st
  = flat_map (fun ref => match elements st !! ref with
                         | Some el => scrape_element env el
                         | None => []
                         end) (chatContainer st).
Proof.
  unfold getMessagesFromDOM, scrape_element. apply flat_map_ext.
  intros ref. destruct (elements st !! ref) as [el|]; [|reflexivity].
  now destruct (scraped_text (contentWrapper el)).
Qed.

(** The scrape depends on the elements that the container refers to. *)
Lemma getMessagesFromDOM_ext (env : Env) (st st' : State) :
  chatContainer st' = chatContainer st ->
  Forall (fun ref => elements st' !! ref = elements st !! ref)
    (chatContainer st) ->
  getMessagesFromDOM env st' = getMessagesFromDOM env st.
Proof.
  intros Hc He. rewrite !getMessagesFromDOM_flat_map, Hc. clear Hc.
  revert He. generalize (chatContainer st). intros l He.
  induction He as [|ref l Href _ IH]; [reflexivity|].
  cbn [flat_map]. now rewrite Href, IH.
Qed.

Lemma getMessagesFromDOM_appendMessage (env : Env) (r : Role)
    (content : option jsstring) (mid : jsstring) (st : State) :
  container_valid st ->
  let st' := fst (appendMessage r content mid st) in
  container_valid st'
  /\ getMessagesFromDOM env st'
     = getMessagesFromDOM env st
       ++ match content with
          | Some ((_ :: _) as text) =>
              [ {| Message.id := match mid with [] => newId env | m => m end;
                   Message.role := r;
                   Message.parts := [text];
                   Message.timestamp := now env;
                   Message.reactions := None;
                   Message.isBookmarked := None;
                   Message.threadId := None |} ]
          | _ => []
          end.
Proof.
  intros Hv st'. split.
  - unfold container_valid, st', appendMessage. cbn.
    rewrite length_app. cbn. apply Forall_app. split.
    + eapply List.Forall_impl; [|exact Hv]. cbn. lia.
    + constructor; [lia | constructor].
  - rewrite !getMessagesFromDOM_flat_map. unfold st', appendMessage. cbn.
    rewrite flat_map_app. f_equal.
    + unfold container_valid in Hv. revert Hv.
      generalize (chatContainer st). intros l Hv.
      induction Hv as [|ref l Href _ IH]; [reflexivity|].
      cbn [flat_map]. rewrite IH.
      now rewrite lookup_app_l by assumption.
    + cbn [flat_map]. rewrite app_nil_r.
      rewrite lookup_app_r by lia. rewrite Nat.sub_diag. cbn.
      unfold scrape_element. cbn.
      destruct content as [[|c t]|], mid; reflexivity.
Qed.

End Scrape.

Section LoadSession.

Context {platform : Platform}.

Lemma append_messages_frame (gen : nat -> jsstring) (msgs : list Message.t) :
  forall i st,
    match append_messages gen i msgs st with
    | Normal st' | Throw _ st' =>
        currentChatId st' = currentChatId st
        /\ chatHistory st' = chatHistory st
        /\ localStorage st' = localStorage st
    end.
Proof.
  induction msgs as [|m msgs IH]; intros i st; [cbn; auto|].
  cbn [append_messages]. destruct (Message.parts m) as [|text ps]; [cbn; auto|].
  specialize (IH (S i) (fst (appendMessage (Message.role m) (Some text)
                               match Message.id m with
                               | [] => gen i
                               | mid => mid
                               end st))).
  destruct (append_messages _ _ _ _); exact IH.
Qed.

Lemma append_messages_scrape (env : Env) (gen : nat -> jsstring)
    (msgs : list Message.t) :
  (forall i, gen i <> []) ->
  Forall (fun m => Message.parts m <> []) msgs ->
  forall i st, container_valid st ->
    exists st',
      append_messages gen i msgs st = Normal st'
      /\ container_valid st'
      /\ getMessagesFromDOM env st'
         = getMessagesFromDOM env st ++ scraped_messages env gen i msgs.
Proof.
  intros Hgen Hparts. induction Hparts as [|m msgs Hm _ IH]; intros i st Hv.
  - exists st. cbn. now rewrite app_nil_r.
  - cbn [append_messages scraped_messages].
    destruct (Message.parts m) as [|text ps] eqn:Hp; [contradiction|].
    set (mid := match Message.id m with [] => gen i | mid => mid end).
    destruct (getMessagesFromDOM_appendMessage env (Message.role m)
                (Some text) mid st Hv) as [Hv' Hs].
    destruct (IH (S i) _ Hv') as (st' & Hrun & Hv'' & Hscrape).
    exists st'. split; [exact Hrun|]. split; [exact Hv''|].
    rewrite Hscrape, Hs, <- app_assoc. f_equal. f_equal.
    unfold scraped_message. rewrite Hp.
    destruct text as [|c t]; [reflexivity|]. f_equal. f_equal.
    subst mid. destruct (Message.id m) as [|c' t'] eqn:Hid; [|reflexivity].
    specialize (Hgen i). now destruct (gen i).
Qed.

Lemma append_messages_throws (gen : nat -> jsstring) (msgs : list Message.t) :
  Exists (fun m => Message.parts m = []) msgs ->
  forall i st, exists st', append_messages gen i msgs st = Throw TypeError st'.
Proof.
  induction msgs as [|m msgs IH]; intros Hex i st.
  - inversion Hex.
  - cbn [append_messages].
    destruct (Message.parts m) as [|text ps] eqn:Hp; [eauto|].
    apply IH. apply List.Exists_cons in Hex as [Hex|Hex]; [congruence|exact Hex].
Qed.

Lemma scraped_messages_complete (env : Env) (gen : nat -> jsstring)
    (msgs : list Message.t) :
  Forall (fun m => Message.id m <> []
                   /\ exists text, Message.parts m = [text] /\ text <> [])
    msgs ->
  forall i,
    scraped_messages env gen i msgs
    = map (fun m => {| Message.id := Message.id m;
                       Message.role := Message.role m;
                       Message.parts := Message.parts m;
                       Message.timestamp := now env;
                       Message.reactions := None;
                       Message.isBookmarked := None;
                       Message.threadId := None |}) msgs.
Proof.
  induction 1 as [|m msgs (Hid & text & Hp & Ht) _ IH]; intros i;
    [reflexivity|].
  cbn [scraped_messages map]. rewrite IH. unfold scraped_message.
  rewrite Hp. destruct text as [|c t]; [contradiction|].
  destruct (Message.id m); [contradiction | reflexivity].
Qed.

(** X7.  Loading a stored chat and reading the view back gives the stored
    messages with their ids, roles and first texts, but with the time of
    the reading as timestamp and without reactions, bookmark flags and
    thread ids; a message whose first text is empty is not read back.
    When a stored message has no part at all, the loop throws a
    [TypeError] after the current chat has been switched. *)
Theorem loadChatSession_then_scrape (env : Env) (gen : nat -> jsstring)
    (chatId : jsstring) (session : ChatSession.t) (st : State) :
  (forall i, gen i <> []) ->
  find_session chatId (chatHistory st) = Some session ->
  (Forall (fun m => Message.parts m <> []) (ChatSession.messages session) ->
   exists st',
     loadChatSession gen chatId st = Normal st'
     /\ currentChatId st' = Some chatId
     /\ chatHistory st' = chatHistory st
     /\ getMessagesFromDOM env st'
        = scraped_messages env gen 0 (ChatSession.messages session)
     /\ (Forall (fun m => Message.id m <> []
                          /\ exists text,
                               Message.parts m = [text] /\ text <> [])
           (ChatSession.messages session) ->
         getMessagesFromDOM env st'
         = map (fun m => {| Message.id := Message.id m;
                            Message.role := Message.role m;
                            Message.parts := Message.parts m;
                            Message.timestamp := now env;
                            Message.reactions := None;
                            Message.isBookmarked := None;
                            Message.threadId := None |})
             (ChatSession.messages session)))
  /\ (Exists (fun m => Message.parts m = []) (ChatSession.messages session) ->
      exists st',
        loadChatSession gen chatId st = Throw TypeError st'
        /\ currentChatId st' = Some chatId).
Proof.
  intros Hgen Hfind. unfold loadChatSession. rewrite Hfind.
  set (st0 := set_chatContainer [] (set_currentChatId (Some chatId) st)).
  pose proof (append_messages_frame gen (ChatSession.messages session) 0 st0)
    as Hframe.
  split.
  - intros Hparts.
    destruct (append_messages_scrape env gen _ Hgen Hparts 0 st0)
      as (st' & Hrun & _ & Hscrape); [constructor|].
    rewrite Hrun in Hframe. destruct Hframe as (Hc & Hh & _).
    exists st'. split; [exact Hrun|]. split; [exact Hc|].
    split; [exact Hh|]. split; [exact Hscrape|].
    intros Hcomplete. rewrite Hscrape.
    now apply scraped_messages_complete.
  - intros Hex.
    destruct (append_messages_throws gen _ Hex 0 st0) as (st' & Hrun).
    rewrite Hrun in Hframe. destruct Hframe as (Hc & _).
    exists st'. split; [exact Hrun | exact Hc].
Qed.

End LoadSession.

(** * In-place updates of the collection *)

Lemma find_session_split (chatId : jsstring) (h : list ChatSession.t)
    (session : ChatSession.t) :
  find_session chatId h = Some session ->
  exists l1 l2,
    h = l1 ++ session :: l2
    /\ ChatSession.id session = chatId
    /\ Forall (fun s => ChatSession.id s <> chatId) l1.
Proof.
  unfold find_session. induction h as [|s h IH]; [discriminate|].
  cbn [List.find]. unfold jsstring_eqb at 1.
  destruct (bool_decide_reflect (ChatSession.id s = chatId)) as [Heq|Hne].
  - intros [= ->]. exists [], h. auto.
  - intros Hf. destruct (IH Hf) as (l1 & l2 & -> & Hid & Hl1).
    exists (s :: l1), l2. auto.
Qed.

Lemma find_session_None (chatId : jsstring) (h : list ChatSession.t) :
  find_session chatId h = None ->
  Forall (fun s => ChatSession.id s <> chatId) h.
Proof.
  unfold find_session. induction h as [|s h IH]; [constructor|].
  cbn [List.find]. unfold jsstring_eqb at 1.
  destruct (bool_decide_reflect (ChatSession.id s = chatId)) as [Heq|Hne];
    [discriminate|]. auto.
Qed.

Lemma update_session_skip (chatId : jsstring)
    (f : ChatSession.t -> ChatSession.t) (l1 l2 : list ChatSession.t) :
  Forall (fun s => ChatSession.id s <> chatId) l1 ->
  update_session chatId f (l1 ++ l2) = l1 ++ update_session chatId f l2.
Proof.
  induction 1 as [|s l1 Hs _ IH]; [reflexivity|].
  cbn [app update_session]. unfold jsstring_eqb at 1.
  now rewrite bool_decide_eq_false_2, IH by assumption.
Qed.

Lemma update_session_found (chatId : jsstring)
    (f : ChatSession.t -> ChatSession.t) (l1 l2 : list ChatSession.t)
    (session : ChatSession.t) :
  Forall (fun s => ChatSession.id s <> chatId) l1 ->
  ChatSession.id session = chatId ->
  update_session chatId f (l1 ++ session :: l2) = l1 ++ f session :: l2.
Proof.
  intros Hl1 Hid. rewrite update_session_skip by assumption.
  cbn [update_session]. unfold jsstring_eqb.
  now rewrite bool_decide_eq_true_2.
Qed.

Lemma update_session_absent (chatId : jsstring)
    (f : ChatSession.t -> ChatSession.t) (h : list ChatSession.t) :
  Forall (fun s => ChatSession.id s <> chatId) h ->
  update_session chatId f h = h.
Proof.
  intros Hh. rewrite <- (app_nil_r h) at 1.
  rewrite update_session_skip by assumption. cbn. apply app_nil_r.
Qed.

(** An update that keeps a field of the session keeps that field of all
    sessions. *)
Lemma update_session_map {A : Type} (proj : ChatSession.t -> A)
    (chatId : jsstring) (f : ChatSession.t -> ChatSession.t)
    (h : list ChatSession.t) :
  (forall s, proj (f s) = proj s) ->
  map proj (update_session chatId f h) = map proj h.
Proof.
  intros Hf. induction h as [|s h IH]; [reflexivity|].
  cbn [update_session]. destruct (jsstring_eqb _ _); cbn [map].
  - now rewrite Hf.
  - now rewrite IH.
Qed.

Section InPlace.

Context {platform : Platform}.

(** The update branch of [saveCurrentChat] is an in-place update. *)
Lemma saveCurrentChat_existing (env : Env) (prompt cur : jsstring)
    (st : State) :
  currentChatId st = Some cur -> cur <> [] ->
  getMessagesFromDOM env st <> [] ->
  saveCurrentChat env prompt st
  = saveHistoryToStorage
      (set_chatHistory
         (update_session cur
            (fun s => set_updatedAt (now env)
                        (set_messages (getMessagesFromDOM env st) s))
            (chatHistory st)) st).
Proof.
  intros Hcur Hne Hm. unfold saveCurrentChat. rewrite Hcur.
  destruct (getMessagesFromDOM env st) as [|m ms]; [contradiction|].
  destruct cur as [|c cur]; [contradiction|].
  cbv zeta. f_equal. f_equal.
  induction (chatHistory st) as [|s h IH]; [reflexivity|].
  cbn [update_session]. rewrite IH.
  destruct (jsstring_eqb (ChatSession.id s) (c :: cur)); reflexivity.
Qed.

(** X8.  Saving a chat that is already in the collection changes the
    first session with the current id in place: it gets the messages read
    from the view and the time of the save as [updatedAt].  Its title, id
    and creation time, every other session and the order of the
    collection stay (the prompt is not looked at), and the result is
    persisted.  Without a session of that id the collection is
    persisted as it is. *)
Theorem saveCurrentChat_updates_in_place (env : Env) (prompt cur : jsstring)
    (st : State) :
  currentChatId st = Some cur -> cur <> [] ->
  getMessagesFromDOM env st <> [] ->
  let st' := saveCurrentChat env prompt st in
  currentChatId st' = Some cur
  /\ map ChatSession.id (chatHistory st') = map ChatSession.id (chatHistory st)
  /\ map ChatSession.title (chatHistory st')
     = map ChatSession.title (chatHistory st)
  /\ map ChatSession.createdAt (chatHistory st')
     = map ChatSession.createdAt (chatHistory st)
  /\ localStorage st' !! "chatHistory"%string
     = Some (JSON_stringify (chatHistory st'))
  /\ (forall session,
        find_session cur (chatHistory st) = Some session ->
        exists l1 l2,
          chatHistory st = l1 ++ session :: l2
          /\ chatHistory st'
             = l1 ++ set_updatedAt (now env)
                       (set_messages (getMessagesFromDOM env st) session)
                  :: l2)
  /\ (find_session cur (chatHistory st) = None ->
      chatHistory st' = chatHistory st).
Proof.
  intros Hcur Hne Hm st'. subst st'.
  rewrite (saveCurrentChat_existing env prompt cur) by assumption.
  cbn [saveHistoryToStorage set_localStorage set_chatHistory currentChatId
         chatHistory localStorage].
  split; [exact Hcur|].
  split; [now apply update_session_map|].
  split; [now apply update_session_map|].
  split; [now apply update_session_map|].
  split; [now rewrite lookup_insert_eq|]. split.
  - intros session Hf.
    apply find_session_split in Hf as (l1 & l2 & Hh & Hid & Hl1).
    exists l1, l2. split; [exact Hh|]. rewrite Hh.
    now rewrite update_session_found by assumption.
  - intros Hf. now apply update_session_absent, find_session_None.
Qed.

End InPlace.

Section Flags.

Context {platform : Platform}.

Lemma togglePinChat_history (env : Env) (st : State) (chatId : jsstring)
    (session : ChatSession.t) :
  chatId <> [] -> contextMenuTarget st = Some (Some chatId) ->
  find_session chatId (chatHistory st) = Some session ->
  togglePinChat env st
  = hideContextMenu
      (saveHistoryToStorage
         (set_chatHistory
            (update_session chatId
               (fun s => set_updatedAt (now env)
                           (set_isPinned (negb (ChatSession.isPinned s)) s))
               (chatHistory st)) st)).
Proof.
  intros Hne Ht Hf. unfold togglePinChat. rewrite Ht.
  destruct chatId as [|c t]; [contradiction|]. now rewrite Hf.
Qed.

Lemma toggleArchiveChat_history (env : Env) (st : State) (chatId : jsstring)
    (session : ChatSession.t) :
  chatId <> [] -> contextMenuTarget st = Some (Some chatId) ->
  find_session chatId (chatHistory st) = Some session ->
  toggleArchiveChat env st
  = hideContextMenu
      (saveHistoryToStorage
         (set_chatHistory
            (update_session chatId
               (fun s => set_updatedAt (now env)
                           (set_isArchived (negb (ChatSession.isArchived s))
                              s))
               (chatHistory st)) st)).
Proof.
  intros Hne Ht Hf. unfold toggleArchiveChat. rewrite Ht.
  destruct chatId as [|c t]; [contradiction|]. now rewrite Hf.
Qed.

Lemma find_session_found (chatId : jsstring) (l1 l2 : list ChatSession.t)
    (session : ChatSession.t) :
  Forall (fun s => ChatSession.id s <> chatId) l1 ->
  ChatSession.id session = chatId ->
  find_session chatId (l1 ++ session :: l2) = Some session.
Proof.
  intros Hl1 Hid. unfold find_session.
  induction Hl1 as [|s l1 Hs _ IH]; cbn [app List.find]; unfold jsstring_eqb.
  - now rewrite bool_decide_eq_true_2.
  - rewrite bool_decide_eq_false_2 by assumption. exact IH.
Qed.

(** X9.  [togglePinChat] and [toggleArchiveChat] flip the flag of the
    first session with the menu target's id, stamp it with the time of the
    call, persist the collection and close the menu; no other session and
    no other field changes.  Pinning twice gives back the pin flags of
    the whole collection.  The bookmark button of the header flips the
    same flag as pinning: on the current chat it changes the collection
    exactly as pinning that chat does. *)
Theorem pin_and_archive_toggles (env : Env) (st : State) (chatId : jsstring)
    (session : ChatSession.t) :
  chatId <> [] -> contextMenuTarget st = Some (Some chatId) ->
  find_session chatId (chatHistory st) = Some session ->
  let pinned := togglePinChat env st in
  let archived := toggleArchiveChat env st in
  exists l1 l2,
    chatHistory st = l1 ++ session :: l2
    /\ chatHistory pinned
       = l1 ++ set_updatedAt (now env)
                 (set_isPinned (negb (ChatSession.isPinned session)) session)
            :: l2
    /\ chatHistory archived
       = l1 ++ set_updatedAt (now env)
                 (set_isArchived (negb (ChatSession.isArchived session))
                    session)
            :: l2
    /\ localStorage pinned !! "chatHistory"%string
       = Some (JSON_stringify (chatHistory pinned))
    /\ localStorage archived !! "chatHistory"%string
       = Some (JSON_stringify (chatHistory archived))
    /\ contextMenuTarget pinned = None
    /\ contextMenuTarget archived = None
    /\ (forall env',
          map ChatSession.isPinned
            (chatHistory
               (togglePinChat env'
                  (set_contextMenuTarget (Some (Some chatId)) pinned)))
          = map ChatSession.isPinned (chatHistory st))
    /\ (currentChatId st = Some chatId ->
        chatHistory (toggleBookmarkChat env st) = chatHistory pinned).
Proof.
  intros Hne Ht Hf pinned archived. subst pinned archived.
  rewrite (togglePinChat_history env st chatId session) by assumption.
  rewrite (toggleArchiveChat_history env st chatId session) by assumption.
  pose proof Hf as Hsplit.
  apply find_session_split in Hsplit as (l1 & l2 & Hh & Hid & Hl1).
  exists l1, l2. split; [exact Hh|].
  cbn [hideContextMenu saveHistoryToStorage set_localStorage set_chatHistory
         set_contextMenuTarget chatHistory localStorage contextMenuTarget].
  rewrite Hh, !update_session_found by assumption.
  split; [reflexivity|]. split; [reflexivity|].
  rewrite !lookup_insert_eq.
  split; [reflexivity|]. split; [reflexivity|].
  split; [reflexivity|]. split; [reflexivity|]. split.
  - intros env'.
    set (session' := set_updatedAt (now env)
                       (set_isPinned (negb (ChatSession.isPinned session))
                          session)).
    rewrite (togglePinChat_history env' _ chatId session').
    + cbn [hideContextMenu saveHistoryToStorage set_localStorage
             set_chatHistory set_contextMenuTarget chatHistory].
      rewrite update_session_found by assumption.
      rewrite !map_app. cbn [map set_updatedAt set_isPinned
        ChatSession.isPinned session'].
      now rewrite negb_involutive.
    + assumption.
    + reflexivity.
    + cbn [set_contextMenuTarget chatHistory].
      now apply find_session_found.
  - intros Hcur. unfold toggleBookmarkChat. rewrite Hcur.
    destruct chatId as [|c t]; [contradiction|].
    rewrite Hf. cbn [saveHistoryToStorage set_localStorage set_chatHistory
      chatHistory]. rewrite Hh.
    now rewrite update_session_found by assumption.
Qed.

(** X10.  Renaming a chat from the context menu stores the answer without
    its surrounding white space as the title of the first session with the
    target's id, stamps it and persists the collection; nothing else
    changes.  A cancelled dialog and an empty or blank answer change
    neither the collection nor what is stored.  The menu is closed
    either way. *)
Theorem renameChat_stores_trimmed_title (newTitle : option jsstring)
    (env : Env) (st : State) (chatId : jsstring) (session : ChatSession.t) :
  chatId <> [] -> contextMenuTarget st = Some (Some chatId) ->
  find_session chatId (chatHistory st) = Some session ->
  let st' := renameChat newTitle env st in
  contextMenuTarget st' = None
  /\ ((newTitle = None \/ exists answer, newTitle = Some answer
                                        /\ trim answer = []) ->
      chatHistory st' = chatHistory st /\ localStorage st' = localStorage st)
  /\ (forall answer,
        newTitle = Some answer -> trim answer <> [] ->
        exists l1 l2,
          chatHistory st = l1 ++ session :: l2
          /\ chatHistory st'
             = l1 ++ set_updatedAt (now env) (set_title (trim answer) session)
                  :: l2
          /\ localStorage st' !! "chatHistory"%string
             = Some (JSON_stringify (chatHistory st'))).
Proof.
  intros Hne Ht Hf st'. subst st'. unfold renameChat. rewrite Ht.
  destruct chatId as [|c t]; [contradiction|]. rewrite Hf.
  split; [reflexivity|]. split.
  - intros [->|(answer & -> & Hblank)]; [split; reflexivity|].
    destruct answer as [|a answer]; [split; reflexivity|].
    rewrite Hblank. split; reflexivity.
  - intros answer -> Htrim.
    destruct answer as [|a answer]; [now contradiction Htrim|].
    destruct (trim (a :: answer)) as [|b trimmed] eqn:Htr;
      [contradiction|].
    apply find_session_split in Hf as (l1 & l2 & Hh & Hid & Hl1).
    exists l1, l2. split; [exact Hh|].
    cbn [hideContextMenu saveHistoryToStorage set_localStorage
           set_chatHistory set_contextMenuTarget chatHistory localStorage].
    rewrite Hh, update_session_found by assumption.
    split; [reflexivity|]. now rewrite lookup_insert_eq.
Qed.

Lemma NoDup_map_filter {A B : Type} (f : A -> B) (p : A -> bool)
    (l : list A) :
  NoDup (map f l) -> NoDup (map f (List.filter p l)).
Proof.
  induction l as [|x l IH]; [auto|].
  cbn [map List.filter]. intros [Hx Hl]%NoDup_cons.
  destruct (p x); [|auto]. cbn [map]. apply NoDup_cons. split; [|auto].
  intros Hin. apply Hx. apply list_elem_of_In in Hin.
  apply list_elem_of_In. apply in_map_iff in Hin as (y & Hy & Hin).
  apply in_map_iff. exists y. split; [assumption|].
  now apply filter_In in Hin as [Hin _].
Qed.

Lemma number_to_string_inj (a b : N) :
  number_to_string a = number_to_string b -> a = b.
Proof.
  intros H. apply (f_equal parseInt) in H.
  rewrite !parseInt_number_to_string in H. lia.
Qed.

(** X11.  The operations on the collection keep the ids of its sessions
    distinct: deleting, renaming, pinning, archiving and bookmarking
    always, and saving the current chat whenever the id it would mint,
    [chat_] followed by the clock in milliseconds, is not in use.  Ids
    minted at different clock values are different. *)
Theorem store_operations_keep_ids_distinct (st : State) :
  NoDup (map ChatSession.id (chatHistory st)) ->
  (forall env prompt,
     (truthy (currentChatId st) = false ->
      ~ In (lit "chat_" ++ number_to_string (nowMs env))
          (map ChatSession.id (chatHistory st))) ->
     NoDup (map ChatSession.id (chatHistory (saveCurrentChat env prompt st))))
  /\ (forall confirmed,
        NoDup (map ChatSession.id (chatHistory (deleteChat confirmed st))))
  /\ (forall newTitle env,
        NoDup (map ChatSession.id (chatHistory (renameChat newTitle env st))))
  /\ (forall env,
        NoDup (map ChatSession.id (chatHistory (togglePinChat env st)))
        /\ NoDup (map ChatSession.id (chatHistory (toggleArchiveChat env st)))
        /\ NoDup (map ChatSession.id
                    (chatHistory (toggleBookmarkChat env st))))
  /\ (forall ms ms',
        lit "chat_" ++ number_to_string ms
        = lit "chat_" ++ number_to_string ms' -> ms = ms').
Proof.
  intros Hnd.
  assert (Hupd : forall chatId f,
            (forall s, ChatSession.id (f s) = ChatSession.id s) ->
            NoDup (map ChatSession.id
                     (update_session chatId f (chatHistory st)))).
  { intros chatId f Hf. now rewrite update_session_map. }
  split; [|split; [|split; [|split]]].
  - intros env prompt Hfresh. unfold saveCurrentChat.
    destruct (getMessagesFromDOM env st) as [|m ms] eqn:Hm; [exact Hnd|].
    destruct (currentChatId st) as [[|c cur]|] eqn:Hcur.
    + cbn. apply NoDup_cons. split; [|exact Hnd].
      rewrite list_elem_of_In. now apply Hfresh.
    + pose proof (saveCurrentChat_existing env prompt (c :: cur) st Hcur)
        as Heq.
      unfold saveCurrentChat in Heq. rewrite Hm, Hcur in Heq.
      rewrite Heq by (discriminate || (rewrite Hm; discriminate)).
      cbn. now apply Hupd.
    + cbn. apply NoDup_cons. split; [|exact Hnd].
      rewrite list_elem_of_In. now apply Hfresh.
  - intros confirmed. unfold deleteChat.
    destruct (contextMenuTarget st) as [[[|c t]|]|]; try exact Hnd.
    destruct confirmed; [|exact Hnd].
    destruct (strict_eq _ _); cbn; now apply NoDup_map_filter.
  - intros newTitle env. unfold renameChat.
    destruct (contextMenuTarget st) as [[[|c t]|]|]; try exact Hnd.
    destruct (find_session _ _); [|exact Hnd].
    destruct newTitle as [[|a answer]|]; try exact Hnd.
    destruct (trim (a :: answer)); [exact Hnd|]. cbn. now apply Hupd.
  - intros env. split; [|split].
    + unfold togglePinChat.
      destruct (contextMenuTarget st) as [[[|c t]|]|]; try exact Hnd.
      destruct (find_session _ _); [|exact Hnd]. cbn. now apply Hupd.
    + unfold toggleArchiveChat.
      destruct (contextMenuTarget st) as [[[|c t]|]|]; try exact Hnd.
      destruct (find_session _ _); [|exact Hnd]. cbn. now apply Hupd.
    + unfold toggleBookmarkChat.
      destruct (currentChatId st) as [[|c t]|]; try exact Hnd.
      destruct (find_session _ _); [|exact Hnd]. cbn. now apply Hupd.
  - intros ms ms' H. apply app_inv_head in H.
    now apply number_to_string_inj.
Qed.

End Flags.

(** * Turns that do not end as usual *)

Section TurnsBeyond.

Context {platform : Platform}.

Lemma startNewChat_streaming (base : State) (mid p : jsstring) (ref : nat)
    (regen : bool) (full : jsstring) (w : Wrapper) :
  startNewChat (streaming base mid p ref regen full w)
  = streaming (startNewChat base) mid p ref regen full w.
Proof. reflexivity. Qed.

(** The state in which a submission is suspended after the deltas. *)
Lemma run_submit_chunks (env : Env) (st : State) (deltas : list jsstring) :
  isAwaitingResponse st = false -> inflight st = [] ->
  trim (chatInput st) <> [] ->
  exists w,
    run st (FormSubmit env :: map (StreamChunk 0) deltas)
    = streaming (submit_base env st) (newId' env) (trim (chatInput st))
        (S (length (elements st))) false (concat deltas) w
    /\ (deltas <> [] ->
        w = {| children := Html (parseMarkdown (concat deltas));
               rawText := None; codeBlocksProcessed := false |})
    /\ (deltas = [] -> w = loading_wrapper).
Proof.
  intros Hbusy Hin Hprompt. cbn [run fold_left step].
  rewrite handleFormSubmit_streaming by assumption.
  fold (run (streaming (submit_base env st) (newId' env)
               (trim (chatInput st)) (S (length (elements st))) false []
               loading_wrapper)
          (map (StreamChunk 0) deltas)).
  assert (Href : (S (length (elements st))
                  < length (elements (submit_base env st)))%nat).
  { destruct (submit_base_frame env st) as (_ & _ & ->). lia. }
  destruct deltas as [|d ds].
  - exists loading_wrapper. split; [reflexivity|].
    split; [contradiction | reflexivity].
  - eexists. split; [now apply run_chunks|].
    split; [reflexivity | discriminate].
Qed.

(** A stream that ends while the container is empty saves nothing: the
    handler stores the raw text on its detached placeholder, finds no
    message to save and finishes. *)
Lemma stream_end_detached (env : Env) (base : State) (mid p : jsstring)
    (ref : nat) (regen : bool) (full : jsstring) (w : Wrapper) :
  (ref < length (elements base))%nat -> chatContainer base = [] ->
  let st' := stream_end 0 env (streaming base mid p ref regen full w) in
  chatHistory st' = chatHistory base
  /\ localStorage st' = localStorage base
  /\ currentChatId st' = currentChatId base
  /\ chatContainer st' = []
  /\ isAwaitingResponse st' = false /\ inflight st' = []
  /\ wrapper_at ref st'
     = Some {| children := children w; rawText := Some full;
               codeBlocksProcessed := true |}.
Proof.
  intros Href Hempty. unfold stream_end, streaming.
  cbn [inflight set_inflight set_elements lookup list_lookup loadingIndicator
         fullResponse prompt].
  unfold update_wrapper.
  cbn [elements set_inflight set_elements].
  rewrite list_lookup_insert_eq by assumption.
  unfold saveCurrentChat, getMessagesFromDOM.
  cbn [chatContainer set_inflight set_elements]. rewrite Hempty.
  cbn [flat_map]. unfold finish_turn, setFormState, wrapper_at.
  cbn. rewrite list_lookup_insert_eq
    by (rewrite length_insert; assumption).
  repeat split; try reflexivity; assumption.
Qed.

Lemma run_cons (st : State) (e : Event) (evs : list Event) :
  run st (e :: evs) = run (step st e) evs.
Proof. reflexivity. Qed.

Lemma run_nil (st : State) : run st [] = st.
Proof. reflexivity. Qed.

(** X12.  When the user starts a new chat while a reply is streaming, the
    stream goes on into the detached placeholder, and when it ends nothing
    is saved: the collection and what is stored of it are as before the
    submission, no chat is current, the view is empty, and the client is
    idle again. *)
Theorem new_chat_during_stream_discards_turn (env env' : Env) (st : State)
    (before after : list jsstring) :
  isAwaitingResponse st = false -> inflight st = [] ->
  trim (chatInput st) <> [] ->
  let st' :=
    run st (FormSubmit env :: map (StreamChunk 0) before
            ++ NewChatClick :: map (StreamChunk 0) after
            ++ [StreamEnd 0 env']) in
  chatHistory st' = chatHistory st
  /\ localStorage st' !! "chatHistory"%string
     = localStorage st !! "chatHistory"%string
  /\ currentChatId st' = None /\ chatContainer st' = []
  /\ isAwaitingResponse st' = false /\ inflight st' = [].
Proof.
  intros Hbusy Hin Hprompt st'. subst st'.
  rewrite app_comm_cons, run_app.
  destruct (run_submit_chunks env st before Hbusy Hin Hprompt)
    as (w & -> & _).
  destruct (submit_base_frame env st) as (Hh & Hl & Hlen).
  set (base := submit_base env st) in *. clearbody base.
  set (p := trim (chatInput st)) in *. clearbody p.
  rewrite run_cons.
  replace (step (streaming base (newId' env) p (S (length (elements st)))
                   false (concat before) w) NewChatClick)
    with (streaming (startNewChat base) (newId' env) p
            (S (length (elements st))) false (concat before) w)
    by reflexivity.
  rewrite run_app.
  assert (Href : (S (length (elements st))
                  < length (elements (startNewChat base)))%nat)
    by (replace (elements (startNewChat base)) with (elements base)
          by reflexivity; lia).
  destruct (run_chunks_any (startNewChat base) (newId' env) p
              (S (length (elements st))) false after
              (concat before) w Href) as (w' & -> & _ & _).
  rewrite run_cons, run_nil.
  replace (step (streaming (startNewChat base) (newId' env) p
                   (S (length (elements st))) false
                   (concat before ++ concat after) w') (StreamEnd 0 env'))
    with (stream_end 0 env'
            (streaming (startNewChat base) (newId' env) p
               (S (length (elements st))) false
               (concat before ++ concat after) w'))
    by reflexivity.
  destruct (stream_end_detached env' (startNewChat base) (newId' env) p
              (S (length (elements st))) false
              (concat before ++ concat after) w' Href eq_refl)
    as (H1 & H2 & H3 & H4 & H5 & H6 & _).
  rewrite H1, H2, H3, H4, H5, H6.
  split; [exact Hh|]. split; [exact Hl|]. repeat split.
Qed.

End TurnsBeyond.

(** * What a completed turn stores *)

Section CompletedTurn.

Context {platform : Platform}.

Lemma submit_base_shape (env : Env) (st : State) :
  let n := length (elements st) in
  let p := trim (chatInput st) in
  elements (submit_base env st)
  = elements st
    ++ [ {| data_role := user; data_messageId := newId env;
            contentWrapper :=
              {| children := TextDiv (parseMarkdown p) p; rawText := None;
                 codeBlocksProcessed := true |} |};
         {| data_role := model; data_messageId := newId' env;
            contentWrapper := loading_wrapper |} ]
  /\ chatContainer (submit_base env st) = chatContainer st ++ [n; S n]
  /\ currentChatId (submit_base env st) = currentChatId st
  /\ settings (submit_base env st) = settings st.
Proof.
  cbv zeta. unfold submit_base, appendMessage.
  cbn [fst elements chatContainer currentChatId settings set_chatContainer
         set_elements clearDraft setFormState set_isAwaitingResponse
         set_chatInput set_localStorage].
  rewrite <- !app_assoc, length_app, Nat.add_1_r. repeat split.
Qed.

(** What is read from the view when the stream of a submission has ended:
    what was there before, the user's message, and of the reply only what
    an element of class [message-text] inside its markup gives. *)
Lemma scrape_after_stream (env env' : Env) (st : State) (w : Wrapper) :
  container_valid st ->
  let n := length (elements st) in
  let base := submit_base env st in
  getMessagesFromDOM env'
    (set_elements
       (<[S n := {| data_role := model; data_messageId := newId' env;
                    contentWrapper := w |}]> (elements base)) base)
  = getMessagesFromDOM env' st
    ++ scrape_element env'
         {| data_role := user; data_messageId := newId env;
            contentWrapper :=
              {| children := TextDiv (parseMarkdown (trim (chatInput st)))
                               (trim (chatInput st));
                 rawText := None; codeBlocksProcessed := true |} |}
    ++ scrape_element env'
         {| data_role := model; data_messageId := newId' env;
            contentWrapper := w |}.
Proof.
  intros Hv n base. subst n base.
  destruct (submit_base_shape env st) as (He & Hc & _).
  rewrite !getMessagesFromDOM_flat_map.
  cbn [chatContainer elements set_elements]. rewrite Hc, He.
  set (user_el := {| data_role := user |}).
  set (n := length (elements st)).
  rewrite flat_map_app. f_equal.
  - unfold container_valid in Hv. revert Hv.
    generalize (chatContainer st). intros l Hv.
    induction Hv as [|ref l Href _ IH]; [reflexivity|].
    cbn [flat_map]. rewrite IH. f_equal.
    rewrite list_lookup_insert_ne by (fold n; lia).
    now rewrite lookup_app_l by assumption.
  - cbn [flat_map]. rewrite app_nil_r.
    rewrite list_lookup_insert_ne by lia.
    rewrite lookup_app_r by (fold n; lia).
    replace (n - length (elements st))%nat with 0%nat by (fold n; lia).
    rewrite list_lookup_insert_eq
      by (rewrite length_app; cbn [length]; fold n; lia).
    reflexivity.
Qed.

Lemma stream_end_streaming (env : Env) (base : State) (mid p : jsstring)
    (ref : nat) (regen : bool) (full : jsstring) (w : Wrapper) :
  (ref < length (elements base))%nat ->
  stream_end 0 env (streaming base mid p ref regen full w)
  = finish_turn 0
      (saveCurrentChat env p
         (streaming base mid p ref regen full
            (processCodeBlocks (set_rawText full w)))).
Proof.
  intros Href. unfold stream_end, streaming.
  cbn [inflight set_inflight set_elements lookup list_lookup loadingIndicator
         fullResponse prompt].
  unfold update_wrapper. cbn [elements set_inflight set_elements].
  rewrite list_lookup_insert_eq by assumption.
  cbn [data_role data_messageId contentWrapper set_elements set_inflight
         elements].
  now rewrite list_insert_insert_eq.
Qed.

(** The session that [saveCurrentChat] creates when no chat is current:
    its messages are those read from the view. *)
Lemma saveCurrentChat_new_session (env : Env) (p : jsstring) (st : State) :
  truthy (currentChatId st) = false -> getMessagesFromDOM env st <> [] ->
  let chatId := lit "chat_" ++ number_to_string (nowMs env) in
  let st' := saveCurrentChat env p st in
  exists session,
    chatHistory st' = session :: chatHistory st
    /\ ChatSession.id session = chatId
    /\ ChatSession.title session = session_title p
    /\ ChatSession.messages session = getMessagesFromDOM env st
    /\ currentChatId st' = Some chatId
    /\ localStorage st' !! "chatHistory"%string
       = Some (JSON_stringify (chatHistory st')).
Proof.
  intros Hnew Hm. cbv zeta. unfold saveCurrentChat.
  destruct (getMessagesFromDOM env st) as [|m ms]; [contradiction|].
  destruct (currentChatId st) as [[|c cur]|]; try discriminate Hnew.
  all: eexists; cbn [saveHistoryToStorage set_localStorage set_chatHistory
                       set_currentChatId chatHistory currentChatId
                       localStorage].
  all: rewrite lookup_insert_eq; repeat split; reflexivity.
Qed.

Lemma streaming_frame (env : Env) (base : State) (mid p : jsstring)
    (ref : nat) (regen : bool) (full : jsstring) (w : Wrapper) :
  let st := streaming base mid p ref regen full w in
  currentChatId st = currentChatId base
  /\ chatHistory st = chatHistory base
  /\ getMessagesFromDOM env st
     = getMessagesFromDOM env
         (set_elements
            (<[ref := {| data_role := model; data_messageId := mid;
                         contentWrapper := w |}]> (elements base)) base).
Proof. repeat split. Qed.

Lemma finish_turn_frame (i : nat) (st : State) :
  chatHistory (finish_turn i st) = chatHistory st
  /\ currentChatId (finish_turn i st) = currentChatId st
  /\ localStorage (finish_turn i st) = localStorage st.
Proof. repeat split. Qed.

Lemma step_stream_end (i : nat) (env : Env) (st : State) :
  step st (StreamEnd i env) = stream_end i env st.
Proof. reflexivity. Qed.

(** X13.  A completed turn in a chat that is not yet stored creates the
    session, but of the reply it stores only what [getMessagesFromDOM]
    finds: the streamed reply replaced the children of the placeholder, so
    it is stored only when its own markup holds an element of class
    [message-text], and then with that element's text.  Otherwise the new
    session ends with the user's prompt: the reply is shown but not
    stored. *)
Theorem completed_turn_stores_prompt (env env' : Env) (st : State)
    (deltas : list jsstring) :
  isAwaitingResponse st = false -> inflight st = [] ->
  trim (chatInput st) <> [] ->
  container_valid st -> truthy (currentChatId st) = false ->
  let st' :=
    run st (FormSubmit env :: map (StreamChunk 0) deltas
            ++ [StreamEnd 0 env']) in
  let read := fun r mid text =>
    {| Message.id := match mid with [] => newId env' | _ => mid end;
       Message.role := r; Message.parts := [text];
       Message.timestamp := now env'; Message.reactions := None;
       Message.isBookmarked := None; Message.threadId := None |} in
  let reply :=
    match deltas with
    | [] => []
    | _ :: _ => message_text_of_html (parseMarkdown (concat deltas))
    end in
  exists session,
    chatHistory st' = session :: chatHistory st
    /\ currentChatId st' = Some (ChatSession.id session)
    /\ ChatSession.title session = session_title (trim (chatInput st))
    /\ ChatSession.messages session
       = getMessagesFromDOM env' st
         ++ read user (newId env) (trim (chatInput st))
            :: match reply with
               | [] => []
               | _ :: _ => [read model (newId' env) reply]
               end
    /\ localStorage st' !! "chatHistory"%string
       = Some (JSON_stringify (chatHistory st')).
Proof.
  intros Hbusy Hin Hprompt Hv Hnew. cbv zeta.
  rewrite app_comm_cons, run_app.
  destruct (run_submit_chunks env st deltas Hbusy Hin Hprompt)
    as (w & -> & Hsome & Hnone).
  assert (Hw : children w
               = match deltas with
                 | [] => LoadingDots
                 | _ :: _ => Html (parseMarkdown (concat deltas))
                 end).
  { destruct deltas as [|d ds]; [now rewrite Hnone|].
    now rewrite Hsome by discriminate. }
  clear Hsome Hnone.
  rewrite run_cons, run_nil, step_stream_end.
  destruct (submit_base_shape env st) as (He & Hc & Hcur & _).
  destruct (submit_base_frame env st) as (Hbase & _).
  rewrite stream_end_streaming
    by (rewrite He, length_app; cbn [length]; lia).
  set (w' := processCodeBlocks (set_rawText (concat deltas) w)).
  pose proof (scrape_after_stream env env' st w' Hv) as Hscrape.
  cbv zeta in Hscrape.
  destruct (streaming_frame env' (submit_base env st) (newId' env)
              (trim (chatInput st)) (S (length (elements st))) false
              (concat deltas) w') as (Hcur' & Hhist & Hread).
  rewrite <- Hread in Hscrape. clear Hread.
  set (streamed := streaming _ _ _ _ _ _ w') in *.
  rewrite Hcur in Hcur'. rewrite Hbase in Hhist.
  assert (Huser :
    scrape_element env'
      {| data_role := user; data_messageId := newId env;
         contentWrapper :=
           {| children := TextDiv (parseMarkdown (trim (chatInput st)))
                            (trim (chatInput st));
              rawText := None; codeBlocksProcessed := true |} |}
    = [ {| Message.id := match newId env with
                         | [] => newId env'
                         | _ => newId env
                         end;
           Message.role := user; Message.parts := [trim (chatInput st)];
           Message.timestamp := now env'; Message.reactions := None;
           Message.isBookmarked := None; Message.threadId := None |} ]).
  { unfold scrape_element. cbn [scraped_text contentWrapper children
      data_role data_messageId].
    destruct (trim (chatInput st)); [contradiction|].
    now destruct (newId env). }
  set (reply := match deltas with
                | [] => []
                | _ :: _ => message_text_of_html (parseMarkdown (concat deltas))
                end).
  assert (Hreply :
    scrape_element env'
      {| data_role := model; data_messageId := newId' env;
         contentWrapper := w' |}
    = match reply with
      | [] => []
      | _ :: _ =>
          [ {| Message.id := match newId' env with
                             | [] => newId env'
                             | _ => newId' env
                             end;
               Message.role := model; Message.parts := [reply];
               Message.timestamp := now env'; Message.reactions := None;
               Message.isBookmarked := None; Message.threadId := None |} ]
      end).
  { unfold scrape_element, w'. cbn [contentWrapper data_role data_messageId].
    unfold scraped_text.
    change (children (processCodeBlocks (set_rawText (concat deltas) w)))
      with (children w).
    rewrite Hw. subst reply. destruct deltas as [|d ds]; [reflexivity|].
    destruct (message_text_of_html _); [reflexivity|].
    now destruct (newId' env). }
  rewrite Huser, Hreply in Hscrape. clear Huser Hreply.
  destruct (saveCurrentChat_new_session env' (trim (chatInput st)) streamed)
    as (session & Hh & Hid & Htitle & Hmsgs & Hcurrent & Hstore).
  { now rewrite Hcur'. }
  { rewrite Hscrape. now destruct (getMessagesFromDOM env' st). }
  exists session.
  destruct (finish_turn_frame 0
              (saveCurrentChat env' (trim (chatInput st)) streamed))
    as (-> & -> & ->).
  rewrite Hhist in Hh.
  split; [exact Hh|]. split; [now rewrite Hid|]. split; [exact Htitle|].
  split; [now rewrite Hmsgs, Hscrape|]. exact Hstore.
Qed.

End CompletedTurn.

(** * Drafts *)

Section Drafts.

Lemma trim_nil : trim [] = [].
Proof. reflexivity. Qed.

Lemma submit_base_draft (env : Env) (st : State) :
  localStorage (submit_base env st)
  = delete "draftMessage"%string (localStorage st)
  /\ chatInput (submit_base env st) = [].
Proof. split; reflexivity. Qed.

Lemma streaming_storage (base : State) (mid p : jsstring) (ref : nat)
    (regen : bool) (full : jsstring) (w : Wrapper) :
  localStorage (streaming base mid p ref regen full w) = localStorage base
  /\ chatInput (streaming base mid p ref regen full w) = chatInput base.
Proof. split; reflexivity. Qed.

(** X14.  A draft is the input as typed, stored on every input event
    while [autoSave] is on and the input is not blank.  [loadDraft] puts
    it back verbatim.  Blanking the input does not remove what was stored,
    so the last non-blank input comes back; a submission removes it. *)
Theorem draft_survives_until_submit (env : Env) (st : State)
    (typed : jsstring) :
  trim typed <> [] ->
  let saved := saveDraft true (set_chatInput typed st) in
  localStorage saved !! "draftMessage"%string = Some typed
  /\ (forall other, chatInput (loadDraft (set_chatInput other saved)) = typed)
  /\ (forall blank,
        trim blank = [] ->
        saveDraft true (set_chatInput blank saved) = set_chatInput blank saved)
  /\ saveDraft false (set_chatInput typed st) = set_chatInput typed st
  /\ (isAwaitingResponse st = false -> inflight st = [] ->
      localStorage (handleFormSubmit env saved) !! "draftMessage"%string = None
      /\ chatInput (loadDraft (handleFormSubmit env saved)) = []).
Proof.
  intros Htyped. cbv zeta.
  assert (Hne : typed <> []) by (intros ->; now apply Htyped).
  assert (Hsaved : saveDraft true (set_chatInput typed st)
                   = set_localStorage
                       (<["draftMessage"%string := typed]> (localStorage st))
                       (set_chatInput typed st)).
  { unfold saveDraft. cbn [chatInput set_chatInput localStorage].
    now destruct (trim typed). }
  rewrite Hsaved. split; [|split; [|split; [|split]]].
  - cbn [localStorage set_localStorage]. apply lookup_insert_eq.
  - intros other. unfold loadDraft.
    cbn [localStorage set_localStorage set_chatInput].
    rewrite lookup_insert_eq. now destruct typed.
  - intros blank Hblank. unfold saveDraft.
    cbn [chatInput set_chatInput]. now rewrite Hblank.
  - reflexivity.
  - intros Hbusy Hin.
    rewrite handleFormSubmit_streaming by assumption.
    destruct (streaming_storage
                (submit_base env
                   (set_localStorage
                      (<["draftMessage"%string := typed]> (localStorage st))
                      (set_chatInput typed st)))
                (newId' env)
                (trim (chatInput
                         (set_localStorage
                            (<["draftMessage"%string := typed]>
                               (localStorage st))
                            (set_chatInput typed st))))
                (S (length (elements
                              (set_localStorage
                                 (<["draftMessage"%string := typed]>
                                    (localStorage st))
                                 (set_chatInput typed st)))))
                false [] loading_wrapper) as (Hl & Hi).
    destruct (submit_base_draft env
                (set_localStorage
                   (<["draftMessage"%string := typed]> (localStorage st))
                   (set_chatInput typed st))) as (Hl' & Hi').
    unfold loadDraft. rewrite Hl, Hl', lookup_delete_eq.
    split; [reflexivity|]. now rewrite Hi, Hi'.
Qed.

End Drafts.


(** * The further properties at concrete inputs *)

Lemma loadChatSession_then_scrape_witness :
  let stored := fun mid r text =>
    {| Message.id := mid; Message.role := r; Message.parts := [text];
       Message.timestamp := lit "2024-12-31T10:00:00.000Z";
       Message.reactions := Some [(lit "+1", 2%nat)];
       Message.isBookmarked := Some true; Message.threadId := None |} in
  let read := fun mid r text =>
    {| Message.id := mid; Message.role := r; Message.parts := [text];
       Message.timestamp := now sample_env;
       Message.reactions := None; Message.isBookmarked := None;
       Message.threadId := None |} in
  let session :=
    set_messages [stored (lit "m1") user (lit "hi");
                  stored (lit "m2") model (lit "hello")]
      (sample_session (lit "chat_1") (lit "first")) in
  let st := set_chatHistory [session] (initial_state sample_settings) in
  exists st',
    loadChatSession (fun _ => lit "id_new") (lit "chat_1") st = Normal st'
    /\ @getMessagesFromDOM sample_platform sample_env st'
       = [read (lit "m1") user (lit "hi"); read (lit "m2") model (lit "hello")].
Proof.
  cbv zeta.
  destruct (@loadChatSession_then_scrape sample_platform sample_env
              (fun _ => lit "id_new") (lit "chat_1")
              (set_messages
                 [ {| Message.id := lit "m1"; Message.role := user;
                      Message.parts := [lit "hi"];
                      Message.timestamp := lit "2024-12-31T10:00:00.000Z";
                      Message.reactions := Some [(lit "+1", 2%nat)];
                      Message.isBookmarked := Some true;
                      Message.threadId := None |};
                   {| Message.id := lit "m2"; Message.role := model;
                      Message.parts := [lit "hello"];
                      Message.timestamp := lit "2024-12-31T10:00:00.000Z";
                      Message.reactions := Some [(lit "+1", 2%nat)];
                      Message.isBookmarked := Some true;
                      Message.threadId := None |} ]
                 (sample_session (lit "chat_1") (lit "first")))
              (set_chatHistory
                 [set_messages
                    [ {| Message.id := lit "m1"; Message.role := user;
                         Message.parts := [lit "hi"];
                         Message.timestamp := lit "2024-12-31T10:00:00.000Z";
                         Message.reactions := Some [(lit "+1", 2%nat)];
                         Message.isBookmarked := Some true;
                         Message.threadId := None |};
                      {| Message.id := lit "m2"; Message.role := model;
                         Message.parts := [lit "hello"];
                         Message.timestamp := lit "2024-12-31T10:00:00.000Z";
                         Message.reactions := Some [(lit "+1", 2%nat)];
                         Message.isBookmarked := Some true;
                         Message.threadId := None |} ]
                    (sample_session (lit "chat_1") (lit "first"))]
                 (initial_state sample_settings)))
    as (Hload & _).
  - intros i. discriminate.
  - reflexivity.
  - destruct Hload as (st' & Hrun & _ & _ & _ & Hread).
    + repeat constructor; discriminate.
    + exists st'. split; [exact Hrun|]. rewrite Hread; [reflexivity|].
      repeat constructor; try discriminate; eexists; split;
        first [reflexivity | discriminate].
Defined.

Lemma saveCurrentChat_updates_in_place_witness :
  let st :=
    set_currentChatId (Some (lit "chat_2"))
      (set_chatHistory
         [sample_session (lit "chat_1") (lit "first");
          sample_session (lit "chat_2") (lit "second")]
         (fst (appendMessage user (Some (lit "hi")) (lit "m1")
                 (initial_state sample_settings)))) in
  let st' := @saveCurrentChat sample_platform sample_env (lit "hi") st in
  map ChatSession.title (chatHistory st') = [lit "first"; lit "second"]
  /\ map ChatSession.id (chatHistory st') = [lit "chat_1"; lit "chat_2"].
Proof.
  cbv zeta.
  destruct (@saveCurrentChat_updates_in_place sample_platform sample_env
              (lit "hi") (lit "chat_2")
              (set_currentChatId (Some (lit "chat_2"))
                 (set_chatHistory
                    [sample_session (lit "chat_1") (lit "first");
                     sample_session (lit "chat_2") (lit "second")]
                    (fst (appendMessage user (Some (lit "hi")) (lit "m1")
                            (initial_state sample_settings))))))
    as (_ & Hid & Htitle & _).
  - reflexivity.
  - discriminate.
  - vm_compute. discriminate.
  - split; [exact Htitle | exact Hid].
Defined.

Lemma pin_and_archive_toggles_witness :
  let st :=
    set_contextMenuTarget (Some (Some (lit "chat_2")))
      (set_chatHistory
         [sample_session (lit "chat_1") (lit "first");
          sample_session (lit "chat_2") (lit "second")]
         (initial_state sample_settings)) in
  map ChatSession.isPinned
    (chatHistory (@togglePinChat sample_platform sample_env st))
  = [false; true]
  /\ map ChatSession.isArchived
       (chatHistory (@toggleArchiveChat sample_platform sample_env st))
     = [false; true].
Proof.
  cbv zeta.
  destruct (@pin_and_archive_toggles sample_platform sample_env
              (set_contextMenuTarget (Some (Some (lit "chat_2")))
                 (set_chatHistory
                    [sample_session (lit "chat_1") (lit "first");
                     sample_session (lit "chat_2") (lit "second")]
                    (initial_state sample_settings)))
              (lit "chat_2") (sample_session (lit "chat_2") (lit "second")))
    as (l1 & l2 & Hh & Hpin & Harch & _).
  - discriminate.
  - reflexivity.
  - reflexivity.
  - rewrite Hpin, Harch.
    destruct l1 as [|s1 [|s2 l1]]; try discriminate Hh.
    + cbn [app] in Hh. injection Hh as Hs Hl. subst s1 l2. split; reflexivity.
    + exfalso. cbn [app] in Hh. injection Hh as _ _ Hh.
      destruct l1; discriminate Hh.
Defined.

Lemma renameChat_stores_trimmed_title_witness :
  let st :=
    set_contextMenuTarget (Some (Some (lit "chat_1")))
      (set_chatHistory [sample_session (lit "chat_1") (lit "first")]
         (initial_state sample_settings)) in
  map ChatSession.title
    (chatHistory
       (@renameChat sample_platform (Some (lit "  Plans for May ")) sample_env
          st))
  = [lit "Plans for May"].
Proof.
  cbv zeta.
  destruct (@renameChat_stores_trimmed_title sample_platform
              (Some (lit "  Plans for May ")) sample_env
              (set_contextMenuTarget (Some (Some (lit "chat_1")))
                 (set_chatHistory
                    [sample_session (lit "chat_1") (lit "first")]
                    (initial_state sample_settings)))
              (lit "chat_1") (sample_session (lit "chat_1") (lit "first")))
    as (_ & _ & Hrename).
  - discriminate.
  - reflexivity.
  - reflexivity.
  - destruct (Hrename (lit "  Plans for May ") eq_refl)
      as (l1 & l2 & Hh & -> & _).
    + vm_compute. discriminate.
    + destruct l1 as [|s1 l1].
      * injection Hh as <-. reflexivity.
      * exfalso. injection Hh as _ Hh. destruct l1; discriminate Hh.
Defined.

Lemma store_operations_keep_ids_distinct_witness :
  let st :=
    set_contextMenuTarget (Some (Some (lit "chat_1")))
      (set_chatHistory
         [sample_session (lit "chat_1") (lit "first");
          sample_session (lit "chat_2") (lit "second")]
         (initial_state sample_settings)) in
  NoDup (map ChatSession.id
           (chatHistory (@togglePinChat sample_platform sample_env st))).
Proof.
  cbv zeta.
  destruct (@store_operations_keep_ids_distinct sample_platform
              (set_contextMenuTarget (Some (Some (lit "chat_1")))
                 (set_chatHistory
                    [sample_session (lit "chat_1") (lit "first");
                     sample_session (lit "chat_2") (lit "second")]
                    (initial_state sample_settings))))
    as (_ & _ & _ & Htoggle & _).
  - cbn. repeat (apply NoDup_cons; split);
      try apply NoDup_nil_2; rewrite ?list_elem_of_In; cbn;
      intuition discriminate.
  - apply Htoggle.
Defined.

Lemma new_chat_during_stream_discards_turn_witness :
  let st' :=
    @run sample_platform sample_ready
      (FormSubmit sample_env :: map (StreamChunk 0) [lit "Hel"]
       ++ NewChatClick :: map (StreamChunk 0) [lit "lo"]
       ++ [StreamEnd 0 sample_env]) in
  chatHistory st' = [] /\ chatContainer st' = []
  /\ isAwaitingResponse st' = false.
Proof.
  cbv zeta.
  destruct (@new_chat_during_stream_discards_turn sample_platform sample_env
              sample_env sample_ready [lit "Hel"] [lit "lo"])
    as (Hh & _ & _ & Hc & Hb & _).
  - reflexivity.
  - reflexivity.
  - vm_compute. discriminate.
  - split; [exact Hh|]. split; [exact Hc | exact Hb].
Defined.

Lemma completed_turn_stores_prompt_witness :
  let st' :=
    @run sample_platform sample_ready
      (FormSubmit sample_env :: map (StreamChunk 0) [lit "Hi "; lit "there"]
       ++ [StreamEnd 0 sample_env]) in
  exists session,
    chatHistory st' = [session]
    /\ map Message.role (ChatSession.messages session) = [user]
    /\ map Message.parts (ChatSession.messages session) = [[lit "hello"]].
Proof.
  cbv zeta.
  destruct (@completed_turn_stores_prompt sample_platform sample_env
              sample_env sample_ready [lit "Hi "; lit "there"])
    as (session & Hh & _ & _ & Hm & _).
  - reflexivity.
  - reflexivity.
  - vm_compute. discriminate.
  - constructor.
  - reflexivity.
  - exists session. split; [exact Hh|]. rewrite Hm. split; reflexivity.
Defined.

Lemma draft_survives_until_submit_witness :
  let saved :=
    saveDraft true
      (set_chatInput (lit " call mum ") (initial_state sample_settings)) in
  chatInput (loadDraft (set_chatInput [] saved)) = lit " call mum "
  /\ chatInput
       (loadDraft (handleFormSubmit sample_env saved)) = [].
Proof.
  cbv zeta.
  destruct (draft_survives_until_submit sample_env
              (initial_state sample_settings) (lit " call mum "))
    as (_ & Hload & _ & _ & Hsubmit).
  - vm_compute. discriminate.
  - split; [apply Hload|]. now apply Hsubmit.
Defined.
